(** * Command-line parser of the inference server: a shallow embedding

    The development follows [src/command_line_parser.cc]:

    - the value parsers [ParseOption<T>] and [ParsePairOption];
    - the compound parsers of [TritonParser]
      ([ParseCacheConfigOption], [ParseBackendConfigOption],
      [ParseHostPolicyOption], [ParseRateLimiterResourceOption]);
    - the long-option scanner [getopt_long] that the file itself defines
      (the one it compiles where the C library has none), and the option
      loop and post-parsing validation of [TritonParser::Parse];
    - [TritonServerParameters::CheckPortCollision];
    - the line-breaking loop [TritonParser::FormatUsageMessage].

    Conventions.  [int] is a 32-bit and [int64_t] a 64-bit two's
    complement integer, [size_t] and [uint64_t] are 64-bit unsigned; all
    of them are carried by [Z] and every conversion between them is
    written out.  A C++ exception is a value of type [exception]; a
    function that may throw returns a [Result].  All [TRITON_ENABLE_*]
    features are taken as compiled in.  Text written to [std::cerr] is
    not part of the model. *)

From Stdlib Require Import ZArith List String Ascii Bool Lia Permutation.
From Stdlib Require Import DecimalString.
Import ListNotations.

Local Open Scope string_scope.
Local Open Scope Z_scope.

(* ================================================================== *)
(** * Part I.  Definitions                                             *)
(* ================================================================== *)

(** ** Machine integers *)

Definition INT_MIN : Z := - 2 ^ 31.
Definition INT_MAX : Z := 2 ^ 31 - 1.
Definition LLONG_MIN : Z := - 2 ^ 63.
Definition LLONG_MAX : Z := 2 ^ 63 - 1.
Definition ULLONG_MAX : Z := 2 ^ 64 - 1.

(** [std::string::npos], the largest [size_t]. *)
Definition npos : Z := 2 ^ 64 - 1.

(** Conversion of an integer value to [size_t] (reduction modulo 2^64). *)
Definition to_size_t (z : Z) : Z := z mod 2 ^ 64.

(** Conversion of a [size_t] to [int], as in [int delim = arg.find(...)]:
    the low 32 bits, read as two's complement. *)
Definition to_int (z : Z) : Z := (z + 2 ^ 31) mod 2 ^ 32 - 2 ^ 31.

(** [operator==] on [std::string]. *)
Infix "==" := String.eqb (at level 70, no associativity).

(** ** Exceptions and results *)

(** The messages [ParseException] is thrown with in this file.  Each
    constructor is one message of the source and carries the values the
    message is built from; [what] renders the text. *)
Inductive Message : Type :=
| NoMessage
| InvalidBoolOption (arg : string)
| PairOptionFormat (delim_str arg : string)
| InvalidLogFormat
| InvalidCompressionLevel
| InvalidModelControlMode
| InvalidRateLimit
| RateLimitResourceParse (optarg : string)
| RateLimitResourceFormat (arg : string)
| UnexpectedArgument (token : string)
| IncompatibleCacheFlags
| NoCacheSpecified (arg : string)
| CacheConfigFormat (arg : string)
| NoBackendSpecified (arg : string)
| BackendConfigFormat (arg : string)
| HostPolicyFormat (arg : string)
| InvalidTraceLevel (arg : string)
| PortOutOfRange (service : string) (port range_min range_max : Z)
| PortCollision (service comparing_service address : string) (port : Z).

Inductive exception : Type :=
| ParseException (m : Message)
| std_invalid_argument
| std_out_of_range.

Inductive Result (A : Type) : Type :=
| Ok (a : A)
| Throw (e : exception).

Arguments Ok {A} a.
Arguments Throw {A} e.

Definition bind {A B : Type} (r : Result A) (k : A -> Result B) : Result B :=
  match r with
  | Ok a => k a
  | Throw e => Throw e
  end.

Notation "x <- r ;; k" := (bind r (fun x => k))
  (at level 61, r at next level, right associativity).
Notation "' p <- r ;; k" := (bind r (fun p => k))
  (at level 61, p pattern, r at next level, right associativity).

(** [try { r } catch (const std::invalid_argument&) { throw e; }] *)
Definition catch_invalid_argument {A : Type} (r : Result A) (e : exception)
  : Result A :=
  match r with
  | Throw std_invalid_argument => Throw e
  | _ => r
  end.

(** ** The parts of [std::string] and [<cctype>] the source uses *)

Definition size (s : string) : Z := Z.of_nat (String.length s).

(** [s.find(pat, pos)]: the first position [>= pos] at which [pat] occurs
    in [s], [npos] when there is none (in particular when [pos > size]). *)
Definition find (s pat : string) (pos : Z) : Z :=
  if size s <? pos then npos
  else match index (Z.to_nat pos) pat s with
       | Some i => Z.of_nat i
       | None => npos
       end.

(** [s.substr(pos, n)]: throws [std::out_of_range] when [pos > size],
    otherwise the [min(n, size - pos)] characters from [pos]. *)
Definition substr (s : string) (pos n : Z) : Result string :=
  if size s <? pos then Throw std_out_of_range
  else Ok (substring (Z.to_nat pos) (Z.to_nat (Z.min n (size s - pos))) s).

(** [c] occurs in [s]. *)
Fixpoint contains (c : ascii) (s : string) : bool :=
  match s with
  | EmptyString => false
  | String c' s' => Ascii.eqb c' c || contains c s'
  end.

(** [std::tolower] in the "C" locale. *)
Definition tolower (c : ascii) : ascii :=
  let n := nat_of_ascii c in
  if ((65 <=? n) && (n <=? 90))%nat then ascii_of_nat (n + 32) else c.

(** [std::transform(s.begin(), s.end(), s.begin(), f)] *)
Fixpoint transform (f : ascii -> ascii) (s : string) : string :=
  match s with
  | EmptyString => EmptyString
  | String c s' => String (f c) (transform f s')
  end.

(** [std::isspace] in the "C" locale: space, \t, \n, \v, \f, \r. *)
Definition isspace (c : ascii) : bool :=
  let n := nat_of_ascii c in
  ((n =? 32) || ((9 <=? n) && (n <=? 13)))%nat.

Definition digit_value (c : ascii) : option Z :=
  let n := nat_of_ascii c in
  if ((48 <=? n) && (n <=? 57))%nat then Some (Z.of_nat (n - 48)) else None.

Fixpoint skip_spaces (s : string) : string :=
  match s with
  | String c s' => if isspace c then skip_spaces s' else s
  | EmptyString => s
  end.

(** The longest run of decimal digits at the front of [s]: its value
    (starting from [acc]) and its length. *)
Fixpoint read_digits (s : string) (acc : Z) : Z * nat :=
  match s with
  | String c s' =>
      match digit_value c with
      | Some d => let '(v, n) := read_digits s' (10 * acc + d) in (v, S n)
      | None => (acc, O)
      end
  | EmptyString => (acc, O)
  end.

(** [s] starts with a decimal digit. *)
Definition starts_with_digit (s : string) : bool :=
  match s with
  | String c _ => match digit_value c with Some _ => true | None => false end
  | EmptyString => false
  end.

(** The subject sequence [strtol], [strtoll] and [strtoull] recognise in
    base 10: white space, an optional sign, then digits.  The result is
    [None] when there is no digit (no conversion is performed), otherwise
    the sign and the magnitude; whatever follows the digits is ignored. *)
Definition strto_subject (s : string) : option (bool * Z) :=
  let s1 := skip_spaces s in
  let '(negative, s2) :=
    match s1 with
    | String "-" r => (true, r)
    | String "+" r => (false, r)
    | _ => (false, s1)
    end in
  match read_digits s2 0 with
  | (_, O) => None
  | (v, S _) => Some (negative, v)
  end.

(** [std::stoi(arg)]: [std::invalid_argument] when no conversion can be
    performed, [std::out_of_range] when the value does not fit [int]. *)
Definition stoi (arg : string) : Result Z :=
  match strto_subject arg with
  | None => Throw std_invalid_argument
  | Some (negative, v) =>
      let r := if negative then - v else v in
      if (r <? INT_MIN) || (INT_MAX <? r) then Throw std_out_of_range
      else Ok r
  end.

(** [std::stoll(arg)] *)
Definition stoll (arg : string) : Result Z :=
  match strto_subject arg with
  | None => Throw std_invalid_argument
  | Some (negative, v) =>
      let r := if negative then - v else v in
      if (r <? LLONG_MIN) || (LLONG_MAX <? r) then Throw std_out_of_range
      else Ok r
  end.

(** [std::stoull(arg)]: a minus sign negates the value in unsigned
    arithmetic. *)
Definition stoull (arg : string) : Result Z :=
  match strto_subject arg with
  | None => Throw std_invalid_argument
  | Some (negative, v) =>
      if ULLONG_MAX <? v then Throw std_out_of_range
      else Ok (if negative then to_size_t (- v) else v)
  end.

(** [std::to_string] of an integer. *)
Definition to_string (z : Z) : string := NilZero.string_of_int (Z.to_int z).

Definition endl : string := String "010"%char EmptyString.

(** The text of each message, as the source assembles it. *)
Definition what (m : Message) : string :=
  match m with
  | NoMessage => ""
  | InvalidBoolOption arg => "invalid value for bool option: " ++ arg
  | PairOptionFormat delim_str arg =>
      "Cannot parse pair option due to incorrect number of inputs."
      ++ "--<pair option> argument requires format <first>"
      ++ delim_str ++ "<second>. " ++ "Found: " ++ arg ++ endl
  | InvalidLogFormat => "invalid argument for --log-format"
  | InvalidCompressionLevel =>
      "invalid argument for --grpc_infer_response_compression_level"
  | InvalidModelControlMode => "invalid argument for --model-control-mode"
  | InvalidRateLimit => "invalid argument for --rate-limit"
  | RateLimitResourceParse optarg =>
      "failed to parse '" ++ optarg ++ "' as <str>:<int>:<int>"
  | RateLimitResourceFormat arg =>
      "--rate-limit-resource option format is "
      ++ "'<resource_name>:<count>:<device>' or '<resource_name>:<count>'. Got "
      ++ arg
  | UnexpectedArgument token => "Unexpected argument: " ++ token
  | IncompatibleCacheFlags =>
      "Error: Incompatible flags --response-cache-byte-size and "
      ++ "--cache-config both provided. Please provide one or the other."
  | NoCacheSpecified arg =>
      "No cache specified. --cache-config option format is "
      ++ "<cache name>,<setting>=<value>. Got " ++ arg ++ endl
  | CacheConfigFormat arg =>
      "--cache-config option format is '<cache "
      ++ "name>,<setting>=<value>'. Got " ++ arg ++ endl
  | NoBackendSpecified arg =>
      "No backend specified. --backend-config option format is "
      ++ "<backend name>,<setting>=<value> or "
      ++ "<setting>=<value>. Got " ++ arg ++ endl
  | BackendConfigFormat arg =>
      "--backend-config option format is '<backend "
      ++ "name>,<setting>=<value>'. Got " ++ arg ++ endl
  | HostPolicyFormat arg =>
      "--host-policy option format is '<policy "
      ++ "name>,<setting>=<value>'. Got " ++ arg ++ endl
  | InvalidTraceLevel arg => "invalid value for trace level option: " ++ arg
  | PortOutOfRange service port range_min range_max =>
      "The server cannot listen to " ++ service ++ " requests at port "
      ++ to_string port ++ ", allowed port range is ["
      ++ to_string range_min ++ ", " ++ to_string range_max ++ "]" ++ endl
  | PortCollision service comparing_service address port =>
      "The server cannot listen to " ++ service ++ " requests "
      ++ "and " ++ comparing_service
      ++ " requests at the same address and port " ++ address
      ++ ":" ++ to_string port ++ endl
  end.

(** ** [ParseOption<T>] and [ParsePairOption<T1, T2>] *)

Definition ParseOption_int (arg : string) : Result Z := stoi arg.

Definition ParseOption_uint64_t (arg : string) : Result Z := stoull arg.

Definition ParseOption_int64_t (arg : string) : Result Z := stoll arg.

Definition ParseOption_bool (arg : string) : Result bool :=
  let larg := transform tolower arg in
  if (larg == "true") || (larg == "on") || (larg == "1") then Ok true
  else if (larg == "false") || (larg == "off") || (larg == "0") then Ok false
  else Throw (ParseException (InvalidBoolOption arg)).

Definition ParseIntBoolOption (arg0 : string) : Result Z :=
  let arg := transform tolower arg0 in
  if arg == "true" then Ok 1
  else if arg == "false" then Ok 0
  else ParseOption_int arg.

(** The two type parameters are passed as their [ParseOption]
    specialisations; the braced initialiser evaluates them left to right. *)
Definition ParsePairOption {T1 T2 : Type}
    (ParseOption_T1 : string -> Result T1)
    (ParseOption_T2 : string -> Result T2)
    (arg delim_str : string) : Result (T1 * T2) :=
  let delim := to_int (find arg delim_str 0) in
  if delim <? 0 then Throw (ParseException (PairOptionFormat delim_str arg))
  else
    first_string <- substr arg 0 (to_size_t delim) ;;
    second_string <-
      substr arg (to_size_t (to_size_t delim + size delim_str)) npos ;;
    first <- ParseOption_T1 first_string ;;
    second <- ParseOption_T2 second_string ;;
    Ok (first, second).

(** ** The compound parsers of [TritonParser] *)

Definition empty (s : string) : bool := s == "".

Definition ParseCacheConfigOption (arg : string)
  : Result (string * string * string) :=
  let delim_name := to_int (find arg "," 0) in
  let delim_setting := to_int (find arg "=" (to_size_t (delim_name + 1))) in
  name_string <-
    (if 0 <? delim_name then substr arg 0 (to_size_t delim_name)
     else Throw (ParseException (NoCacheSpecified arg))) ;;
  if delim_setting <? 0 then Throw (ParseException (CacheConfigFormat arg))
  else
    setting_string <-
      substr arg (to_size_t (delim_name + 1))
             (to_size_t (delim_setting - delim_name - 1)) ;;
    value_string <- substr arg (to_size_t (delim_setting + 1)) npos ;;
    if empty setting_string || empty value_string
    then Throw (ParseException (CacheConfigFormat arg))
    else Ok (name_string, setting_string, value_string).

Definition ParseRateLimiterResourceOption (arg : string)
  : Result (string * Z * Z) :=
  let error_string := RateLimitResourceFormat arg in
  let device_id := -1 in
  let delim_first := find arg ":" 0 in
  let delim_second := find arg ":" (to_size_t (delim_first + 1)) in
  if negb (delim_second =? npos) then
    let delim_third := find arg ":" (to_size_t (delim_second + 1)) in
    if negb (delim_third =? npos) then Throw (ParseException error_string)
    else
      name_string <- substr arg 0 delim_first ;;
      count_string <-
        substr arg (to_size_t (delim_first + 1))
               (to_size_t (delim_second - delim_first - 1)) ;;
      count <- ParseOption_int count_string ;;
      device_string <- substr arg (to_size_t (delim_second + 1)) npos ;;
      device_id <- ParseOption_int device_string ;;
      Ok (name_string, count, device_id)
  else if negb (delim_first =? npos) then
    name_string <- substr arg 0 delim_first ;;
    count_string <- substr arg (to_size_t (delim_first + 1)) npos ;;
    count <- ParseOption_int count_string ;;
    Ok (name_string, count, device_id)
  else Throw (ParseException error_string).

Definition ParseBackendConfigOption (arg : string)
  : Result (string * string * string) :=
  let delim_name := to_int (find arg "," 0) in
  let delim_setting := to_int (find arg "=" (to_size_t (delim_name + 1))) in
  name_string <-
    (if 0 <? delim_name then substr arg 0 (to_size_t delim_name)
     else if delim_name =? 0
          then Throw (ParseException (NoBackendSpecified arg))
          else Ok "") ;;
  if delim_setting <? 0 then Throw (ParseException (BackendConfigFormat arg))
  else
    setting_string <-
      substr arg (to_size_t (delim_name + 1))
             (to_size_t (delim_setting - delim_name - 1)) ;;
    value_string <- substr arg (to_size_t (delim_setting + 1)) npos ;;
    if empty setting_string || empty value_string
    then Throw (ParseException (BackendConfigFormat arg))
    else Ok (name_string, setting_string, value_string).

Definition ParseHostPolicyOption (arg : string)
  : Result (string * string * string) :=
  let delim_name := to_int (find arg "," 0) in
  let delim_setting := to_int (find arg "=" (to_size_t (delim_name + 1))) in
  if (delim_name <? 0) || (delim_setting <? 0)
  then Throw (ParseException (HostPolicyFormat arg))
  else
    name_string <- substr arg 0 (to_size_t delim_name) ;;
    setting_string <-
      substr arg (to_size_t (delim_name + 1))
             (to_size_t (delim_setting - delim_name - 1)) ;;
    value_string <- substr arg (to_size_t (delim_setting + 1)) npos ;;
    if empty name_string || empty setting_string || empty value_string
    then Throw (ParseException (HostPolicyFormat arg))
    else Ok (name_string, setting_string, value_string).

Inductive TraceLevel : Type :=
| TRITONSERVER_TRACE_LEVEL_DISABLED
| TRITONSERVER_TRACE_LEVEL_TIMESTAMPS
| TRITONSERVER_TRACE_LEVEL_TENSORS.

Definition ParseTraceLevelOption (arg0 : string) : Result TraceLevel :=
  let arg := transform tolower arg0 in
  if (arg == "false") || (arg == "off")
  then Ok TRITONSERVER_TRACE_LEVEL_DISABLED
  else if (arg == "true") || (arg == "on") || (arg == "min")
          || (arg == "max") || (arg == "timestamps")
  then Ok TRITONSERVER_TRACE_LEVEL_TIMESTAMPS
  else if arg == "tensors" then Ok TRITONSERVER_TRACE_LEVEL_TENSORS
  else Throw (ParseException (InvalidTraceLevel arg)).
(** ** The option table *)

Inductive TritonOptionId : Type :=
| OPTION_HELP
| OPTION_LOG_VERBOSE
| OPTION_LOG_INFO
| OPTION_LOG_WARNING
| OPTION_LOG_ERROR
| OPTION_LOG_FORMAT
| OPTION_LOG_FILE
| OPTION_ID
| OPTION_MODEL_REPOSITORY
| OPTION_EXIT_ON_ERROR
| OPTION_DISABLE_AUTO_COMPLETE_CONFIG
| OPTION_STRICT_MODEL_CONFIG
| OPTION_STRICT_READINESS
| OPTION_ALLOW_HTTP
| OPTION_HTTP_PORT
| OPTION_REUSE_HTTP_PORT
| OPTION_HTTP_ADDRESS
| OPTION_HTTP_THREAD_COUNT
| OPTION_ALLOW_GRPC
| OPTION_GRPC_PORT
| OPTION_REUSE_GRPC_PORT
| OPTION_GRPC_ADDRESS
| OPTION_GRPC_INFER_ALLOCATION_POOL_SIZE
| OPTION_GRPC_USE_SSL
| OPTION_GRPC_USE_SSL_MUTUAL
| OPTION_GRPC_SERVER_CERT
| OPTION_GRPC_SERVER_KEY
| OPTION_GRPC_ROOT_CERT
| OPTION_GRPC_RESPONSE_COMPRESSION_LEVEL
| OPTION_GRPC_ARG_KEEPALIVE_TIME_MS
| OPTION_GRPC_ARG_KEEPALIVE_TIMEOUT_MS
| OPTION_GRPC_ARG_KEEPALIVE_PERMIT_WITHOUT_CALLS
| OPTION_GRPC_ARG_HTTP2_MAX_PINGS_WITHOUT_DATA
| OPTION_GRPC_ARG_HTTP2_MIN_RECV_PING_INTERVAL_WITHOUT_DATA_MS
| OPTION_GRPC_ARG_HTTP2_MAX_PING_STRIKES
| OPTION_ALLOW_SAGEMAKER
| OPTION_SAGEMAKER_PORT
| OPTION_SAGEMAKER_SAFE_PORT_RANGE
| OPTION_SAGEMAKER_THREAD_COUNT
| OPTION_ALLOW_VERTEX_AI
| OPTION_VERTEX_AI_PORT
| OPTION_VERTEX_AI_THREAD_COUNT
| OPTION_VERTEX_AI_DEFAULT_MODEL
| OPTION_ALLOW_METRICS
| OPTION_ALLOW_GPU_METRICS
| OPTION_ALLOW_CPU_METRICS
| OPTION_METRICS_PORT
| OPTION_METRICS_INTERVAL_MS
| OPTION_TRACE_FILEPATH
| OPTION_TRACE_LEVEL
| OPTION_TRACE_RATE
| OPTION_TRACE_COUNT
| OPTION_TRACE_LOG_FREQUENCY
| OPTION_MODEL_CONTROL_MODE
| OPTION_POLL_REPO_SECS
| OPTION_STARTUP_MODEL
| OPTION_RATE_LIMIT
| OPTION_RATE_LIMIT_RESOURCE
| OPTION_PINNED_MEMORY_POOL_BYTE_SIZE
| OPTION_CUDA_MEMORY_POOL_BYTE_SIZE
| OPTION_RESPONSE_CACHE_BYTE_SIZE
| OPTION_CACHE_CONFIG
| OPTION_CACHE_DIR
| OPTION_MIN_SUPPORTED_COMPUTE_CAPABILITY
| OPTION_EXIT_TIMEOUT_SECS
| OPTION_BACKEND_DIR
| OPTION_REPOAGENT_DIR
| OPTION_BUFFER_MANAGER_THREAD_COUNT
| OPTION_MODEL_LOAD_THREAD_COUNT
| OPTION_BACKEND_CONFIG
| OPTION_HOST_POLICY
| OPTION_MODEL_LOAD_GPU_LIMIT
| OPTION_MODEL_NAMESPACING.

(** Modelled from the spec: the descriptor type [Option] and its
    [GetLongOption] are declared in the header, which is not part of the
    sources at hand.  A descriptor is an identifier, a flag name and an
    argument kind; the kind is one of the predefined shapes or a format
    hint of its own.  The help text of a descriptor is only used to
    print the usage message and is left out. *)
Inductive ArgType : Type :=
| ArgNone
| ArgBool
| ArgInt
| ArgFloat
| ArgStr
| ArgCustom (arg_desc : string).

Record Option : Type := mkOption {
  id_ : TritonOptionId;
  flag_ : string;
  arg_kind_ : ArgType
}.

(** Modelled from the spec: a flag takes an argument unless its kind is
    [ArgNone] ([required_argument] against [no_argument] in the
    [struct option] that [GetLongOption] builds). *)
Definition has_arg_ (o : Option) : bool :=
  match arg_kind_ o with
  | ArgNone => false
  | _ => true
  end.

Definition recognized_options_ : list Option :=
  [ mkOption OPTION_HELP "help" ArgNone;
      mkOption OPTION_LOG_VERBOSE "log-verbose" ArgInt;
      mkOption OPTION_LOG_INFO "log-info" ArgBool;
      mkOption OPTION_LOG_WARNING "log-warning" ArgBool;
      mkOption OPTION_LOG_ERROR "log-error" ArgBool;
      mkOption OPTION_LOG_FORMAT "log-format" ArgStr;
      mkOption OPTION_LOG_FILE "log-file" ArgStr;
      mkOption OPTION_ID "id" ArgStr;
      mkOption OPTION_MODEL_REPOSITORY "model-store" ArgStr;
      mkOption OPTION_MODEL_REPOSITORY "model-repository" ArgStr;
      mkOption OPTION_EXIT_ON_ERROR "exit-on-error" ArgBool;
      mkOption OPTION_DISABLE_AUTO_COMPLETE_CONFIG "disable-auto-complete-config" ArgNone;
      mkOption OPTION_STRICT_MODEL_CONFIG "strict-model-config" ArgBool;
      mkOption OPTION_STRICT_READINESS "strict-readiness" ArgBool;
      mkOption OPTION_ALLOW_HTTP "allow-http" ArgBool;
      mkOption OPTION_HTTP_PORT "http-port" ArgInt;
      mkOption OPTION_REUSE_HTTP_PORT "reuse-http-port" ArgBool;
      mkOption OPTION_HTTP_ADDRESS "http-address" ArgStr;
      mkOption OPTION_HTTP_THREAD_COUNT "http-thread-count" ArgInt;
      mkOption OPTION_ALLOW_GRPC "allow-grpc" ArgBool;
      mkOption OPTION_GRPC_PORT "grpc-port" ArgInt;
      mkOption OPTION_REUSE_GRPC_PORT "reuse-grpc-port" ArgBool;
      mkOption OPTION_GRPC_ADDRESS "grpc-address" ArgStr;
      mkOption OPTION_GRPC_INFER_ALLOCATION_POOL_SIZE "grpc-infer-allocation-pool-size" ArgInt;
      mkOption OPTION_GRPC_USE_SSL "grpc-use-ssl" ArgBool;
      mkOption OPTION_GRPC_USE_SSL_MUTUAL "grpc-use-ssl-mutual" ArgBool;
      mkOption OPTION_GRPC_SERVER_CERT "grpc-server-cert" ArgStr;
      mkOption OPTION_GRPC_SERVER_KEY "grpc-server-key" ArgStr;
      mkOption OPTION_GRPC_ROOT_CERT "grpc-root-cert" ArgStr;
      mkOption OPTION_GRPC_RESPONSE_COMPRESSION_LEVEL "grpc-infer-response-compression-level" ArgStr;
      mkOption OPTION_GRPC_ARG_KEEPALIVE_TIME_MS "grpc-keepalive-time" ArgInt;
      mkOption OPTION_GRPC_ARG_KEEPALIVE_TIMEOUT_MS "grpc-keepalive-timeout" ArgInt;
      mkOption OPTION_GRPC_ARG_KEEPALIVE_PERMIT_WITHOUT_CALLS "grpc-keepalive-permit-without-calls" ArgBool;
      mkOption OPTION_GRPC_ARG_HTTP2_MAX_PINGS_WITHOUT_DATA "grpc-http2-max-pings-without-data" ArgInt;
      mkOption OPTION_GRPC_ARG_HTTP2_MIN_RECV_PING_INTERVAL_WITHOUT_DATA_MS "grpc-http2-min-recv-ping-interval-without-data" ArgInt;
      mkOption OPTION_GRPC_ARG_HTTP2_MAX_PING_STRIKES "grpc-http2-max-ping-strikes" ArgInt;
      mkOption OPTION_ALLOW_SAGEMAKER "allow-sagemaker" ArgBool;
      mkOption OPTION_SAGEMAKER_PORT "sagemaker-port" ArgInt;
      mkOption OPTION_SAGEMAKER_SAFE_PORT_RANGE "sagemaker-safe-port-range" (ArgCustom "<integer>-<integer>");
      mkOption OPTION_SAGEMAKER_THREAD_COUNT "sagemaker-thread-count" ArgInt;
      mkOption OPTION_ALLOW_VERTEX_AI "allow-vertex-ai" ArgBool;
      mkOption OPTION_VERTEX_AI_PORT "vertex-ai-port" ArgInt;
      mkOption OPTION_VERTEX_AI_THREAD_COUNT "vertex-ai-thread-count" ArgInt;
      mkOption OPTION_VERTEX_AI_DEFAULT_MODEL "vertex-ai-default-model" ArgStr;
      mkOption OPTION_ALLOW_METRICS "allow-metrics" ArgBool;
      mkOption OPTION_ALLOW_GPU_METRICS "allow-gpu-metrics" ArgBool;
      mkOption OPTION_ALLOW_CPU_METRICS "allow-cpu-metrics" ArgBool;
      mkOption OPTION_METRICS_PORT "metrics-port" ArgInt;
      mkOption OPTION_METRICS_INTERVAL_MS "metrics-interval-ms" ArgFloat;
      mkOption OPTION_TRACE_FILEPATH "trace-file" ArgStr;
      mkOption OPTION_TRACE_LEVEL "trace-level" ArgStr;
      mkOption OPTION_TRACE_RATE "trace-rate" ArgInt;
      mkOption OPTION_TRACE_COUNT "trace-count" ArgInt;
      mkOption OPTION_TRACE_LOG_FREQUENCY "trace-log-frequency" ArgInt;
      mkOption OPTION_MODEL_CONTROL_MODE "model-control-mode" ArgStr;
      mkOption OPTION_POLL_REPO_SECS "repository-poll-secs" ArgInt;
      mkOption OPTION_STARTUP_MODEL "load-model" ArgStr;
      mkOption OPTION_RATE_LIMIT "rate-limit" ArgStr;
      mkOption OPTION_RATE_LIMIT_RESOURCE "rate-limit-resource" (ArgCustom "<string>:<integer>:<integer>");
      mkOption OPTION_PINNED_MEMORY_POOL_BYTE_SIZE "pinned-memory-pool-byte-size" ArgInt;
      mkOption OPTION_CUDA_MEMORY_POOL_BYTE_SIZE "cuda-memory-pool-byte-size" (ArgCustom "<integer>:<integer>");
      mkOption OPTION_RESPONSE_CACHE_BYTE_SIZE "response-cache-byte-size" ArgInt;
      mkOption OPTION_CACHE_CONFIG "cache-config" (ArgCustom "<string>,<string>=<string>");
      mkOption OPTION_CACHE_DIR "cache-directory" ArgStr;
      mkOption OPTION_MIN_SUPPORTED_COMPUTE_CAPABILITY "min-supported-compute-capability" ArgFloat;
      mkOption OPTION_EXIT_TIMEOUT_SECS "exit-timeout-secs" ArgInt;
      mkOption OPTION_BACKEND_DIR "backend-directory" ArgStr;
      mkOption OPTION_REPOAGENT_DIR "repoagent-directory" ArgStr;
      mkOption OPTION_BUFFER_MANAGER_THREAD_COUNT "buffer-manager-thread-count" ArgInt;
      mkOption OPTION_MODEL_LOAD_THREAD_COUNT "model-load-thread-count" ArgInt;
      mkOption OPTION_BACKEND_CONFIG "backend-config" (ArgCustom "<string>,<string>=<string>");
      mkOption OPTION_HOST_POLICY "host-policy" (ArgCustom "<string>,<string>=<string>");
      mkOption OPTION_MODEL_LOAD_GPU_LIMIT "model-load-gpu-limit" (ArgCustom "<device_id>:<fraction>");
      mkOption OPTION_MODEL_NAMESPACING "model-namespacing" ArgBool ].

(** ** The long-option scanner

    [getopt_long] as the source defines it.  The globals [optind] and
    [optarg] are carried by the caller: the scanner is given the token
    at [optind] and the tokens after it, and reports how it moved. *)

Inductive getopt_return : Type :=
| getopt_end
    (** returns [-1]; [optind] is unchanged *)
| getopt_missing
    (** returns ['?']: a required argument is missing *)
| getopt_val (val_ : TritonOptionId) (optarg : string) (uses_next : bool)
    (** returns [val_]; [optind] advances by two when the argument is the
        next token ([uses_next]), by one otherwise *).

(** The [while (!end_of_long_opts(curr_longopt))] search: the first
    entry whose name is [key]. *)
Fixpoint find_longopt (key : string) (longopts : list Option)
  : option Option :=
  match longopts with
  | [] => None
  | curr_longopt :: longopts' =>
      if key == flag_ curr_longopt then Some curr_longopt
      else find_longopt key longopts'
  end.

(** One call with [optind < argc].  [argv_str] is [argv[optind]] and
    [following] the tokens after it.  For a flag without argument
    [optarg] is not assigned; the model reports the empty string, and no
    [case] of such a flag reads it. *)
Definition getopt_long (argv_str : string) (following : list string)
    (longopts : list Option) : Result getopt_return :=
  let found := find argv_str "=" 0 in
  key <- substr argv_str 2
           (if found =? npos then npos else to_size_t (found - 2)) ;;
  match find_longopt key longopts with
  | Some curr_longopt =>
      if has_arg_ curr_longopt then
        if found =? npos then
          match following with
          | [] => Ok getopt_missing
          | next :: _ => Ok (getopt_val (id_ curr_longopt) next true)
          end
        else
          Ok (getopt_val (id_ curr_longopt)
                (substring (Z.to_nat (found + 1)) (String.length argv_str)
                           argv_str)
                false)
      else Ok (getopt_val (id_ curr_longopt) "" false)
  | None => Ok getopt_end
  end.

(** ** The parameter set

    [TritonServerParameters] and the gRPC option structs are declared in
    headers; the records below keep the members that
    [CheckPortCollision] reads, the members that the post-parsing
    validation of [Parse] reads or decides on (but for the trace level
    and the model repository set), the two SSL switches of the gRPC
    options, and the lists of CUDA pools, rate-limit resources and cache
    settings.  Any other member (thread counts, directories, certificate
    files, the trace settings, the model repository and start-up model
    sets, the backend and host-policy settings, ...) has no field: the
    argument of its option is still parsed, so that a malformed value
    aborts the parse as in the source. *)

Inductive TRITONSERVER_ModelControlMode : Type :=
| TRITONSERVER_MODEL_CONTROL_NONE
| TRITONSERVER_MODEL_CONTROL_POLL
| TRITONSERVER_MODEL_CONTROL_EXPLICIT.

(** [grpc::SocketOptions] *)
Record SocketOptions : Type := mkSocketOptions {
  address_ : string;
  port_ : Z
}.

(** [grpc::SslOptions] *)
Record SslOptions : Type := mkSslOptions {
  use_ssl_ : bool;
  use_mutual_auth_ : bool
}.

(** [grpc::Options] *)
Record Options : Type := mkOptions {
  socket_ : SocketOptions;
  ssl_ : SslOptions
}.

(** [cache_config_settings_] is a map from cache name to a vector of
    settings; it is kept as an association list with one entry per name. *)
Record TritonServerParameters : Type := mkTritonServerParameters {
  control_mode_ : TRITONSERVER_ModelControlMode;
  repository_poll_secs_ : Z;
  rate_limit_resources_ : list (string * Z * Z);
  cuda_pools_ : list (Z * Z);
  enable_cache_ : bool;
  cache_config_settings_ : list (string * list (string * string));
  strict_model_config_ : bool;
  allow_http_ : bool;
  http_address_ : string;
  http_port_ : Z;
  allow_grpc_ : bool;
  grpc_options_ : Options;
  allow_metrics_ : bool;
  allow_gpu_metrics_ : bool;
  allow_cpu_metrics_ : bool;
  metrics_address_ : string;
  metrics_port_ : Z;
  allow_sagemaker_ : bool;
  sagemaker_address_ : string;
  sagemaker_port_ : Z;
  sagemaker_safe_range_set_ : bool;
  sagemaker_safe_range_ : Z * Z;
  allow_vertex_ai_ : bool;
  vertex_ai_address_ : string;
  vertex_ai_port_ : Z
}.

(** The variables of [Parse] that live across the option loop: the
    parameters under construction and the presence markers. *)
Record ParseState : Type := mkParseState {
  lparams : TritonServerParameters;
  strict_model_config_present : bool;
  disable_auto_complete_config : bool;
  cache_size_present : bool;
  cache_config_present : bool
}.

(** Assignment to one member, the others unchanged. *)

Definition set_address_ (v : string) (r : SocketOptions) : SocketOptions :=
  let 'mkSocketOptions _ x1 := r in
  mkSocketOptions v x1.

Definition set_port_ (v : Z) (r : SocketOptions) : SocketOptions :=
  let 'mkSocketOptions x0 _ := r in
  mkSocketOptions x0 v.

Definition set_use_ssl_ (v : bool) (r : SslOptions) : SslOptions :=
  let 'mkSslOptions _ x1 := r in
  mkSslOptions v x1.

Definition set_use_mutual_auth_ (v : bool) (r : SslOptions) : SslOptions :=
  let 'mkSslOptions x0 _ := r in
  mkSslOptions x0 v.

Definition set_socket_ (v : SocketOptions) (r : Options) : Options :=
  let 'mkOptions _ x1 := r in
  mkOptions v x1.

Definition set_ssl_ (v : SslOptions) (r : Options) : Options :=
  let 'mkOptions x0 _ := r in
  mkOptions x0 v.

Definition set_control_mode_ (v : TRITONSERVER_ModelControlMode) (r :
    TritonServerParameters) : TritonServerParameters :=
  let 'mkTritonServerParameters _ x1 x2 x3 x4 x5 x6 x7 x8 x9 x10 x11 x12 x13
    x14 x15 x16 x17 x18 x19 x20 x21 x22 x23 x24 := r in
  mkTritonServerParameters v x1 x2 x3 x4 x5 x6 x7 x8 x9 x10 x11 x12 x13 x14
    x15 x16 x17 x18 x19 x20 x21 x22 x23 x24.

Definition set_repository_poll_secs_ (v : Z) (r : TritonServerParameters) :
    TritonServerParameters :=
  let 'mkTritonServerParameters x0 _ x2 x3 x4 x5 x6 x7 x8 x9 x10 x11 x12 x13
    x14 x15 x16 x17 x18 x19 x20 x21 x22 x23 x24 := r in
  mkTritonServerParameters x0 v x2 x3 x4 x5 x6 x7 x8 x9 x10 x11 x12 x13 x14
    x15 x16 x17 x18 x19 x20 x21 x22 x23 x24.

Definition set_rate_limit_resources_ (v : list (string * Z * Z)) (r :
    TritonServerParameters) : TritonServerParameters :=
  let 'mkTritonServerParameters x0 x1 _ x3 x4 x5 x6 x7 x8 x9 x10 x11 x12 x13
    x14 x15 x16 x17 x18 x19 x20 x21 x22 x23 x24 := r in
  mkTritonServerParameters x0 x1 v x3 x4 x5 x6 x7 x8 x9 x10 x11 x12 x13 x14
    x15 x16 x17 x18 x19 x20 x21 x22 x23 x24.

Definition set_cuda_pools_ (v : list (Z * Z)) (r : TritonServerParameters) :
    TritonServerParameters :=
  let 'mkTritonServerParameters x0 x1 x2 _ x4 x5 x6 x7 x8 x9 x10 x11 x12 x13
    x14 x15 x16 x17 x18 x19 x20 x21 x22 x23 x24 := r in
  mkTritonServerParameters x0 x1 x2 v x4 x5 x6 x7 x8 x9 x10 x11 x12 x13 x14
    x15 x16 x17 x18 x19 x20 x21 x22 x23 x24.

Definition set_enable_cache_ (v : bool) (r : TritonServerParameters) :
    TritonServerParameters :=
  let 'mkTritonServerParameters x0 x1 x2 x3 _ x5 x6 x7 x8 x9 x10 x11 x12 x13
    x14 x15 x16 x17 x18 x19 x20 x21 x22 x23 x24 := r in
  mkTritonServerParameters x0 x1 x2 x3 v x5 x6 x7 x8 x9 x10 x11 x12 x13 x14
    x15 x16 x17 x18 x19 x20 x21 x22 x23 x24.

Definition set_cache_config_settings_ (v : list (string * list (string *
    string))) (r : TritonServerParameters) : TritonServerParameters :=
  let 'mkTritonServerParameters x0 x1 x2 x3 x4 _ x6 x7 x8 x9 x10 x11 x12 x13
    x14 x15 x16 x17 x18 x19 x20 x21 x22 x23 x24 := r in
  mkTritonServerParameters x0 x1 x2 x3 x4 v x6 x7 x8 x9 x10 x11 x12 x13 x14
    x15 x16 x17 x18 x19 x20 x21 x22 x23 x24.

Definition set_strict_model_config_ (v : bool) (r : TritonServerParameters) :
    TritonServerParameters :=
  let 'mkTritonServerParameters x0 x1 x2 x3 x4 x5 _ x7 x8 x9 x10 x11 x12 x13
    x14 x15 x16 x17 x18 x19 x20 x21 x22 x23 x24 := r in
  mkTritonServerParameters x0 x1 x2 x3 x4 x5 v x7 x8 x9 x10 x11 x12 x13 x14
    x15 x16 x17 x18 x19 x20 x21 x22 x23 x24.

Definition set_allow_http_ (v : bool) (r : TritonServerParameters) :
    TritonServerParameters :=
  let 'mkTritonServerParameters x0 x1 x2 x3 x4 x5 x6 _ x8 x9 x10 x11 x12 x13
    x14 x15 x16 x17 x18 x19 x20 x21 x22 x23 x24 := r in
  mkTritonServerParameters x0 x1 x2 x3 x4 x5 x6 v x8 x9 x10 x11 x12 x13 x14
    x15 x16 x17 x18 x19 x20 x21 x22 x23 x24.

Definition set_http_address_ (v : string) (r : TritonServerParameters) :
    TritonServerParameters :=
  let 'mkTritonServerParameters x0 x1 x2 x3 x4 x5 x6 x7 _ x9 x10 x11 x12 x13
    x14 x15 x16 x17 x18 x19 x20 x21 x22 x23 x24 := r in
  mkTritonServerParameters x0 x1 x2 x3 x4 x5 x6 x7 v x9 x10 x11 x12 x13 x14
    x15 x16 x17 x18 x19 x20 x21 x22 x23 x24.

Definition set_http_port_ (v : Z) (r : TritonServerParameters) :
    TritonServerParameters :=
  let 'mkTritonServerParameters x0 x1 x2 x3 x4 x5 x6 x7 x8 _ x10 x11 x12 x13
    x14 x15 x16 x17 x18 x19 x20 x21 x22 x23 x24 := r in
  mkTritonServerParameters x0 x1 x2 x3 x4 x5 x6 x7 x8 v x10 x11 x12 x13 x14
    x15 x16 x17 x18 x19 x20 x21 x22 x23 x24.

Definition set_allow_grpc_ (v : bool) (r : TritonServerParameters) :
    TritonServerParameters :=
  let 'mkTritonServerParameters x0 x1 x2 x3 x4 x5 x6 x7 x8 x9 _ x11 x12 x13
    x14 x15 x16 x17 x18 x19 x20 x21 x22 x23 x24 := r in
  mkTritonServerParameters x0 x1 x2 x3 x4 x5 x6 x7 x8 x9 v x11 x12 x13 x14
    x15 x16 x17 x18 x19 x20 x21 x22 x23 x24.

Definition set_grpc_options_ (v : Options) (r : TritonServerParameters) :
    TritonServerParameters :=
  let 'mkTritonServerParameters x0 x1 x2 x3 x4 x5 x6 x7 x8 x9 x10 _ x12 x13
    x14 x15 x16 x17 x18 x19 x20 x21 x22 x23 x24 := r in
  mkTritonServerParameters x0 x1 x2 x3 x4 x5 x6 x7 x8 x9 x10 v x12 x13 x14
    x15 x16 x17 x18 x19 x20 x21 x22 x23 x24.

Definition set_allow_metrics_ (v : bool) (r : TritonServerParameters) :
    TritonServerParameters :=
  let 'mkTritonServerParameters x0 x1 x2 x3 x4 x5 x6 x7 x8 x9 x10 x11 _ x13
    x14 x15 x16 x17 x18 x19 x20 x21 x22 x23 x24 := r in
  mkTritonServerParameters x0 x1 x2 x3 x4 x5 x6 x7 x8 x9 x10 x11 v x13 x14
    x15 x16 x17 x18 x19 x20 x21 x22 x23 x24.

Definition set_allow_gpu_metrics_ (v : bool) (r : TritonServerParameters) :
    TritonServerParameters :=
  let 'mkTritonServerParameters x0 x1 x2 x3 x4 x5 x6 x7 x8 x9 x10 x11 x12 _
    x14 x15 x16 x17 x18 x19 x20 x21 x22 x23 x24 := r in
  mkTritonServerParameters x0 x1 x2 x3 x4 x5 x6 x7 x8 x9 x10 x11 x12 v x14
    x15 x16 x17 x18 x19 x20 x21 x22 x23 x24.

Definition set_allow_cpu_metrics_ (v : bool) (r : TritonServerParameters) :
    TritonServerParameters :=
  let 'mkTritonServerParameters x0 x1 x2 x3 x4 x5 x6 x7 x8 x9 x10 x11 x12 x13
    _ x15 x16 x17 x18 x19 x20 x21 x22 x23 x24 := r in
  mkTritonServerParameters x0 x1 x2 x3 x4 x5 x6 x7 x8 x9 x10 x11 x12 x13 v
    x15 x16 x17 x18 x19 x20 x21 x22 x23 x24.

Definition set_metrics_address_ (v : string) (r : TritonServerParameters) :
    TritonServerParameters :=
  let 'mkTritonServerParameters x0 x1 x2 x3 x4 x5 x6 x7 x8 x9 x10 x11 x12 x13
    x14 _ x16 x17 x18 x19 x20 x21 x22 x23 x24 := r in
  mkTritonServerParameters x0 x1 x2 x3 x4 x5 x6 x7 x8 x9 x10 x11 x12 x13 x14
    v x16 x17 x18 x19 x20 x21 x22 x23 x24.

Definition set_metrics_port_ (v : Z) (r : TritonServerParameters) :
    TritonServerParameters :=
  let 'mkTritonServerParameters x0 x1 x2 x3 x4 x5 x6 x7 x8 x9 x10 x11 x12 x13
    x14 x15 _ x17 x18 x19 x20 x21 x22 x23 x24 := r in
  mkTritonServerParameters x0 x1 x2 x3 x4 x5 x6 x7 x8 x9 x10 x11 x12 x13 x14
    x15 v x17 x18 x19 x20 x21 x22 x23 x24.

Definition set_allow_sagemaker_ (v : bool) (r : TritonServerParameters) :
    TritonServerParameters :=
  let 'mkTritonServerParameters x0 x1 x2 x3 x4 x5 x6 x7 x8 x9 x10 x11 x12 x13
    x14 x15 x16 _ x18 x19 x20 x21 x22 x23 x24 := r in
  mkTritonServerParameters x0 x1 x2 x3 x4 x5 x6 x7 x8 x9 x10 x11 x12 x13 x14
    x15 x16 v x18 x19 x20 x21 x22 x23 x24.

Definition set_sagemaker_address_ (v : string) (r : TritonServerParameters) :
    TritonServerParameters :=
  let 'mkTritonServerParameters x0 x1 x2 x3 x4 x5 x6 x7 x8 x9 x10 x11 x12 x13
    x14 x15 x16 x17 _ x19 x20 x21 x22 x23 x24 := r in
  mkTritonServerParameters x0 x1 x2 x3 x4 x5 x6 x7 x8 x9 x10 x11 x12 x13 x14
    x15 x16 x17 v x19 x20 x21 x22 x23 x24.

Definition set_sagemaker_port_ (v : Z) (r : TritonServerParameters) :
    TritonServerParameters :=
  let 'mkTritonServerParameters x0 x1 x2 x3 x4 x5 x6 x7 x8 x9 x10 x11 x12 x13
    x14 x15 x16 x17 x18 _ x20 x21 x22 x23 x24 := r in
  mkTritonServerParameters x0 x1 x2 x3 x4 x5 x6 x7 x8 x9 x10 x11 x12 x13 x14
    x15 x16 x17 x18 v x20 x21 x22 x23 x24.

Definition set_sagemaker_safe_range_set_ (v : bool) (r :
    TritonServerParameters) : TritonServerParameters :=
  let 'mkTritonServerParameters x0 x1 x2 x3 x4 x5 x6 x7 x8 x9 x10 x11 x12 x13
    x14 x15 x16 x17 x18 x19 _ x21 x22 x23 x24 := r in
  mkTritonServerParameters x0 x1 x2 x3 x4 x5 x6 x7 x8 x9 x10 x11 x12 x13 x14
    x15 x16 x17 x18 x19 v x21 x22 x23 x24.

Definition set_sagemaker_safe_range_ (v : Z * Z) (r : TritonServerParameters)
    : TritonServerParameters :=
  let 'mkTritonServerParameters x0 x1 x2 x3 x4 x5 x6 x7 x8 x9 x10 x11 x12 x13
    x14 x15 x16 x17 x18 x19 x20 _ x22 x23 x24 := r in
  mkTritonServerParameters x0 x1 x2 x3 x4 x5 x6 x7 x8 x9 x10 x11 x12 x13 x14
    x15 x16 x17 x18 x19 x20 v x22 x23 x24.

Definition set_allow_vertex_ai_ (v : bool) (r : TritonServerParameters) :
    TritonServerParameters :=
  let 'mkTritonServerParameters x0 x1 x2 x3 x4 x5 x6 x7 x8 x9 x10 x11 x12 x13
    x14 x15 x16 x17 x18 x19 x20 x21 _ x23 x24 := r in
  mkTritonServerParameters x0 x1 x2 x3 x4 x5 x6 x7 x8 x9 x10 x11 x12 x13 x14
    x15 x16 x17 x18 x19 x20 x21 v x23 x24.

Definition set_vertex_ai_address_ (v : string) (r : TritonServerParameters) :
    TritonServerParameters :=
  let 'mkTritonServerParameters x0 x1 x2 x3 x4 x5 x6 x7 x8 x9 x10 x11 x12 x13
    x14 x15 x16 x17 x18 x19 x20 x21 x22 _ x24 := r in
  mkTritonServerParameters x0 x1 x2 x3 x4 x5 x6 x7 x8 x9 x10 x11 x12 x13 x14
    x15 x16 x17 x18 x19 x20 x21 x22 v x24.

Definition set_vertex_ai_port_ (v : Z) (r : TritonServerParameters) :
    TritonServerParameters :=
  let 'mkTritonServerParameters x0 x1 x2 x3 x4 x5 x6 x7 x8 x9 x10 x11 x12 x13
    x14 x15 x16 x17 x18 x19 x20 x21 x22 x23 _ := r in
  mkTritonServerParameters x0 x1 x2 x3 x4 x5 x6 x7 x8 x9 x10 x11 x12 x13 x14
    x15 x16 x17 x18 x19 x20 x21 x22 x23 v.

Definition set_lparams (v : TritonServerParameters) (r : ParseState) :
    ParseState :=
  let 'mkParseState _ x1 x2 x3 x4 := r in
  mkParseState v x1 x2 x3 x4.

Definition set_strict_model_config_present (v : bool) (r : ParseState) :
    ParseState :=
  let 'mkParseState x0 _ x2 x3 x4 := r in
  mkParseState x0 v x2 x3 x4.

Definition set_disable_auto_complete_config (v : bool) (r : ParseState) :
    ParseState :=
  let 'mkParseState x0 x1 _ x3 x4 := r in
  mkParseState x0 x1 v x3 x4.

Definition set_cache_size_present (v : bool) (r : ParseState) : ParseState :=
  let 'mkParseState x0 x1 x2 _ x4 := r in
  mkParseState x0 x1 x2 v x4.

Definition set_cache_config_present (v : bool) (r : ParseState) : ParseState
    :=
  let 'mkParseState x0 x1 x2 x3 _ := r in
  mkParseState x0 x1 x2 x3 v.

(** ** [TritonServerParameters::CheckPortCollision] *)

(** One element of [ports]; the fields are [std::get<0>] to
    [std::get<5>] of the tuple. *)
Record PortEntry : Type := mkPortEntry {
  service_name : string;
  address : string;
  port : Z;
  has_range : bool;
  range_min : Z;
  range_max : Z
}.

(** The list of enabled services and their constraints, in the order of
    the [emplace_back] calls. *)
Definition enabled_ports (p : TritonServerParameters) : list PortEntry :=
  ((if allow_http_ p
    then [mkPortEntry "HTTP" (http_address_ p) (http_port_ p) false (-1) (-1)]
    else [])
   ++ (if allow_grpc_ p
       then [mkPortEntry "GRPC" (address_ (socket_ (grpc_options_ p)))
                         (port_ (socket_ (grpc_options_ p))) false (-1) (-1)]
       else [])
   ++ (if allow_metrics_ p
       then [mkPortEntry "metrics" (metrics_address_ p) (metrics_port_ p)
                         false (-1) (-1)]
       else [])
   ++ (if allow_sagemaker_ p
       then [mkPortEntry "SageMaker" (sagemaker_address_ p) (sagemaker_port_ p)
                         (sagemaker_safe_range_set_ p)
                         (fst (sagemaker_safe_range_ p))
                         (snd (sagemaker_safe_range_ p))]
       else [])
   ++ (if allow_vertex_ai_ p
       then [mkPortEntry "Vertex AI" (vertex_ai_address_ p) (vertex_ai_port_ p)
                         false (-1) (-1)]
       else []))%list.

(** The statements of the inner loop that follow the test
    [comparing_it == curr_it]. *)
Definition compare_ports (curr comparing : PortEntry) : Result unit :=
  if negb (address curr == address comparing) then Ok tt
  else if has_range curr
          && ((port comparing <? range_min curr)
              || (port comparing >? range_max curr))
  then Throw (ParseException
                (PortOutOfRange (service_name comparing) (port comparing)
                                (range_min curr) (range_max curr)))
  else if port curr =? port comparing
  then Throw (ParseException
                (PortCollision (service_name curr) (service_name comparing)
                               (address curr) (port curr)))
  else Ok tt.

(** The two nested loops, with the iterators as positions in [ports].
    They are written over an arbitrary loop body, so that the pairs the
    loops visit can be told apart from what is done at each pair. *)
Section PortLoops.

Variable body : nat -> PortEntry -> nat -> PortEntry -> Result unit.

(** [for (; comparing_it != ports.end(); ++comparing_it)]; [rest] are the
    entries from [comparing_it] on. *)
Fixpoint inner_loop (curr_it : nat) (curr : PortEntry)
    (comparing_it : nat) (rest : list PortEntry) : Result unit :=
  match rest with
  | [] => Ok tt
  | comparing :: rest' =>
      if (comparing_it =? curr_it)%nat
      then inner_loop curr_it curr (S comparing_it) rest'
      else
        _ <- body curr_it curr comparing_it comparing ;;
        inner_loop curr_it curr (S comparing_it) rest'
  end.

(** [for (auto curr_it = ports.begin(); curr_it != ports.end(); ++curr_it)];
    [rest] are the entries from [curr_it] on. *)
Fixpoint outer_loop (ports : list PortEntry) (curr_it : nat)
    (rest : list PortEntry) : Result unit :=
  match rest with
  | [] => Ok tt
  | curr :: rest' =>
      let comparing_it := if has_range curr then O else S curr_it in
      _ <- inner_loop curr_it curr comparing_it (skipn comparing_it ports) ;;
      outer_loop ports (S curr_it) rest'
  end.

End PortLoops.

Definition check_ports (ports : list PortEntry) : Result unit :=
  outer_loop (fun _ curr _ comparing => compare_ports curr comparing)
             ports O ports.

Definition CheckPortCollision (p : TritonServerParameters) : Result unit :=
  check_ports (enabled_ports p).

(** *** The pairs of positions the loops visit *)

(** The positions the inner loop hands to its body for the entry at
    [curr_it], in order. *)
Definition comparing_positions (n curr_it : nat) (curr_has_range : bool)
  : list nat :=
  let start := if curr_has_range then O else S curr_it in
  filter (fun comparing_it => negb (comparing_it =? curr_it)%nat)
         (seq start (n - start)).

(** All pairs [(curr_it, comparing_it)] handed to the body by a run that
    is not cut short by an exception, in order. *)
Definition comparisons (ports : list PortEntry) : list (nat * nat) :=
  flat_map
    (fun curr_it =>
       match nth_error ports curr_it with
       | Some curr =>
           map (pair curr_it)
               (comparing_positions (List.length ports) curr_it
                                    (has_range curr))
       | None => []
       end)
    (seq O (List.length ports)).

(** The body run at a list of pairs of positions, until it throws. *)
Fixpoint run_at (body : nat -> PortEntry -> nat -> PortEntry -> Result unit)
    (ports : list PortEntry) (pairs : list (nat * nat)) : Result unit :=
  match pairs with
  | [] => Ok tt
  | (i, j) :: pairs' =>
      _ <- match nth_error ports i, nth_error ports j with
           | Some curr, Some comparing => body i curr j comparing
           | _, _ => Ok tt
           end ;;
      run_at body ports pairs'
  end.

Definition position_pair_eq_dec (c c' : nat * nat) : {c = c'} + {c <> c'}.
Proof. decide equality; apply Nat.eq_dec. Defined.

(** How often the body is run with the entry at [i] as the current one
    and the entry at [j] as the one compared. *)
Definition times_visited (ports : list PortEntry) (i j : nat) : nat :=
  count_occ position_pair_eq_dec (comparisons ports) (i, j).

(** How often the entries at positions [i] and [j] are compared, in
    either direction. *)
Definition times_compared (ports : list PortEntry) (i j : nat) : nat :=
  (times_visited ports i j + times_visited ports j i)%nat.

(** *** The two conditions of the check, on a pair of entries *)

(** [owner] declares a port range and the port of [other], bound to the
    same address, lies outside it. *)
Definition range_violation (owner other : PortEntry) : bool :=
  (address owner == address other)
  && has_range owner
  && ((port other <? range_min owner) || (port other >? range_max owner)).

(** The two entries are bound to the same address and port. *)
Definition same_address_port (a b : PortEntry) : bool :=
  (address a == address b) && (port a =? port b).

(** Two entries clash when either condition holds, in either direction. *)
Definition clash (a b : PortEntry) : bool :=
  range_violation a b || range_violation b a || same_address_port a b.

(** Some two entries at different positions of [ports] satisfy [cond],
    the first against the second. *)
Definition some_pair (cond : PortEntry -> PortEntry -> bool)
    (ports : list PortEntry) : Prop :=
  exists i j a b,
    i <> j /\ nth_error ports i = Some a /\ nth_error ports j = Some b
    /\ cond a b = true.

Definition is_range_violation (e : exception) : bool :=
  match e with
  | ParseException (PortOutOfRange _ _ _ _) => true
  | _ => false
  end.

Definition is_port_conflict (e : exception) : bool :=
  match e with
  | ParseException (PortCollision _ _ _ _) => true
  | _ => false
  end.

(** ** [TritonParser::Parse] *)

(** [m[k] = v] and [m[k].push_back(x)] on the association list that
    stands for [cache_config_settings_]. *)
Fixpoint map_assign {V : Type} (k : string) (v : V) (m : list (string * V))
  : list (string * V) :=
  match m with
  | [] => [(k, v)]
  | (k', v') :: m' =>
      if k' == k then (k', v) :: m' else (k', v') :: map_assign k v m'
  end.

Fixpoint map_push_back {V : Type} (k : string) (x : V)
    (m : list (string * list V)) : list (string * list V) :=
  match m with
  | [] => [(k, [x])]
  | (k', v') :: m' =>
      if k' == k then (k', (v' ++ [x])%list) :: m'
      else (k', v') :: map_push_back k x m'
  end.

(** Modelled from the spec: [GetEnvironmentVariableOrDefault] is defined
    elsewhere in the repository; it yields the value of the variable, or
    the default when the variable is not set.  The environment is the
    parameter [getenv]. *)
Definition GetEnvironmentVariableOrDefault (getenv : string -> option string)
    (variable_name default_value : string) : string :=
  match getenv variable_name with
  | Some value => value
  | None => default_value
  end.

Section OptionLoop.

(** Floating point is outside the embedding: the type [double] and
    [std::stod] are parameters. *)
Variable double : Type.
Variable stod : string -> Result double.

Definition ParseOption_double (arg : string) : Result double := stod arg.

(** The [switch (flag)] of the option loop.  [st] holds [lparams] and the
    presence markers before the case runs. *)
Definition Parse_switch (flag : TritonOptionId) (optarg : string)
    (st : ParseState) : Result ParseState :=
  let p := lparams st in
  let lgrpc_options := grpc_options_ p in
  match flag with
  | OPTION_HELP => Throw (ParseException NoMessage)
  | OPTION_LOG_VERBOSE => _ <- ParseIntBoolOption optarg ;; Ok st
  | OPTION_LOG_INFO => _ <- ParseOption_bool optarg ;; Ok st
  | OPTION_LOG_WARNING => _ <- ParseOption_bool optarg ;; Ok st
  | OPTION_LOG_ERROR => _ <- ParseOption_bool optarg ;; Ok st
  | OPTION_LOG_FORMAT =>
      let format_str := optarg in
      if format_str == "default" then Ok st
      else if format_str == "ISO8601" then Ok st
      else Throw (ParseException InvalidLogFormat)
  | OPTION_LOG_FILE => Ok st
  | OPTION_ID => Ok st
  | OPTION_MODEL_REPOSITORY => Ok st
  | OPTION_EXIT_ON_ERROR => _ <- ParseOption_bool optarg ;; Ok st
  | OPTION_DISABLE_AUTO_COMPLETE_CONFIG =>
      Ok (set_disable_auto_complete_config true st)
  | OPTION_STRICT_MODEL_CONFIG =>
      let st := set_strict_model_config_present true st in
      v <- ParseOption_bool optarg ;;
      Ok (set_lparams (set_strict_model_config_ v p) st)
  | OPTION_STRICT_READINESS => _ <- ParseOption_bool optarg ;; Ok st
  | OPTION_ALLOW_HTTP =>
      v <- ParseOption_bool optarg ;;
      Ok (set_lparams (set_allow_http_ v p) st)
  | OPTION_HTTP_PORT =>
      v <- ParseOption_int optarg ;;
      Ok (set_lparams (set_http_port_ v p) st)
  | OPTION_REUSE_HTTP_PORT => _ <- ParseOption_int optarg ;; Ok st
  | OPTION_HTTP_ADDRESS =>
      Ok (set_lparams
            (set_metrics_address_ optarg (set_http_address_ optarg p)) st)
  | OPTION_HTTP_THREAD_COUNT => _ <- ParseOption_int optarg ;; Ok st
  | OPTION_ALLOW_SAGEMAKER =>
      v <- ParseOption_bool optarg ;;
      Ok (set_lparams (set_allow_sagemaker_ v p) st)
  | OPTION_SAGEMAKER_PORT =>
      v <- ParseOption_int optarg ;;
      Ok (set_lparams (set_sagemaker_port_ v p) st)
  | OPTION_SAGEMAKER_SAFE_PORT_RANGE =>
      let p := set_sagemaker_safe_range_set_ true p in
      v <- ParsePairOption ParseOption_int ParseOption_int optarg "-" ;;
      Ok (set_lparams (set_sagemaker_safe_range_ v p) st)
  | OPTION_SAGEMAKER_THREAD_COUNT => _ <- ParseOption_int optarg ;; Ok st
  | OPTION_ALLOW_VERTEX_AI =>
      v <- ParseOption_bool optarg ;;
      Ok (set_lparams (set_allow_vertex_ai_ v p) st)
  | OPTION_VERTEX_AI_PORT =>
      v <- ParseOption_int optarg ;;
      Ok (set_lparams (set_vertex_ai_port_ v p) st)
  | OPTION_VERTEX_AI_THREAD_COUNT => _ <- ParseOption_int optarg ;; Ok st
  | OPTION_VERTEX_AI_DEFAULT_MODEL => Ok st
  | OPTION_ALLOW_GRPC =>
      v <- ParseOption_bool optarg ;;
      Ok (set_lparams (set_allow_grpc_ v p) st)
  | OPTION_GRPC_PORT =>
      v <- ParseOption_int optarg ;;
      Ok (set_lparams
            (set_grpc_options_
               (set_socket_ (set_port_ v (socket_ lgrpc_options))
                            lgrpc_options) p) st)
  | OPTION_REUSE_GRPC_PORT => _ <- ParseOption_int optarg ;; Ok st
  | OPTION_GRPC_ADDRESS =>
      Ok (set_lparams
            (set_grpc_options_
               (set_socket_ (set_address_ optarg (socket_ lgrpc_options))
                            lgrpc_options) p) st)
  | OPTION_GRPC_INFER_ALLOCATION_POOL_SIZE =>
      _ <- ParseOption_int optarg ;; Ok st
  | OPTION_GRPC_USE_SSL =>
      v <- ParseOption_bool optarg ;;
      Ok (set_lparams
            (set_grpc_options_
               (set_ssl_ (set_use_ssl_ v (ssl_ lgrpc_options))
                         lgrpc_options) p) st)
  | OPTION_GRPC_USE_SSL_MUTUAL =>
      v <- ParseOption_bool optarg ;;
      Ok (set_lparams
            (set_grpc_options_
               (set_ssl_
                  (set_use_ssl_ true
                     (set_use_mutual_auth_ v (ssl_ lgrpc_options)))
                  lgrpc_options) p) st)
  | OPTION_GRPC_SERVER_CERT => Ok st
  | OPTION_GRPC_SERVER_KEY => Ok st
  | OPTION_GRPC_ROOT_CERT => Ok st
  | OPTION_GRPC_RESPONSE_COMPRESSION_LEVEL =>
      let mode_str := transform tolower optarg in
      if mode_str == "none" then Ok st
      else if mode_str == "low" then Ok st
      else if mode_str == "medium" then Ok st
      else if mode_str == "high" then Ok st
      else Throw (ParseException InvalidCompressionLevel)
  | OPTION_GRPC_ARG_KEEPALIVE_TIME_MS => _ <- ParseOption_int optarg ;; Ok st
  | OPTION_GRPC_ARG_KEEPALIVE_TIMEOUT_MS =>
      _ <- ParseOption_int optarg ;; Ok st
  | OPTION_GRPC_ARG_KEEPALIVE_PERMIT_WITHOUT_CALLS =>
      _ <- ParseOption_bool optarg ;; Ok st
  | OPTION_GRPC_ARG_HTTP2_MAX_PINGS_WITHOUT_DATA =>
      _ <- ParseOption_int optarg ;; Ok st
  | OPTION_GRPC_ARG_HTTP2_MIN_RECV_PING_INTERVAL_WITHOUT_DATA_MS =>
      _ <- ParseOption_int optarg ;; Ok st
  | OPTION_GRPC_ARG_HTTP2_MAX_PING_STRIKES =>
      _ <- ParseOption_int optarg ;; Ok st
  | OPTION_ALLOW_METRICS =>
      v <- ParseOption_bool optarg ;;
      Ok (set_lparams (set_allow_metrics_ v p) st)
  | OPTION_ALLOW_GPU_METRICS =>
      v <- ParseOption_bool optarg ;;
      Ok (set_lparams (set_allow_gpu_metrics_ v p) st)
  | OPTION_ALLOW_CPU_METRICS =>
      v <- ParseOption_bool optarg ;;
      Ok (set_lparams (set_allow_cpu_metrics_ v p) st)
  | OPTION_METRICS_PORT =>
      v <- ParseOption_int optarg ;;
      Ok (set_lparams (set_metrics_port_ v p) st)
  | OPTION_METRICS_INTERVAL_MS => _ <- ParseOption_int optarg ;; Ok st
  | OPTION_TRACE_FILEPATH => Ok st
  | OPTION_TRACE_LEVEL => _ <- ParseTraceLevelOption optarg ;; Ok st
  | OPTION_TRACE_RATE => _ <- ParseOption_int optarg ;; Ok st
  | OPTION_TRACE_COUNT => _ <- ParseOption_int optarg ;; Ok st
  | OPTION_TRACE_LOG_FREQUENCY => _ <- ParseOption_int optarg ;; Ok st
  | OPTION_POLL_REPO_SECS =>
      v <- ParseOption_int optarg ;;
      Ok (set_lparams (set_repository_poll_secs_ v p) st)
  | OPTION_STARTUP_MODEL => Ok st
  | OPTION_MODEL_CONTROL_MODE =>
      let mode_str := transform tolower optarg in
      if mode_str == "none"
      then Ok (set_lparams
                 (set_control_mode_ TRITONSERVER_MODEL_CONTROL_NONE p) st)
      else if mode_str == "poll"
      then Ok (set_lparams
                 (set_control_mode_ TRITONSERVER_MODEL_CONTROL_POLL p) st)
      else if mode_str == "explicit"
      then Ok (set_lparams
                 (set_control_mode_ TRITONSERVER_MODEL_CONTROL_EXPLICIT p) st)
      else Throw (ParseException InvalidModelControlMode)
  | OPTION_RATE_LIMIT =>
      let rate_limit_str := transform tolower optarg in
      if rate_limit_str == "execution_count" then Ok st
      else if rate_limit_str == "off" then Ok st
      else Throw (ParseException InvalidRateLimit)
  | OPTION_RATE_LIMIT_RESOURCE =>
      v <- catch_invalid_argument
             (ParseRateLimiterResourceOption optarg)
             (ParseException (RateLimitResourceParse optarg)) ;;
      Ok (set_lparams
            (set_rate_limit_resources_
               (rate_limit_resources_ p ++ [v])%list p) st)
  | OPTION_PINNED_MEMORY_POOL_BYTE_SIZE =>
      _ <- ParseOption_int64_t optarg ;; Ok st
  | OPTION_CUDA_MEMORY_POOL_BYTE_SIZE =>
      v <- ParsePairOption ParseOption_int ParseOption_uint64_t optarg ":" ;;
      Ok (set_lparams (set_cuda_pools_ (cuda_pools_ p ++ [v])%list p) st)
  | OPTION_RESPONSE_CACHE_BYTE_SIZE =>
      let st := set_cache_size_present true st in
      v <- ParseOption_int64_t optarg ;;
      let byte_size := to_string v in
      Ok (set_lparams
            (set_cache_config_settings_
               (map_assign "local" [("size", byte_size)]
                           (cache_config_settings_ p)) p) st)
  | OPTION_CACHE_CONFIG =>
      let st := set_cache_config_present true st in
      '(cache_name, key, value) <- ParseCacheConfigOption optarg ;;
      Ok (set_lparams
            (set_cache_config_settings_
               (map_push_back cache_name (key, value)
                              (cache_config_settings_ p)) p) st)
  | OPTION_CACHE_DIR => Ok st
  | OPTION_MIN_SUPPORTED_COMPUTE_CAPABILITY =>
      _ <- ParseOption_double optarg ;; Ok st
  | OPTION_EXIT_TIMEOUT_SECS => _ <- ParseOption_int optarg ;; Ok st
  | OPTION_BACKEND_DIR => Ok st
  | OPTION_REPOAGENT_DIR => Ok st
  | OPTION_BUFFER_MANAGER_THREAD_COUNT => _ <- ParseOption_int optarg ;; Ok st
  | OPTION_MODEL_LOAD_THREAD_COUNT => _ <- ParseOption_int optarg ;; Ok st
  | OPTION_BACKEND_CONFIG => _ <- ParseBackendConfigOption optarg ;; Ok st
  | OPTION_HOST_POLICY => _ <- ParseHostPolicyOption optarg ;; Ok st
  | OPTION_MODEL_LOAD_GPU_LIMIT =>
      _ <- ParsePairOption ParseOption_int ParseOption_double optarg ":" ;;
      Ok st
  | OPTION_MODEL_NAMESPACING => _ <- ParseOption_bool optarg ;; Ok st
  end.

(** [optind] after a call that returned a flag: the tokens after the ones
    the call consumed. *)
Definition advance (uses_next : bool) (following : list string)
  : list string :=
  if uses_next
  then match following with
       | [] => following
       | _ :: following' => following'
       end
  else following.

(** Step 2: [while ((flag = getopt_long(...)) != -1) switch (flag) ...].
    [args] are the tokens from [optind] on; the result is the state at
    the exit of the loop and the tokens from [optind] on at that point. *)
Fixpoint Parse_loop (args : list string) (st : ParseState)
  : Result (ParseState * list string) :=
  match args with
  | [] => Ok (st, args)
  | argv_str :: following =>
      r <- getopt_long argv_str following recognized_options_ ;;
      match r with
      | getopt_end => Ok (st, args)
      | getopt_missing => Throw (ParseException NoMessage)
      | getopt_val flag optarg uses_next =>
          st' <- Parse_switch flag optarg st ;;
          Parse_loop (advance uses_next following) st'
      end
  end.

(** Step 1, before the options are parsed.  [lparams] is the
    default-constructed parameter set (its member initialisers are in
    the header). *)
Definition Parse_setup (getenv : string -> option string)
    (lparams : TritonServerParameters) : Result ParseState :=
  let aip_mode := GetEnvironmentVariableOrDefault getenv "AIP_MODE" "" in
  let lparams :=
    if aip_mode == "PREDICTION"
    then set_allow_grpc_ false
           (set_allow_http_ false (set_allow_vertex_ai_ true lparams))
    else lparams in
  let port :=
    GetEnvironmentVariableOrDefault getenv "AIP_HTTP_PORT" "8080" in
  v <- ParseOption_int port ;;
  Ok (mkParseState (set_vertex_ai_port_ v lparams) false false false false).

(** Step 3, post-parsing validation.  The two statements of this step
    that only write members without a field here (the default model
    repository taken from [AIP_STORAGE_URI], and the trace level reset)
    cannot throw and are not represented. *)
Definition Parse_validate (st : ParseState) : Result TritonServerParameters :=
  let p := lparams st in
  let p :=
    match control_mode_ p with
    | TRITONSERVER_MODEL_CONTROL_POLL => p
    | _ => set_repository_poll_secs_ 0 p
    end in
  let p := set_allow_gpu_metrics_ (allow_gpu_metrics_ p && allow_metrics_ p) p in
  let p := set_allow_cpu_metrics_ (allow_cpu_metrics_ p && allow_metrics_ p) p in
  let p :=
    if disable_auto_complete_config st then set_strict_model_config_ true p
    else p in
  if cache_size_present st && cache_config_present st
  then Throw (ParseException IncompatibleCacheFlags)
  else
    Ok (set_enable_cache_ (cache_size_present st || cache_config_present st) p).

(** Steps 1 and 2 and the test that follows the loop.  [argv[0]] is not
    scanned ([optind] starts at 1). *)
Definition Parse_options (getenv : string -> option string)
    (lparams : TritonServerParameters) (argv : list string)
  : Result ParseState :=
  st0 <- Parse_setup getenv lparams ;;
  '(st, remaining) <- Parse_loop (tl argv) st0 ;;
  match remaining with
  | token :: _ => Throw (ParseException (UnexpectedArgument token))
  | [] => Ok st
  end.

(** [TritonParser::Parse]; the second component of the result is the
    empty vector the source returns. *)
Definition Parse (getenv : string -> option string)
    (lparams : TritonServerParameters) (argv : list string)
  : Result (TritonServerParameters * list string) :=
  st <- Parse_options getenv lparams argv ;;
  p <- Parse_validate st ;;
  Ok (p, []).

(** The [switch] run for a sequence of flags with their arguments, until
    a case throws. *)
Fixpoint run_switch (options : list (TritonOptionId * string))
    (st : ParseState) : Result ParseState :=
  match options with
  | [] => Ok st
  | (flag, optarg) :: options' =>
      st' <- Parse_switch flag optarg st ;;
      run_switch options' st'
  end.

(** The flags the option loop dispatches for the tokens [args], with
    their arguments, up to the token at which scanning stops. *)
Fixpoint scanned_options (args : list string)
  : list (TritonOptionId * string) :=
  match args with
  | [] => []
  | argv_str :: following =>
      match getopt_long argv_str following recognized_options_ with
      | Ok (getopt_val flag optarg uses_next) =>
          (flag, optarg) :: scanned_options (advance uses_next following)
      | _ => []
      end
  end.

End OptionLoop.

Arguments ParseOption_double {double} stod arg.
Arguments Parse_switch {double} stod flag optarg st.
Arguments Parse_loop {double} stod args st.
Arguments run_switch {double} stod options st.
Arguments Parse_options {double} stod getenv lparams argv.
Arguments Parse {double} stod getenv lparams argv.

(** ** What the token list supplies *)

Definition TritonOptionId_eq_dec (a b : TritonOptionId) : {a = b} + {a <> b}.
Proof. decide equality. Defined.

(** The scanned option [o] is the flag [flag]. *)
Definition is_flag (flag : TritonOptionId) (o : TritonOptionId * string)
  : bool :=
  if TritonOptionId_eq_dec (fst o) flag then true else false.

(** The arguments given to [flag], in the order of the tokens. *)
Definition arguments_of (flag : TritonOptionId)
    (options : list (TritonOptionId * string)) : list string :=
  map snd (filter (is_flag flag) options).

(** [flag] is among the scanned options. *)
Definition supplied (flag : TritonOptionId)
    (options : list (TritonOptionId * string)) : bool :=
  existsb (is_flag flag) options.

(** ** Sample inputs for the closed examples *)

(** A parameter set to start the examples from.  The member
    initialisers of [TritonServerParameters] are in the header; the
    theorems hold for any initial value, and the examples use this one. *)
Definition sample_lparams : TritonServerParameters :=
  {| control_mode_ := TRITONSERVER_MODEL_CONTROL_NONE;
     repository_poll_secs_ := 15;
     rate_limit_resources_ := [];
     cuda_pools_ := [];
     enable_cache_ := false;
     cache_config_settings_ := [];
     strict_model_config_ := false;
     allow_http_ := true;
     http_address_ := "0.0.0.0";
     http_port_ := 8000;
     allow_grpc_ := true;
     grpc_options_ :=
       {| socket_ := {| address_ := "0.0.0.0"; port_ := 8001 |};
          ssl_ := {| use_ssl_ := false; use_mutual_auth_ := false |} |};
     allow_metrics_ := true;
     allow_gpu_metrics_ := true;
     allow_cpu_metrics_ := true;
     metrics_address_ := "0.0.0.0";
     metrics_port_ := 8002;
     allow_sagemaker_ := false;
     sagemaker_address_ := "0.0.0.0";
     sagemaker_port_ := 8080;
     sagemaker_safe_range_set_ := false;
     sagemaker_safe_range_ := (-1, -1);
     allow_vertex_ai_ := false;
     vertex_ai_address_ := "0.0.0.0";
     vertex_ai_port_ := 8080 |}.

(** An environment in which no variable is set. *)
Definition empty_environment : string -> option string := fun _ => None.

(** An instance of the floating-point parameters for the examples, none
    of which passes a floating-point option: a [stod] that converts
    nothing. *)
Definition sample_stod : string -> Result unit :=
  fun _ => Throw std_invalid_argument.

(** ** [TritonParser::FormatUsageMessage] *)

(** The last position [<= limit] of [s] that holds [c]. *)
Fixpoint rindex (c : ascii) (s : string) (limit : nat) : option nat :=
  match s with
  | EmptyString => None
  | String c' s' =>
      match limit with
      | O => if Ascii.eqb c' c then Some O else None
      | S limit' =>
          match rindex c s' limit' with
          | Some i => Some (S i)
          | None => if Ascii.eqb c' c then Some O else None
          end
      end
  end.

(** [s.rfind(c, pos)] for a character [c]: the last position [<= pos] at
    which [c] occurs in [s], [npos] when there is none. *)
Definition rfind (s : string) (c : ascii) (pos : Z) : Z :=
  match rindex c s (Z.to_nat (Z.min pos (size s))) with
  | Some i => Z.of_nat i
  | None => npos
  end.

(** [s.replace(pos, len, t)]: throws [std::out_of_range] when
    [pos > size], otherwise the [min(len, size - pos)] characters from
    [pos] are replaced by [t]. *)
Definition replace (s : string) (pos len : Z) (t : string) : Result string :=
  if size s <? pos then Throw std_out_of_range
  else
    Ok (substring 0 (Z.to_nat pos) s ++ t
        ++ substring (Z.to_nat (pos + Z.min len (size s - pos)))
                     (String.length s) s).

(** The text a space is replaced by: a new line and a tabulation. *)
Definition line_break : string := String "010" (String "009" "").

(** The [while] loop of [FormatUsageMessage].  The loop has no bound in
    the source: [fuel] bounds the number of iterations, and [None] says
    that it was used up.  [current_pos] and [width] are [int]s: their
    sums are reduced to 32 bits, as the machine computes them (the
    language leaves a sum that overflows undefined, and the properties
    are stated where none does). *)
Fixpoint FormatUsageMessage_loop (fuel : nat) (str : string)
    (current_pos : Z) : option (Result string) :=
  let width := 60 in
  if to_int (current_pos + width) <? to_int (size str) then
    match fuel with
    | O => None
    | S fuel' =>
        let n :=
          to_int (rfind str " " (to_size_t (to_int (current_pos + width)))) in
        if negb (n =? to_int npos) then
          match replace str (to_size_t n) 1 line_break with
          | Ok str' =>
              FormatUsageMessage_loop fuel' str'
                                      (to_int (current_pos + (width + 9)))
          | Throw e => Some (Throw e)
          end
        else FormatUsageMessage_loop fuel' str current_pos
    end
  else Some (Ok str).

(** [offset] is an [int]. *)
Definition FormatUsageMessage (fuel : nat) (str : string) (offset : Z)
  : option (Result string) :=
  FormatUsageMessage_loop fuel str (to_int offset).

(** The number of iterations after which the loop has returned, if it
    returns at all: every replacement moves [current_pos] 68 characters
    closer to the end of the string. *)
Definition iterations_bound (str : string) (current_pos : Z) : nat :=
  Z.to_nat ((size str - current_pos - 60 + 67) / 68).

(** [text] is [str] with some of its spaces replaced by a line break,
    and nothing else changed. *)
Inductive line_broken : string -> string -> Prop :=
| line_broken_end : line_broken "" ""
| line_broken_keep (c : ascii) (str text : string) :
    line_broken str text -> line_broken (String c str) (String c text)
| line_broken_break (str text : string) :
    line_broken str text ->
    line_broken (String " " str) (line_break ++ text).

(** Every run of 61 characters of [str] that starts at position [from]
    or later holds a space: from there on, no word is longer than 60
    characters. *)
Definition spaced (str : string) (from : nat) : bool :=
  forallb (fun j => contains " " (substring j 61 str))
          (seq from (String.length str - 60 - from)).

(** ** What the options leave in the parameter set *)

(** [v] is what an option that keeps a single value holds after its
    arguments [args] were parsed with [parse], all without exception,
    and assigned in turn to a member that held [default]: the value of
    the last argument, [default] when there is no argument. *)
Definition last_parsed {A : Type} (parse : string -> Result A)
    (args : list string) (default v : A) : Prop :=
  exists values,
    Forall2 (fun optarg x => parse optarg = Ok x) args values
    /\ v = last values default.

(** [m.find(k)] on the association list that stands for a map. *)
Fixpoint map_find {V : Type} (k : string) (m : list (string * V))
  : option V :=
  match m with
  | [] => None
  | (k', v') :: m' => if k' == k then Some v' else map_find k m'
  end.

(** The settings recorded for the cache [name]; none when the cache has
    no entry. *)
Definition settings_of (name : string)
    (m : list (string * list (string * string))) : list (string * string) :=
  match map_find name m with
  | Some settings => settings
  | None => []
  end.

(** The settings [--response-cache-byte-size] records for the cache
    named [local], as a value read from the argument of the flag. *)
Definition local_size_setting (optarg : string)
  : Result (option (list (string * string))) :=
  v <- ParseOption_int64_t optarg ;; Ok (Some [("size", to_string v)]).

(** ** More sample inputs *)

(** Two texts for the examples of [FormatUsageMessage]: the help text of
    [--metrics-interval-ms], and a text longer than the width that has
    no space in it. *)
Definition sample_description : string :=
  "Metrics will be collected once every <metrics-interval-ms> "
  ++ "milliseconds. Default is 2000 milliseconds.".

Definition sample_unbroken_text : string :=
  "/opt/tritonserver/repoagents/checksum/libtritonrepoagent_checksum.so".

(** An environment as on Vertex AI: [AIP_MODE] is [PREDICTION] and
    [AIP_HTTP_PORT] is 9000. *)
Definition prediction_environment : string -> option string :=
  fun variable_name =>
    if variable_name == "AIP_MODE" then Some "PREDICTION"
    else if variable_name == "AIP_HTTP_PORT" then Some "9000"
    else None.

(** ** Proof automation *)

(** Takes apart a hypothesis stating that a monadic computation over
    still-folded parsers returned normally. *)
Ltac crack H :=
  repeat match type of H with
         | bind ?r _ = Ok _ =>
             let E := fresh "E" in
             destruct r as [? | ?] eqn:E; cbn [bind] in H;
             [| discriminate H]
         | (if ?c then _ else _) = Ok _ => destruct c eqn:?
         | (let '(_, _) := ?a in _) = Ok _ => destruct a
         | Throw _ = Ok _ => discriminate H
         | Ok _ = Ok _ => injection H as H
         end.

(** Runs through the cases of the [switch] for a hypothesis
    [H : Parse_switch stod flag optarg st = Ok st']. *)
Ltac switch_cases H flag st st' :=
  let p := fresh "p" in
  destruct st as [p ? ? ? ?]; destruct p;
  destruct flag; cbv beta iota zeta delta [Parse_switch] in H; crack H;
  subst st'; cbn.

(** Decides a statement about the pairs of a short list of entries by
    running through the positions. *)
Ltac no_such_pair :=
  let i := fresh "i" in
  let j := fresh "j" in
  let a := fresh "a" in
  let b := fresh "b" in
  let Hne := fresh "Hne" in
  let Hi := fresh "Hi" in
  let Hj := fresh "Hj" in
  let Hc := fresh "Hc" in
  match goal with
  | |- ~ some_pair _ ?ports =>
      let l := eval vm_compute in ports in change ports with l
  end;
  intros (i & j & a & b & Hne & Hi & Hj & Hc);
  repeat match goal with
         | H : nth_error _ ?k = Some _ |- _ =>
             is_var k; destruct k; cbn [nth_error] in H;
             try discriminate H
         end;
  try (exfalso; apply Hne; reflexivity);
  injection Hi as <-; injection Hj as <-; discriminate Hc.

(* ================================================================== *)
(** * Part II.  Properties                                             *)
(* ================================================================== *)

(** ** Machine integers *)

Lemma to_size_t_small (z : Z) : 0 <= z < 2 ^ 64 -> to_size_t z = z.
Proof. intros H. unfold to_size_t. apply Z.mod_small. exact H. Qed.

Lemma to_int_small (z : Z) : - 2 ^ 31 <= z < 2 ^ 31 -> to_int z = z.
Proof.
  intros H. unfold to_int. rewrite Z.mod_small; lia.
Qed.

Lemma to_size_t_npos_succ : to_size_t (npos + 1) = 0.
Proof. reflexivity. Qed.

(** ** Strings *)

Lemma size_nonneg (s : string) : 0 <= size s.
Proof. unfold size. lia. Qed.

Lemma length_append (a b : string) :
  String.length (a ++ b) = (String.length a + String.length b)%nat.
Proof. induction a as [| c a IH]; simpl; [reflexivity | now rewrite IH]. Qed.

Lemma size_append (a b : string) : size (a ++ b) = size a + size b.
Proof. unfold size. rewrite length_append. lia. Qed.

Lemma size_String (c : ascii) (s : string) : size (String c s) = 1 + size s.
Proof. unfold size. simpl String.length. lia. Qed.

Lemma append_assoc (a b c : string) : (a ++ b) ++ c = a ++ (b ++ c).
Proof. induction a as [| x a IH]; simpl; [reflexivity | now rewrite IH]. Qed.

Lemma substring_whole (s : string) (m : nat) :
  (String.length s <= m)%nat -> substring 0 m s = s.
Proof.
  revert m. induction s as [| c s IH]; intros m H.
  - destruct m; reflexivity.
  - destruct m as [| m]; simpl in H; [lia |].
    simpl. rewrite IH by lia. reflexivity.
Qed.

Lemma substring_prefix (a b : string) :
  substring 0 (String.length a) (a ++ b) = a.
Proof.
  induction a as [| c a IH]; simpl.
  - destruct b; reflexivity.
  - now rewrite IH.
Qed.

Lemma substring_skip (a b : string) (n m : nat) :
  substring (String.length a + n) m (a ++ b) = substring n m b.
Proof. induction a as [| c a IH]; simpl; [reflexivity | exact IH]. Qed.

Lemma index_skip (pat a b : string) (n : nat) :
  index (String.length a + n) pat (a ++ b)
  = option_map (Nat.add (String.length a)) (index n pat b).
Proof.
  induction a as [| c a IH]; simpl.
  - destruct (index n pat b); reflexivity.
  - rewrite IH. destruct (index n pat b); reflexivity.
Qed.

Lemma prefix_char (c c' : ascii) (s : string) :
  prefix (String c "") (String c' s) = Ascii.eqb c' c.
Proof.
  simpl. destruct (ascii_dec c c') as [-> | Hne].
  - rewrite Ascii.eqb_refl. destruct s; reflexivity.
  - symmetry. apply Ascii.eqb_neq. congruence.
Qed.

Lemma index_char_absent (c : ascii) (s : string) (n : nat) :
  contains c s = false -> index n (String c "") s = None.
Proof.
  revert n. induction s as [| c' s IH]; intros n H.
  - destruct n; reflexivity.
  - simpl in H. apply orb_false_iff in H. destruct H as [Hc Hs].
    destruct n as [| n].
    + cbn [index]. rewrite prefix_char, Hc. rewrite (IH 0%nat Hs). reflexivity.
    + cbn [index]. rewrite (IH n Hs). reflexivity.
Qed.

Lemma index_char_first (c : ascii) (a b : string) :
  contains c a = false ->
  index 0 (String c "") (a ++ String c b) = Some (String.length a).
Proof.
  induction a as [| c' a IH]; intros H.
  - cbn [append index]. rewrite prefix_char, Ascii.eqb_refl. reflexivity.
  - simpl in H. apply orb_false_iff in H. destruct H as [Hc Ha].
    cbn [append index]. rewrite prefix_char, Hc, (IH Ha). reflexivity.
Qed.

(** *** [find] and [substr] on a string given by its parts *)

Lemma find_absent (c : ascii) (s : string) (pos : Z) :
  contains c s = false -> find s (String c "") pos = npos.
Proof.
  intros H. unfold find. destruct (size s <? pos); [reflexivity |].
  rewrite index_char_absent by exact H. reflexivity.
Qed.

Lemma find_first (c : ascii) (a b : string) :
  contains c a = false ->
  find (a ++ String c b) (String c "") 0 = size a.
Proof.
  intros H. unfold find.
  destruct (size (a ++ String c b) <? 0) eqn:E.
  - apply Z.ltb_lt in E. pose proof (size_nonneg (a ++ String c b)). lia.
  - change (Z.to_nat 0) with 0%nat. rewrite index_char_first by exact H.
    reflexivity.
Qed.

(** Searching from the end of a prefix is searching the rest. *)
Lemma find_skip (pat a b : string) :
  find (a ++ b) pat (size a)
  = match index 0 pat b with
    | Some i => size a + Z.of_nat i
    | None => npos
    end.
Proof.
  unfold find. rewrite size_append.
  destruct (size a + size b <? size a) eqn:E.
  - apply Z.ltb_lt in E. pose proof (size_nonneg b). lia.
  - unfold size at 1. rewrite Nat2Z.id.
    replace (String.length a) with (String.length a + 0)%nat at 1 by lia.
    rewrite index_skip. destruct (index 0 pat b); simpl; [| reflexivity].
    unfold size. lia.
Qed.

Lemma substr_prefix (a b : string) : substr (a ++ b) 0 (size a) = Ok a.
Proof.
  unfold substr.
  destruct (size (a ++ b) <? 0) eqn:E.
  - apply Z.ltb_lt in E. pose proof (size_nonneg (a ++ b)). lia.
  - rewrite size_append. pose proof (size_nonneg b).
    rewrite Z.min_l by lia. unfold size. rewrite Nat2Z.id.
    change (Z.to_nat 0) with 0%nat. rewrite substring_prefix. reflexivity.
Qed.

Lemma substr_middle (a b c : string) :
  substr (a ++ b ++ c) (size a) (size b) = Ok b.
Proof.
  unfold substr. rewrite !size_append.
  pose proof (size_nonneg b). pose proof (size_nonneg c).
  destruct (size a + (size b + size c) <? size a) eqn:E.
  - apply Z.ltb_lt in E. lia.
  - rewrite Z.min_l by lia. unfold size. rewrite !Nat2Z.id.
    replace (String.length a) with (String.length a + 0)%nat at 1 by lia.
    rewrite substring_skip, substring_prefix. reflexivity.
Qed.

Lemma substr_suffix (a b : string) (n : Z) :
  size b <= n -> substr (a ++ b) (size a) n = Ok b.
Proof.
  intros Hn. unfold substr. rewrite size_append.
  pose proof (size_nonneg b).
  destruct (size a + size b <? size a) eqn:E.
  - apply Z.ltb_lt in E. lia.
  - replace (size a + size b - size a) with (size b) by lia.
    rewrite Z.min_r by lia. unfold size. rewrite !Nat2Z.id.
    replace (String.length a) with (String.length a + 0)%nat at 1 by lia.
    rewrite substring_skip, substring_whole by lia. reflexivity.
Qed.


(** ** The typed value parsers *)

Lemma ParseOption_bool_cases (arg : string) :
  let larg := transform tolower arg in
  ParseOption_bool arg
  = if (larg == "true") || (larg == "on") || (larg == "1") then Ok true
    else if (larg == "false") || (larg == "off") || (larg == "0")
         then Ok false
         else Throw (ParseException (InvalidBoolOption arg)).
Proof. reflexivity. Qed.

(** C9.  Boolean parsing is case-insensitive: a string whose lowercase
    form is "true", "on" or "1" parses to [true]; one whose lowercase
    form is "false", "off" or "0" parses to [false]; any other string
    makes [ParseOption<bool>] throw [ParseException] with the
    invalid-value message. *)
Theorem ParseOption_bool_case_insensitive (arg : string) :
  let larg := transform tolower arg in
  (In larg ["true"; "on"; "1"] -> ParseOption_bool arg = Ok true)
  /\ (In larg ["false"; "off"; "0"] -> ParseOption_bool arg = Ok false)
  /\ (~ In larg ["true"; "on"; "1"; "false"; "off"; "0"] ->
      ParseOption_bool arg = Throw (ParseException (InvalidBoolOption arg))).
Proof.
  intros larg. rewrite ParseOption_bool_cases. fold larg.
  repeat split.
  - intros [<- | [<- | [<- | []]]]; reflexivity.
  - intros [<- | [<- | [<- | []]]]; reflexivity.
  - intros Hnot.
    assert (Hne : forall lit, In lit ["true"; "on"; "1"; "false"; "off"; "0"] ->
                              (larg == lit) = false).
    { intros lit Hin. apply String.eqb_neq. intros ->. apply Hnot. exact Hin. }
    rewrite !Hne by (simpl; tauto). reflexivity.
Qed.

Lemma ParseOption_bool_case_insensitive_witness :
  ParseOption_bool "TRUE" = Ok true
  /\ ParseOption_bool "On" = Ok true
  /\ ParseOption_bool "oFF" = Ok false
  /\ ParseOption_bool "yes" = Throw (ParseException (InvalidBoolOption "yes")).
Proof.
  split; [| split; [| split]].
  - apply (proj1 (ParseOption_bool_case_insensitive "TRUE")). simpl. tauto.
  - apply (proj1 (ParseOption_bool_case_insensitive "On")). simpl. tauto.
  - apply (proj1 (proj2 (ParseOption_bool_case_insensitive "oFF"))).
    simpl. tauto.
  - apply (proj2 (proj2 (ParseOption_bool_case_insensitive "yes"))).
    simpl. intros H.
    repeat (destruct H as [H | H]; [discriminate H |]). exact H.
Defined.

(** C3, at the failing input.  [ParseOption<int>] is [std::stoi] with no
    check of how much of the string was converted: on "12x" it yields 12
    and on "1.4" it yields 1, where the comment above the template asks
    for an error; the 64-bit specialisations behave alike.  A complete
    literal such as "12" yields its value. *)
Theorem ParseOption_int_accepts_trailing_garbage :
  ParseOption_int "12x" = Ok 12
  /\ ParseOption_int "1.4" = Ok 1
  /\ ParseOption_int64_t "12x" = Ok 12
  /\ ParseOption_uint64_t "12x" = Ok 12
  /\ ParseOption_int "12" = Ok 12.
Proof. repeat split; reflexivity. Qed.

(** *** What follows the digits is ignored *)

Lemma read_digits_append (a g : string) :
  starts_with_digit g = false ->
  forall acc, read_digits (a ++ g) acc = read_digits a acc.
Proof.
  intros Hg. induction a as [| c a IH]; intros acc.
  - cbn [append read_digits]. destruct g as [| c g]; [reflexivity |].
    cbn [starts_with_digit] in Hg. cbn [read_digits].
    destruct (digit_value c); [discriminate Hg | reflexivity].
  - cbn [append read_digits]. destruct (digit_value c); [| reflexivity].
    rewrite IH. reflexivity.
Qed.

Lemma skip_spaces_append (a g : string) :
  skip_spaces a <> "" -> skip_spaces (a ++ g) = skip_spaces a ++ g.
Proof.
  induction a as [| c a IH]; intros H.
  - contradiction H. reflexivity.
  - cbn [append skip_spaces] in H |- *.
    destruct (isspace c); [apply IH; exact H | reflexivity].
Qed.

Lemma strto_subject_append (a g : string) :
  starts_with_digit g = false ->
  strto_subject a <> None ->
  strto_subject (a ++ g) = strto_subject a.
Proof.
  intros Hg Hsome. unfold strto_subject in *.
  destruct (skip_spaces a) as [| c r] eqn:E.
  - contradiction Hsome. reflexivity.
  - rewrite skip_spaces_append by (rewrite E; discriminate).
    rewrite E. cbn [append].
    destruct (Ascii.eqb c "-") eqn:Eminus.
    + apply Ascii.eqb_eq in Eminus. subst c.
      rewrite read_digits_append by exact Hg. reflexivity.
    + destruct (Ascii.eqb c "+") eqn:Eplus.
      * apply Ascii.eqb_eq in Eplus. subst c.
        rewrite read_digits_append by exact Hg. reflexivity.
      * assert (Hshape : forall s : string,
                   (let '(negative, s2) :=
                      match String c s with
                      | String "-" r0 => (true, r0)
                      | String "+" r0 => (false, r0)
                      | _ => (false, String c s)
                      end in
                    match read_digits s2 0 with
                    | (_, O) => None
                    | (v, S _) => Some (negative, v)
                    end)
                   = match read_digits (String c s) 0 with
                     | (_, O) => None
                     | (v, S _) => Some (false, v)
                     end).
        { intros s. apply Ascii.eqb_neq in Eminus, Eplus.
          destruct c as [[] [] [] [] [] [] [] []];
            solve [reflexivity | contradiction Eminus; reflexivity
                  | contradiction Eplus; reflexivity]. }
        rewrite !Hshape.
        change (String c (r ++ g)) with (String c r ++ g).
        rewrite read_digits_append by exact Hg. reflexivity.
Qed.

(** The integer specialisations of [ParseOption] return the same value
    when anything that does not start with a digit is appended to a
    string they accept. *)
Theorem ParseOption_integers_ignore_suffix (arg garbage : string) (v : Z) :
  starts_with_digit garbage = false ->
  (ParseOption_int arg = Ok v -> ParseOption_int (arg ++ garbage) = Ok v)
  /\ (ParseOption_int64_t arg = Ok v ->
      ParseOption_int64_t (arg ++ garbage) = Ok v)
  /\ (ParseOption_uint64_t arg = Ok v ->
      ParseOption_uint64_t (arg ++ garbage) = Ok v).
Proof.
  intros Hg.
  unfold ParseOption_int, ParseOption_int64_t, ParseOption_uint64_t,
    stoi, stoll, stoull.
  split; [| split]; intros H;
    (destruct (strto_subject arg) as [[negative m] |] eqn:E;
     [| discriminate H]);
    rewrite strto_subject_append by (rewrite ?E; solve [exact Hg | discriminate]);
    rewrite E; exact H.
Qed.

Lemma ParseOption_integers_ignore_suffix_witness :
  ParseOption_int ("8000" ++ " or so") = Ok 8000
  /\ ParseOption_int64_t ("-5" ++ "e3") = Ok (-5)
  /\ ParseOption_uint64_t (" 64" ++ "MB") = Ok 64.
Proof.
  split; [| split].
  - exact (proj1 (ParseOption_integers_ignore_suffix
                    "8000" " or so" 8000 eq_refl) eq_refl).
  - exact (proj1 (proj2 (ParseOption_integers_ignore_suffix
                           "-5" "e3" (-5) eq_refl)) eq_refl).
  - exact (proj2 (proj2 (ParseOption_integers_ignore_suffix
                           " 64" "MB" 64 eq_refl)) eq_refl).
Defined.

(** ** Strings given by their parts around separators *)

Lemma npos_value : npos = 18446744073709551615.
Proof. reflexivity. Qed.

Lemma two_64_value : 2 ^ 64 = 18446744073709551616.
Proof. reflexivity. Qed.

Lemma two_31_value : 2 ^ 31 = 2147483648.
Proof. reflexivity. Qed.

Lemma append_String (a : string) (d : ascii) (b : string) :
  a ++ String d b = (a ++ String d "") ++ b.
Proof. rewrite append_assoc. reflexivity. Qed.

Lemma size_append_String (a : string) (d : ascii) (b : string) :
  size (a ++ String d b) = size a + 1 + size b.
Proof. rewrite size_append, size_String. lia. Qed.

(** The search for [c] started right after the separator [d] that
    follows [a]. *)
Lemma find_next (c d : ascii) (a b : string) :
  size (a ++ String d b) < npos ->
  find (a ++ String d b) (String c "") (to_size_t (size a + 1))
  = match index 0 (String c "") b with
    | Some i => size a + 1 + Z.of_nat i
    | None => npos
    end.
Proof.
  intros Hfit. rewrite size_append_String in Hfit.
  pose proof (size_nonneg a). pose proof (size_nonneg b).
  rewrite npos_value in Hfit.
  rewrite to_size_t_small by (rewrite two_64_value; lia).
  rewrite append_String.
  replace (size a + 1) with (size (a ++ String d ""))
    by (rewrite size_append_String; change (size "") with 0; lia).
  apply find_skip.
Qed.

Lemma substr_after (d : ascii) (a b : string) :
  size (a ++ String d b) < npos ->
  substr (a ++ String d b) (to_size_t (size a + 1)) npos = Ok b.
Proof.
  intros Hfit. rewrite size_append_String in Hfit.
  pose proof (size_nonneg a). pose proof (size_nonneg b).
  rewrite npos_value in Hfit.
  rewrite to_size_t_small by (rewrite two_64_value; lia).
  rewrite append_String.
  replace (size a + 1) with (size (a ++ String d ""))
    by (rewrite size_append_String; change (size "") with 0; lia).
  apply substr_suffix. rewrite npos_value. lia.
Qed.

Lemma substr_between (d e : ascii) (a b r : string) :
  size (a ++ String d (b ++ String e r)) < npos ->
  substr (a ++ String d (b ++ String e r))
         (to_size_t (size a + 1)) (to_size_t (size b))
  = Ok b.
Proof.
  intros Hfit. rewrite !size_append_String in Hfit.
  pose proof (size_nonneg a). pose proof (size_nonneg b).
  pose proof (size_nonneg r). rewrite npos_value in Hfit.
  rewrite !to_size_t_small by (rewrite two_64_value; lia).
  rewrite append_String.
  replace (size a + 1) with (size (a ++ String d ""))
    by (rewrite size_append_String; change (size "") with 0; lia).
  apply substr_middle.
Qed.

(** ** The rate-limit resource parser *)

(** C6.  The rate-limit resource parser, on a string given by its
    colon-free parts: [name:count] yields [(name, count, -1)] and
    [name:count:device] yields [(name, count, device)], the count and
    the device being read by [ParseOption<int>]; a string with a third
    colon, and a string with no colon, throw [ParseException] with the
    format message.  The strings are as long as a [std::string] can be. *)
Theorem ParseRateLimiterResourceOption_format
    (name count device rest : string) :
  contains ":" name = false ->
  contains ":" count = false ->
  contains ":" device = false ->
  (size (name ++ ":" ++ count) < npos ->
   ParseRateLimiterResourceOption (name ++ ":" ++ count)
   = (c <- ParseOption_int count ;; Ok (name, c, -1)))
  /\ (size (name ++ ":" ++ count ++ ":" ++ device) < npos ->
      ParseRateLimiterResourceOption (name ++ ":" ++ count ++ ":" ++ device)
      = (c <- ParseOption_int count ;;
         d <- ParseOption_int device ;;
         Ok (name, c, d)))
  /\ (size (name ++ ":" ++ count ++ ":" ++ device ++ ":" ++ rest) < npos ->
      ParseRateLimiterResourceOption
        (name ++ ":" ++ count ++ ":" ++ device ++ ":" ++ rest)
      = Throw (ParseException
                 (RateLimitResourceFormat
                    (name ++ ":" ++ count ++ ":" ++ device ++ ":" ++ rest))))
  /\ ParseRateLimiterResourceOption name
     = Throw (ParseException (RateLimitResourceFormat name)).
Proof.
  intros Hname Hcount Hdevice.
  pose proof (size_nonneg name) as Hn0.
  pose proof (size_nonneg count) as Hc0.
  pose proof (size_nonneg device) as Hd0.
  pose proof (size_nonneg rest) as Hr0.
  cbn [append].
  split; [| split; [| split]].
  - (* name:count *)
    intros Hfit. unfold ParseRateLimiterResourceOption.
    rewrite (find_first ":" name count Hname).
    rewrite (find_next ":" ":" name count Hfit).
    rewrite (index_char_absent ":" count 0 Hcount).
    rewrite Z.eqb_refl. cbn [negb].
    rewrite (substr_after ":" name count Hfit).
    rewrite size_append_String in Hfit.
    replace (size name =? npos) with false by (symmetry; apply Z.eqb_neq; lia).
    cbn [negb]. rewrite substr_prefix. reflexivity.
  - (* name:count:device *)
    intros Hfit. unfold ParseRateLimiterResourceOption.
    rewrite (find_first ":" name _ Hname).
    rewrite (find_next ":" ":" name _ Hfit).
    rewrite (index_char_first ":" count device Hcount).
    fold (size count).
    pose proof Hfit as Hfit'. rewrite !size_append_String in Hfit'.
    replace (size name + 1 + size count =? npos) with false
      by (symmetry; apply Z.eqb_neq; lia).
    cbn [negb].
    replace (size name + 1 + size count - size name - 1) with (size count)
      by lia.
    rewrite (substr_between ":" ":" name count device Hfit).
    rewrite substr_prefix. cbn [bind].
    (* what follows the second colon *)
    rewrite (append_String name ":" (count ++ String ":" device)).
    rewrite <- append_assoc.
    replace (size name + 1 + size count)
      with (size ((name ++ String ":" "") ++ count))
      by (rewrite size_append, size_append_String; change (size "") with 0;
          lia).
    assert (Hfit2 : size (((name ++ String ":" "") ++ count)
                            ++ String ":" device) < npos).
    { rewrite size_append_String, size_append, size_append_String.
      change (size "") with 0. lia. }
    rewrite (find_next ":" ":" _ device Hfit2).
    rewrite (index_char_absent ":" device 0 Hdevice).
    rewrite Z.eqb_refl. cbn [negb].
    rewrite (substr_after ":" _ device Hfit2).
    reflexivity.
  - (* a third colon *)
    intros Hfit. unfold ParseRateLimiterResourceOption.
    rewrite (find_first ":" name _ Hname).
    rewrite (find_next ":" ":" name _ Hfit).
    rewrite (index_char_first ":" count _ Hcount).
    fold (size count).
    pose proof Hfit as Hfit'. rewrite !size_append_String in Hfit'.
    replace (size name + 1 + size count =? npos) with false
      by (symmetry; apply Z.eqb_neq; lia).
    cbn [negb].
    rewrite (append_String name ":" (count ++ String ":" _)) at 1.
    rewrite <- append_assoc.
    replace (size name + 1 + size count)
      with (size ((name ++ String ":" "") ++ count))
      by (rewrite size_append, size_append_String; change (size "") with 0;
          lia).
    assert (Hfit2 : size (((name ++ String ":" "") ++ count)
                            ++ String ":" (device ++ String ":" rest)) < npos).
    { rewrite !size_append_String, size_append, size_append_String.
      change (size "") with 0. lia. }
    rewrite (find_next ":" ":" _ _ Hfit2).
    rewrite (index_char_first ":" device rest Hdevice).
    match goal with
    | |- context [negb (?z =? npos)] =>
        replace (z =? npos) with false
          by (symmetry; apply Z.eqb_neq;
              rewrite size_append, size_append_String;
              change (size "") with 0; fold (size device); lia)
    end.
    reflexivity.
  - (* no colon *)
    unfold ParseRateLimiterResourceOption.
    rewrite (find_absent ":" name 0 Hname).
    rewrite to_size_t_npos_succ.
    rewrite (find_absent ":" name 0 Hname).
    rewrite Z.eqb_refl. reflexivity.
Qed.

Lemma ParseRateLimiterResourceOption_format_witness :
  ParseRateLimiterResourceOption "GPU_UTIL:4" = Ok ("GPU_UTIL", 4, -1)
  /\ ParseRateLimiterResourceOption "GPU_UTIL:4:0" = Ok ("GPU_UTIL", 4, 0)
  /\ ParseRateLimiterResourceOption "GPU_UTIL:4:0:1"
     = Throw (ParseException (RateLimitResourceFormat "GPU_UTIL:4:0:1"))
  /\ ParseRateLimiterResourceOption "GPU_UTIL"
     = Throw (ParseException (RateLimitResourceFormat "GPU_UTIL")).
Proof.
  pose proof (ParseRateLimiterResourceOption_format "GPU_UTIL" "4" "0" "1"
                eq_refl eq_refl eq_refl) as [H1 [H2 [H3 H4]]].
  split; [| split; [| split]].
  - exact (H1 eq_refl).
  - exact (H2 eq_refl).
  - exact (H3 eq_refl).
  - exact H4.
Defined.

(** ** The pair parser *)

(** [ParsePairOption] with a one-character delimiter splits at the first
    occurrence of the delimiter and reads the two halves with the
    parsers of its type parameters, the first half first; without the
    delimiter it throws [ParseException].  The string is short enough
    for its positions to fit an [int]. *)
Theorem ParsePairOption_format {T1 T2 : Type}
    (ParseOption_T1 : string -> Result T1)
    (ParseOption_T2 : string -> Result T2)
    (delim : ascii) (first second : string) :
  contains delim first = false ->
  (size (first ++ String delim second) < 2 ^ 31 ->
   ParsePairOption ParseOption_T1 ParseOption_T2
                   (first ++ String delim second) (String delim "")
   = (a <- ParseOption_T1 first ;;
      b <- ParseOption_T2 second ;;
      Ok (a, b)))
  /\ ParsePairOption ParseOption_T1 ParseOption_T2 first (String delim "")
     = Throw (ParseException (PairOptionFormat (String delim "") first)).
Proof.
  intros Hfirst. split.
  - intros Hfit. pose proof (size_nonneg first) as Hf0.
    pose proof (size_nonneg second) as Hs0.
    pose proof Hfit as Hfit'.
    rewrite size_append_String, two_31_value in Hfit'.
    unfold ParsePairOption.
    rewrite (find_first delim first second Hfirst).
    rewrite to_int_small by (rewrite two_31_value; lia).
    replace (size first <? 0) with false by (symmetry; apply Z.ltb_ge; lia).
    rewrite (to_size_t_small (size first)) by (rewrite two_64_value; lia).
    rewrite substr_prefix. cbn [bind].
    change (size (String delim "")) with 1.
    rewrite substr_after by (rewrite npos_value; lia).
    reflexivity.
  - unfold ParsePairOption.
    rewrite (find_absent delim first 0 Hfirst). reflexivity.
Qed.

Lemma ParsePairOption_format_witness :
  ParsePairOption ParseOption_int ParseOption_uint64_t "8:1048576" ":"
  = Ok (8, 1048576)
  /\ ParsePairOption ParseOption_int ParseOption_uint64_t "81048576" ":"
     = Throw (ParseException (PairOptionFormat ":" "81048576")).
Proof.
  split.
  - exact (proj1 (ParsePairOption_format ParseOption_int ParseOption_uint64_t
                    ":" "8" "1048576" eq_refl) eq_refl).
  - exact (proj2 (ParsePairOption_format ParseOption_int ParseOption_uint64_t
                    ":" "81048576" "" eq_refl)).
Defined.

(** ** The named-setting parsers *)

Lemma size_pos_not_empty (s : string) : (0 <? size s) = negb (empty s).
Proof. destruct s; reflexivity. Qed.

Lemma size_zero_empty (s : string) : (size s =? 0) = empty s.
Proof. destruct s; reflexivity. Qed.

(** What the three parsers compute from a string [group,key=value] whose
    group has no comma and whose key has no equals sign. *)
Section GroupKeyValue.

Variables group key value : string.
Hypothesis Hgroup : contains "," group = false.
Hypothesis Hkey : contains "=" key = false.
Hypothesis Hfit : size (group ++ String "," (key ++ String "=" value)) < 2 ^ 31.

Local Abbreviation arg := (group ++ String "," (key ++ String "=" value)).

Lemma gkv_sizes :
  0 <= size group /\ 0 <= size key /\ 0 <= size value
  /\ size group + 1 + size key + 1 + size value < 2147483648.
Proof.
  pose proof (size_nonneg group). pose proof (size_nonneg key).
  pose proof (size_nonneg value).
  pose proof Hfit as H'. rewrite !size_append_String, two_31_value in H'.
  lia.
Qed.

Lemma gkv_fit : size arg < npos.
Proof.
  pose proof Hfit as H'. rewrite two_31_value in H'.
  rewrite npos_value. lia.
Qed.

Lemma gkv_delim_name : to_int (find arg "," 0) = size group.
Proof.
  rewrite (find_first "," group _ Hgroup).
  apply to_int_small. destruct gkv_sizes as (? & ? & ? & ?).
  rewrite two_31_value. lia.
Qed.

Lemma gkv_delim_setting :
  to_int (find arg "=" (to_size_t (size group + 1)))
  = size group + 1 + size key.
Proof.
  rewrite (find_next "=" "," group _ gkv_fit).
  rewrite (index_char_first "=" key value Hkey). fold (size key).
  apply to_int_small. destruct gkv_sizes as (? & ? & ? & ?).
  rewrite two_31_value. lia.
Qed.

Lemma gkv_name : substr arg 0 (to_size_t (size group)) = Ok group.
Proof.
  destruct gkv_sizes as (? & ? & ? & ?).
  rewrite to_size_t_small by (rewrite two_64_value; lia).
  apply substr_prefix.
Qed.

Lemma gkv_setting :
  substr arg (to_size_t (size group + 1))
         (to_size_t (size group + 1 + size key - size group - 1))
  = Ok key.
Proof.
  replace (size group + 1 + size key - size group - 1) with (size key) by lia.
  apply (substr_between "," "=" group key value gkv_fit).
Qed.

Lemma gkv_value :
  substr arg (to_size_t (size group + 1 + size key + 1)) npos = Ok value.
Proof.
  destruct gkv_sizes as (? & ? & ? & ?).
  rewrite (append_String group "," (key ++ String "=" value)).
  rewrite <- append_assoc.
  replace (size group + 1 + size key)
    with (size ((group ++ String "," "") ++ key))
    by (rewrite size_append, size_append_String; change (size "") with 0;
        lia).
  apply substr_after.
  rewrite size_append_String, size_append, size_append_String.
  change (size "") with 0. rewrite npos_value. lia.
Qed.

Lemma ParseCacheConfigOption_gkv :
  ParseCacheConfigOption arg
  = if empty group then Throw (ParseException (NoCacheSpecified arg))
    else if empty key || empty value
         then Throw (ParseException (CacheConfigFormat arg))
         else Ok (group, key, value).
Proof.
  unfold ParseCacheConfigOption.
  rewrite gkv_delim_name, gkv_delim_setting, size_pos_not_empty.
  destruct (empty group); [reflexivity |]. cbn [negb].
  rewrite gkv_name. cbn [bind].
  destruct gkv_sizes as (? & ? & ? & ?).
  replace (size group + 1 + size key <? 0) with false
    by (symmetry; apply Z.ltb_ge; lia).
  rewrite gkv_setting, gkv_value. reflexivity.
Qed.

Lemma ParseBackendConfigOption_gkv :
  ParseBackendConfigOption arg
  = if empty group then Throw (ParseException (NoBackendSpecified arg))
    else if empty key || empty value
         then Throw (ParseException (BackendConfigFormat arg))
         else Ok (group, key, value).
Proof.
  unfold ParseBackendConfigOption.
  rewrite gkv_delim_name, gkv_delim_setting, size_pos_not_empty,
    size_zero_empty.
  destruct (empty group); [reflexivity |]. cbn [negb].
  rewrite gkv_name. cbn [bind].
  destruct gkv_sizes as (? & ? & ? & ?).
  replace (size group + 1 + size key <? 0) with false
    by (symmetry; apply Z.ltb_ge; lia).
  rewrite gkv_setting, gkv_value. reflexivity.
Qed.

Lemma ParseHostPolicyOption_gkv :
  ParseHostPolicyOption arg
  = if empty group || empty key || empty value
    then Throw (ParseException (HostPolicyFormat arg))
    else Ok (group, key, value).
Proof.
  unfold ParseHostPolicyOption.
  rewrite gkv_delim_name, gkv_delim_setting.
  destruct gkv_sizes as (? & ? & ? & ?).
  replace (size group <? 0) with false by (symmetry; apply Z.ltb_ge; lia).
  replace (size group + 1 + size key <? 0) with false
    by (symmetry; apply Z.ltb_ge; lia).
  cbn [orb].
  rewrite gkv_name, gkv_setting, gkv_value. reflexivity.
Qed.

End GroupKeyValue.

(** A comma, and no equals sign after it. *)
Section GroupRest.

Variables group rest : string.
Hypothesis Hgroup : contains "," group = false.
Hypothesis Hrest : contains "=" rest = false.
Hypothesis Hfit : size (group ++ String "," rest) < 2 ^ 31.

Local Abbreviation arg := (group ++ String "," rest).

Lemma gr_delim_name : to_int (find arg "," 0) = size group.
Proof.
  rewrite (find_first "," group _ Hgroup).
  apply to_int_small. pose proof (size_nonneg group).
  pose proof (size_nonneg rest). pose proof Hfit as H'.
  rewrite size_append_String in H'. lia.
Qed.

Lemma gr_delim_setting :
  to_int (find arg "=" (to_size_t (size group + 1))) = -1.
Proof.
  rewrite find_next.
  - rewrite (index_char_absent "=" rest 0 Hrest). reflexivity.
  - pose proof Hfit as H'. rewrite two_31_value in H'. rewrite npos_value.
    lia.
Qed.

Lemma gr_name : substr arg 0 (to_size_t (size group)) = Ok group.
Proof.
  pose proof (size_nonneg group). pose proof (size_nonneg rest).
  pose proof Hfit as H'. rewrite size_append_String, two_31_value in H'.
  rewrite to_size_t_small by (rewrite two_64_value; lia).
  apply substr_prefix.
Qed.

Lemma ParseCacheConfigOption_gr :
  ParseCacheConfigOption arg
  = if empty group then Throw (ParseException (NoCacheSpecified arg))
    else Throw (ParseException (CacheConfigFormat arg)).
Proof.
  unfold ParseCacheConfigOption.
  rewrite gr_delim_name, gr_delim_setting, size_pos_not_empty.
  destruct (empty group); [reflexivity |]. cbn [negb].
  rewrite gr_name. reflexivity.
Qed.

Lemma ParseBackendConfigOption_gr :
  ParseBackendConfigOption arg
  = if empty group then Throw (ParseException (NoBackendSpecified arg))
    else Throw (ParseException (BackendConfigFormat arg)).
Proof.
  unfold ParseBackendConfigOption.
  rewrite gr_delim_name, gr_delim_setting, size_pos_not_empty,
    size_zero_empty.
  destruct (empty group); [reflexivity |]. cbn [negb].
  rewrite gr_name. reflexivity.
Qed.

Lemma ParseHostPolicyOption_gr :
  ParseHostPolicyOption arg
  = Throw (ParseException (HostPolicyFormat arg)).
Proof.
  unfold ParseHostPolicyOption.
  rewrite gr_delim_name, gr_delim_setting.
  rewrite orb_true_r. reflexivity.
Qed.

End GroupRest.

(** No comma at all. *)
Section NoComma.

Variable arg : string.
Hypothesis Harg : contains "," arg = false.

Lemma nc_delim_name : to_int (find arg "," 0) = -1.
Proof. rewrite (find_absent "," arg 0 Harg). reflexivity. Qed.

Lemma ParseCacheConfigOption_nc :
  ParseCacheConfigOption arg = Throw (ParseException (NoCacheSpecified arg)).
Proof. unfold ParseCacheConfigOption. rewrite nc_delim_name. reflexivity. Qed.

Lemma ParseHostPolicyOption_nc :
  ParseHostPolicyOption arg = Throw (ParseException (HostPolicyFormat arg)).
Proof. unfold ParseHostPolicyOption. rewrite nc_delim_name. reflexivity. Qed.

Lemma ParseBackendConfigOption_nc_no_equals :
  contains "=" arg = false ->
  ParseBackendConfigOption arg
  = Throw (ParseException (BackendConfigFormat arg)).
Proof.
  intros Heq. unfold ParseBackendConfigOption. rewrite nc_delim_name.
  change (to_size_t (-1 + 1)) with 0.
  rewrite (find_absent "=" arg 0 Heq). reflexivity.
Qed.

End NoComma.

(** [ParseBackendConfigOption] on [key=value] without a comma: the
    setting is taken as one for all backends, under the empty name. *)
Lemma ParseBackendConfigOption_global (key value : string) :
  contains "," (key ++ String "=" value) = false ->
  contains "=" key = false ->
  size (key ++ String "=" value) < 2 ^ 31 ->
  ParseBackendConfigOption (key ++ String "=" value)
  = if empty key || empty value
    then Throw (ParseException (BackendConfigFormat (key ++ String "=" value)))
    else Ok ("", key, value).
Proof.
  intros Hcomma Hkey Hfit.
  pose proof (size_nonneg key). pose proof (size_nonneg value).
  pose proof Hfit as Hfit'. rewrite size_append_String, two_31_value in Hfit'.
  unfold ParseBackendConfigOption. rewrite (nc_delim_name _ Hcomma).
  change (to_size_t (-1 + 1)) with 0.
  rewrite (find_first "=" key value Hkey).
  rewrite to_int_small by (rewrite two_31_value; lia).
  cbn [Z.ltb Z.eqb Z.compare bind].
  replace (size key <? 0) with false by (symmetry; apply Z.ltb_ge; lia).
  replace (size key - -1 - 1) with (size key) by lia.
  rewrite (to_size_t_small (size key)) by (rewrite two_64_value; lia).
  rewrite substr_prefix. cbn [bind].
  rewrite substr_after by (rewrite npos_value; lia).
  reflexivity.
Qed.

(** C4, as the code has it.  On a string [group,key=value] (the group
    without comma, the key without equals sign) the cache, backend and
    host-policy parsers yield [(group, key, value)] when the three parts
    are non-empty and throw [ParseException] otherwise; on a string with
    a comma and no equals sign after it they throw; on a string without
    comma the cache and host-policy parsers throw, while the backend
    parser throws only when there is no equals sign either, and
    otherwise reads [key=value] as a setting under the empty group name.
    The strings are short enough for their positions to fit an [int]. *)
Theorem named_setting_parsers_format (group key value rest : string) :
  contains "," group = false ->
  contains "=" key = false ->
  (size (group ++ "," ++ key ++ "=" ++ value) < 2 ^ 31 ->
   let arg := group ++ "," ++ key ++ "=" ++ value in
   ParseCacheConfigOption arg
   = (if empty group then Throw (ParseException (NoCacheSpecified arg))
      else if empty key || empty value
           then Throw (ParseException (CacheConfigFormat arg))
           else Ok (group, key, value))
   /\ ParseBackendConfigOption arg
      = (if empty group then Throw (ParseException (NoBackendSpecified arg))
         else if empty key || empty value
              then Throw (ParseException (BackendConfigFormat arg))
              else Ok (group, key, value))
   /\ ParseHostPolicyOption arg
      = (if empty group || empty key || empty value
         then Throw (ParseException (HostPolicyFormat arg))
         else Ok (group, key, value)))
  /\ (contains "=" rest = false ->
      size (group ++ "," ++ rest) < 2 ^ 31 ->
      let arg := group ++ "," ++ rest in
      ParseCacheConfigOption arg
      = (if empty group then Throw (ParseException (NoCacheSpecified arg))
         else Throw (ParseException (CacheConfigFormat arg)))
      /\ ParseBackendConfigOption arg
         = (if empty group
            then Throw (ParseException (NoBackendSpecified arg))
            else Throw (ParseException (BackendConfigFormat arg)))
      /\ ParseHostPolicyOption arg
         = Throw (ParseException (HostPolicyFormat arg)))
  /\ (contains "," rest = false ->
      ParseCacheConfigOption rest
      = Throw (ParseException (NoCacheSpecified rest))
      /\ ParseHostPolicyOption rest
         = Throw (ParseException (HostPolicyFormat rest))
      /\ (contains "=" rest = false ->
          ParseBackendConfigOption rest
          = Throw (ParseException (BackendConfigFormat rest))))
  /\ (contains "," (key ++ "=" ++ value) = false ->
      size (key ++ "=" ++ value) < 2 ^ 31 ->
      let arg := key ++ "=" ++ value in
      ParseBackendConfigOption arg
      = (if empty key || empty value
         then Throw (ParseException (BackendConfigFormat arg))
         else Ok ("", key, value))).
Proof.
  intros Hgroup Hkey. cbn [append].
  split; [| split; [| split]].
  - intros Hfit. split; [| split].
    + apply ParseCacheConfigOption_gkv; assumption.
    + apply ParseBackendConfigOption_gkv; assumption.
    + apply ParseHostPolicyOption_gkv; assumption.
  - intros Hrest Hfit. split; [| split].
    + apply ParseCacheConfigOption_gr; assumption.
    + apply ParseBackendConfigOption_gr; assumption.
    + apply ParseHostPolicyOption_gr; assumption.
  - intros Hrest. split; [| split].
    + apply ParseCacheConfigOption_nc; assumption.
    + apply ParseHostPolicyOption_nc; assumption.
    + apply ParseBackendConfigOption_nc_no_equals; assumption.
  - intros Hcomma Hfit.
    apply ParseBackendConfigOption_global; assumption.
Qed.

Lemma named_setting_parsers_format_witness :
  ParseCacheConfigOption "local,size=1048576"
  = Ok ("local", "size", "1048576")
  /\ ParseHostPolicyOption ",size=1"
     = Throw (ParseException (HostPolicyFormat ",size=1"))
  /\ ParseCacheConfigOption "local,size"
     = Throw (ParseException (CacheConfigFormat "local,size"))
  /\ ParseCacheConfigOption "size=1"
     = Throw (ParseException (NoCacheSpecified "size=1"))
  /\ ParseBackendConfigOption "size=1" = Ok ("", "size", "1").
Proof.
  split; [| split; [| split; [| split]]].
  - exact (proj1 (proj1 (named_setting_parsers_format
                           "local" "size" "1048576" "" eq_refl eq_refl)
                        eq_refl)).
  - exact (proj2 (proj2 (proj1 (named_setting_parsers_format
                                  "" "size" "1" "" eq_refl eq_refl)
                               eq_refl))).
  - exact (proj1 (proj1 (proj2 (named_setting_parsers_format
                                  "local" "" "" "size" eq_refl eq_refl))
                        eq_refl eq_refl)).
  - exact (proj1 (proj1 (proj2 (proj2 (named_setting_parsers_format
                                         "" "" "" "size=1" eq_refl eq_refl)))
                        eq_refl)).
  - exact (proj2 (proj2 (proj2 (named_setting_parsers_format
                                  "" "size" "1" "" eq_refl eq_refl)))
                 eq_refl eq_refl).
Defined.

(** Against C4 as the specification states it: for the backend parser
    a string without comma is no error. *)
Lemma ParseBackendConfigOption_accepts_missing_comma :
  contains "," "size=1" = false
  /\ ParseBackendConfigOption "size=1" = Ok ("", "size", "1").
Proof. split; reflexivity. Qed.

(** ** The option loop *)

Section OptionLoopProperties.

Context {double : Type} (stod : string -> Result double).

Lemma advance_length (uses_next : bool) (following : list string) :
  (List.length (advance uses_next following) <= List.length following)%nat.
Proof.
  destruct uses_next; simpl; [| lia].
  destruct following; simpl; lia.
Qed.

Lemma Parse_loop_cons (argv_str : string) (following : list string)
    (st : ParseState) :
  Parse_loop stod (argv_str :: following) st
  = (r <- getopt_long argv_str following recognized_options_ ;;
     match r with
     | getopt_end => Ok (st, argv_str :: following)
     | getopt_missing => Throw (ParseException NoMessage)
     | getopt_val flag optarg uses_next =>
         st' <- Parse_switch stod flag optarg st ;;
         Parse_loop stod (advance uses_next following) st'
     end).
Proof. reflexivity. Qed.

Lemma scanned_options_cons (argv_str : string) (following : list string) :
  scanned_options (argv_str :: following)
  = match getopt_long argv_str following recognized_options_ with
    | Ok (getopt_val flag optarg uses_next) =>
        (flag, optarg) :: scanned_options (advance uses_next following)
    | _ => []
    end.
Proof. reflexivity. Qed.

(** A loop that ends without an exception has run the [switch] for the
    scanned options, in order. *)
Lemma Parse_loop_run_switch (args : list string) :
  forall (st st' : ParseState) (remaining : list string),
    Parse_loop stod args st = Ok (st', remaining) ->
    run_switch stod (scanned_options args) st = Ok st'.
Proof.
  remember (List.length args) as n eqn:Hn.
  assert (Hle : (List.length args <= n)%nat) by lia. clear Hn.
  revert args Hle. induction n as [| n IH]; intros args Hle st st' remaining H.
  - destruct args; [| simpl in Hle; lia].
    simpl in H. injection H as <- _. reflexivity.
  - destruct args as [| argv_str following].
    + simpl in H. injection H as <- _. reflexivity.
    + rewrite Parse_loop_cons in H. rewrite scanned_options_cons.
      destruct (getopt_long argv_str following recognized_options_)
        as [[| | flag optarg uses_next] | e]; cbn [bind] in H.
      * injection H as <- _. reflexivity.
      * discriminate H.
      * cbn [run_switch].
        destruct (Parse_switch stod flag optarg st) as [st1 | e];
          cbn [bind] in H |- *; [| discriminate H].
        apply (IH _) with (remaining := remaining); [| exact H].
        pose proof (advance_length uses_next following). simpl in Hle. lia.
      * discriminate H.
Qed.

End OptionLoopProperties.

(** ** What one [case] of the [switch] changes *)

Section SwitchProperties.

Context {double : Type} (stod : string -> Result double).

Lemma Parse_switch_cuda_pools (flag : TritonOptionId) (optarg : string)
    (st st' : ParseState) :
  Parse_switch stod flag optarg st = Ok st' ->
  if TritonOptionId_eq_dec flag OPTION_CUDA_MEMORY_POOL_BYTE_SIZE
  then exists pool,
      ParsePairOption ParseOption_int ParseOption_uint64_t optarg ":"
      = Ok pool
      /\ cuda_pools_ (lparams st')
         = (cuda_pools_ (lparams st) ++ [pool])%list
  else cuda_pools_ (lparams st') = cuda_pools_ (lparams st).
Proof.
  intros H. switch_cases H flag st st'; try reflexivity.
  eexists. split; reflexivity.
Qed.

Lemma Parse_switch_poll_secs (flag : TritonOptionId) (optarg : string)
    (st st' : ParseState) :
  Parse_switch stod flag optarg st = Ok st' ->
  if TritonOptionId_eq_dec flag OPTION_POLL_REPO_SECS
  then exists v,
      ParseOption_int optarg = Ok v
      /\ repository_poll_secs_ (lparams st') = v
  else repository_poll_secs_ (lparams st')
       = repository_poll_secs_ (lparams st).
Proof.
  intros H. switch_cases H flag st st'; try reflexivity.
  eexists. split; reflexivity.
Qed.

Lemma Parse_switch_cache_present (flag : TritonOptionId) (optarg : string)
    (st st' : ParseState) :
  Parse_switch stod flag optarg st = Ok st' ->
  cache_size_present st'
  = cache_size_present st
    || is_flag OPTION_RESPONSE_CACHE_BYTE_SIZE (flag, optarg)
  /\ cache_config_present st'
     = cache_config_present st || is_flag OPTION_CACHE_CONFIG (flag, optarg).
Proof.
  intros H. switch_cases H flag st st';
    rewrite ?orb_false_r, ?orb_true_r; split; reflexivity.
Qed.

(** *** Over a run of the [switch] *)

Lemma run_switch_cuda_pools (options : list (TritonOptionId * string)) :
  forall st st' : ParseState,
    run_switch stod options st = Ok st' ->
    exists pools,
      Forall2 (fun optarg pool =>
                 ParsePairOption ParseOption_int ParseOption_uint64_t
                                 optarg ":" = Ok pool)
              (arguments_of OPTION_CUDA_MEMORY_POOL_BYTE_SIZE options) pools
      /\ cuda_pools_ (lparams st') = (cuda_pools_ (lparams st) ++ pools)%list.
Proof.
  induction options as [| [flag optarg] options IH]; intros st st' H.
  - injection H as <-. exists []. split; [constructor |].
    rewrite app_nil_r. reflexivity.
  - cbn [run_switch] in H.
    destruct (Parse_switch stod flag optarg st) as [st1 | e] eqn:E;
      cbn [bind] in H; [| discriminate H].
    destruct (IH st1 st' H) as [pools [Hpools Heq]].
    pose proof (Parse_switch_cuda_pools flag optarg st st1 E) as Hstep.
    unfold arguments_of. cbn [filter]. unfold is_flag at 1. cbn [fst].
    destruct (TritonOptionId_eq_dec flag OPTION_CUDA_MEMORY_POOL_BYTE_SIZE).
    + destruct Hstep as [pool [Hpool Hst1]].
      exists (pool :: pools). split.
      * cbn [map snd]. constructor; assumption.
      * rewrite Heq, Hst1, <- app_assoc. reflexivity.
    + exists pools. split; [exact Hpools |]. rewrite Heq, Hstep. reflexivity.
Qed.

Lemma last_cons_default {A : Type} (l : list A) :
  forall x d d' : A, last (x :: l) d = last (x :: l) d'.
Proof.
  induction l as [| y l IH]; intros x d d'; [reflexivity |].
  change (last (y :: l) d = last (y :: l) d'). apply IH.
Qed.

Lemma run_switch_poll_secs (options : list (TritonOptionId * string)) :
  forall st st' : ParseState,
    run_switch stod options st = Ok st' ->
    exists values,
      Forall2 (fun optarg v => ParseOption_int optarg = Ok v)
              (arguments_of OPTION_POLL_REPO_SECS options) values
      /\ repository_poll_secs_ (lparams st')
         = last values (repository_poll_secs_ (lparams st)).
Proof.
  induction options as [| [flag optarg] options IH]; intros st st' H.
  - injection H as <-. exists []. split; [constructor | reflexivity].
  - cbn [run_switch] in H.
    destruct (Parse_switch stod flag optarg st) as [st1 | e] eqn:E;
      cbn [bind] in H; [| discriminate H].
    destruct (IH st1 st' H) as [values [Hvalues Heq]].
    pose proof (Parse_switch_poll_secs flag optarg st st1 E) as Hstep.
    unfold arguments_of. cbn [filter]. unfold is_flag at 1. cbn [fst].
    destruct (TritonOptionId_eq_dec flag OPTION_POLL_REPO_SECS).
    + destruct Hstep as [v [Hv Hst1]].
      exists (v :: values). split.
      * cbn [map snd]. constructor; assumption.
      * rewrite Heq, Hst1. destruct values as [| z values]; [reflexivity |].
        change (last (z :: values) v
                = last (z :: values) (repository_poll_secs_ (lparams st))).
        apply last_cons_default.
    + exists values. split; [exact Hvalues |]. rewrite Heq, Hstep.
      reflexivity.
Qed.

Lemma run_switch_cache_present (options : list (TritonOptionId * string)) :
  forall st st' : ParseState,
    run_switch stod options st = Ok st' ->
    cache_size_present st'
    = cache_size_present st
      || supplied OPTION_RESPONSE_CACHE_BYTE_SIZE options
    /\ cache_config_present st'
       = cache_config_present st || supplied OPTION_CACHE_CONFIG options.
Proof.
  induction options as [| [flag optarg] options IH]; intros st st' H.
  - injection H as <-. cbn. rewrite !orb_false_r. split; reflexivity.
  - cbn [run_switch] in H.
    destruct (Parse_switch stod flag optarg st) as [st1 | e] eqn:E;
      cbn [bind] in H; [| discriminate H].
    destruct (IH st1 st' H) as [Hsize Hconfig].
    destruct (Parse_switch_cache_present flag optarg st st1 E) as [Hs Hc].
    unfold supplied in *. cbn [existsb].
    rewrite Hsize, Hconfig, Hs, Hc, !orb_assoc. split; reflexivity.
Qed.

(** *** The three steps of [Parse] *)

Lemma Parse_setup_unchanged (getenv : string -> option string)
    (lparams0 : TritonServerParameters) (st0 : ParseState) :
  Parse_setup getenv lparams0 = Ok st0 ->
  cuda_pools_ (lparams st0) = cuda_pools_ lparams0
  /\ repository_poll_secs_ (lparams st0) = repository_poll_secs_ lparams0
  /\ cache_size_present st0 = false
  /\ cache_config_present st0 = false.
Proof.
  unfold Parse_setup. intros H. crack H; subst st0; destruct lparams0; cbn.
  destruct (GetEnvironmentVariableOrDefault getenv "AIP_MODE" ""
            == "PREDICTION");
    repeat split; reflexivity.
Qed.

Lemma Parse_validate_result (st : ParseState) (p : TritonServerParameters) :
  Parse_validate st = Ok p ->
  cuda_pools_ p = cuda_pools_ (lparams st)
  /\ control_mode_ p = control_mode_ (lparams st)
  /\ repository_poll_secs_ p
     = match control_mode_ (lparams st) with
       | TRITONSERVER_MODEL_CONTROL_POLL =>
           repository_poll_secs_ (lparams st)
       | _ => 0
       end
  /\ enable_cache_ p = cache_size_present st || cache_config_present st.
Proof.
  unfold Parse_validate. intros H. destruct st as [q b1 b2 b3 b4].
  destruct q as [mode ? ? ? ? ? ? ? ? ? ? ? ? ? ? ? ? ? ? ? ? ? ? ? ?].
  cbn in H. destruct (b3 && b4); [discriminate H |].
  injection H as <-. destruct mode, b2; cbn; repeat split; reflexivity.
Qed.

Lemma Parse_options_inv (getenv : string -> option string)
    (lparams0 : TritonServerParameters) (argv : list string)
    (st : ParseState) :
  Parse_options stod getenv lparams0 argv = Ok st ->
  exists st0,
    Parse_setup getenv lparams0 = Ok st0
    /\ run_switch stod (scanned_options (tl argv)) st0 = Ok st.
Proof.
  unfold Parse_options. intros H.
  destruct (Parse_setup getenv lparams0) as [st0 | e]; cbn [bind] in H;
    [| discriminate H].
  destruct (Parse_loop stod (tl argv) st0) as [[st1 remaining] | e] eqn:E;
    cbn [bind] in H; [| discriminate H].
  destruct remaining; [| discriminate H]. injection H as <-.
  exists st0. split; [reflexivity |].
  apply (Parse_loop_run_switch stod _ _ _ _ E).
Qed.

Lemma Parse_inv (getenv : string -> option string)
    (lparams0 : TritonServerParameters) (argv : list string)
    (p : TritonServerParameters) (rest : list string) :
  Parse stod getenv lparams0 argv = Ok (p, rest) ->
  exists st,
    Parse_options stod getenv lparams0 argv = Ok st
    /\ Parse_validate st = Ok p /\ rest = [].
Proof.
  unfold Parse. intros H.
  destruct (Parse_options stod getenv lparams0 argv) as [st | e];
    cbn [bind] in H; [| discriminate H].
  destruct (Parse_validate st) as [q | e] eqn:E; cbn [bind] in H;
    [| discriminate H].
  injection H as <- <-. exists st.
  split; [reflexivity | split; [exact E | reflexivity]].
Qed.

End SwitchProperties.

(** ** Properties of [Parse] *)

Section ParseProperties.

Context {double : Type} (stod : string -> Result double).
Variable getenv : string -> option string.
Variable lparams0 : TritonServerParameters.

(** C5, as the code has it.  After a parse without exception the CUDA
    pool list is the initial list followed by one entry for every
    occurrence of the CUDA-memory-pool flag, in the order of the tokens:
    the pair [ParsePairOption<int, uint64_t>] reads from the flag's
    argument.  Entries are appended; none is merged or replaced. *)
Theorem Parse_cuda_pools_appended (argv : list string)
    (p : TritonServerParameters) (rest : list string) :
  Parse stod getenv lparams0 argv = Ok (p, rest) ->
  exists pools,
    Forall2 (fun optarg pool =>
               ParsePairOption ParseOption_int ParseOption_uint64_t
                               optarg ":" = Ok pool)
            (arguments_of OPTION_CUDA_MEMORY_POOL_BYTE_SIZE
                          (scanned_options (tl argv)))
            pools
    /\ cuda_pools_ p = (cuda_pools_ lparams0 ++ pools)%list.
Proof.
  intros H.
  destruct (Parse_inv stod _ _ _ _ _ H) as [st [Hopt [Hval _]]].
  destruct (Parse_options_inv stod _ _ _ _ Hopt) as [st0 [Hsetup Hrun]].
  destruct (run_switch_cuda_pools stod _ _ _ Hrun) as [pools [Hpools Heq]].
  destruct (Parse_setup_unchanged _ _ _ Hsetup) as [Hc0 _].
  destruct (Parse_validate_result _ _ Hval) as [Hc1 _].
  exists pools. split; [exact Hpools |].
  rewrite Hc1, Heq, Hc0. reflexivity.
Qed.

(** C7.  After a parse without exception: when the control mode of the
    result is not "poll" the repository poll interval is zero, whatever
    the poll-interval flags supplied; when it is "poll" the interval is
    the value of the last poll-interval flag, or the initial value when
    there is none. *)
Theorem Parse_poll_interval (argv : list string)
    (p : TritonServerParameters) (rest : list string) :
  Parse stod getenv lparams0 argv = Ok (p, rest) ->
  (control_mode_ p <> TRITONSERVER_MODEL_CONTROL_POLL ->
   repository_poll_secs_ p = 0)
  /\ (control_mode_ p = TRITONSERVER_MODEL_CONTROL_POLL ->
      exists values,
        Forall2 (fun optarg v => ParseOption_int optarg = Ok v)
                (arguments_of OPTION_POLL_REPO_SECS
                              (scanned_options (tl argv)))
                values
        /\ repository_poll_secs_ p
           = last values (repository_poll_secs_ lparams0)).
Proof.
  intros H.
  destruct (Parse_inv stod _ _ _ _ _ H) as [st [Hopt [Hval _]]].
  destruct (Parse_options_inv stod _ _ _ _ Hopt) as [st0 [Hsetup Hrun]].
  destruct (run_switch_poll_secs stod _ _ _ Hrun) as [values [Hvalues Heq]].
  destruct (Parse_setup_unchanged _ _ _ Hsetup) as [_ [Hp0 _]].
  destruct (Parse_validate_result _ _ Hval) as [_ [Hmode [Hpoll _]]].
  rewrite Hmode, Hpoll. split.
  - intros Hnot. destruct (control_mode_ (lparams st));
      [reflexivity | contradiction Hnot; reflexivity | reflexivity].
  - intros Hpollmode. rewrite Hpollmode. exists values.
    split; [exact Hvalues |]. rewrite Heq, Hp0. reflexivity.
Qed.

(** C8.  Let the cache-size flag and the cache-config flag be
    "supplied" when the scanner dispatches them.  If both are supplied,
    [Parse] throws, and when the option loop itself ends without
    exception what it throws is [ParseException] with the message that
    names [--response-cache-byte-size] and [--cache-config].  When the
    option loop ends without exception and exactly one of the two is
    supplied, [Parse] returns parameters with the cache enabled; when
    neither is, it returns parameters with the cache disabled. *)
Theorem Parse_cache_flags (argv : list string) :
  let options := scanned_options (tl argv) in
  let size_flag := supplied OPTION_RESPONSE_CACHE_BYTE_SIZE options in
  let config_flag := supplied OPTION_CACHE_CONFIG options in
  (size_flag = true -> config_flag = true ->
   (exists e, Parse stod getenv lparams0 argv = Throw e)
   /\ forall st,
       Parse_options stod getenv lparams0 argv = Ok st ->
       Parse stod getenv lparams0 argv
       = Throw (ParseException IncompatibleCacheFlags))
  /\ (forall st,
         Parse_options stod getenv lparams0 argv = Ok st ->
         xorb size_flag config_flag = true ->
         exists p, Parse stod getenv lparams0 argv = Ok (p, [])
                   /\ enable_cache_ p = true)
  /\ (forall st,
         Parse_options stod getenv lparams0 argv = Ok st ->
         size_flag = false -> config_flag = false ->
         exists p, Parse stod getenv lparams0 argv = Ok (p, [])
                   /\ enable_cache_ p = false)
  /\ index 0 "--response-cache-byte-size" (what IncompatibleCacheFlags)
     <> None
  /\ index 0 "--cache-config" (what IncompatibleCacheFlags) <> None
  /\ find_longopt "response-cache-byte-size" recognized_options_
     = Some (mkOption OPTION_RESPONSE_CACHE_BYTE_SIZE
                      "response-cache-byte-size" ArgInt)
  /\ find_longopt "cache-config" recognized_options_
     = Some (mkOption OPTION_CACHE_CONFIG "cache-config"
                      (ArgCustom "<string>,<string>=<string>")).
Proof.
  intros options size_flag config_flag.
  assert (Hscan :
            forall st,
              Parse_options stod getenv lparams0 argv = Ok st ->
              cache_size_present st = size_flag
              /\ cache_config_present st = config_flag
              /\ Parse stod getenv lparams0 argv
                 = (p <- Parse_validate st ;; Ok (p, []))).
  { intros st Hopt.
    destruct (Parse_options_inv stod _ _ _ _ Hopt) as [st0 [Hsetup Hrun]].
    destruct (run_switch_cache_present stod _ _ _ Hrun) as [Hsize Hconfig].
    destruct (Parse_setup_unchanged _ _ _ Hsetup) as [_ [_ [Hs0 Hc0]]].
    rewrite Hs0 in Hsize. rewrite Hc0 in Hconfig.
    split; [exact Hsize | split; [exact Hconfig |]].
    unfold Parse. rewrite Hopt. reflexivity. }
  assert (Hboth :
            forall st,
              Parse_options stod getenv lparams0 argv = Ok st ->
              size_flag = true -> config_flag = true ->
              Parse stod getenv lparams0 argv
              = Throw (ParseException IncompatibleCacheFlags)).
  { intros st Hopt Hs Hc.
    destruct (Hscan st Hopt) as [Hsize [Hconfig Hparse]].
    rewrite Hparse. unfold Parse_validate. rewrite Hsize, Hconfig, Hs, Hc.
    reflexivity. }
  split; [| split; [| split; [| split; [| split; [| split]]]]].
  - intros Hs Hc. split.
    + destruct (Parse_options stod getenv lparams0 argv) as [st | e] eqn:E.
      * exists (ParseException IncompatibleCacheFlags).
        apply (Hboth st); [reflexivity | exact Hs | exact Hc].
      * exists e. unfold Parse. rewrite E. reflexivity.
    + intros st Hopt. apply (Hboth st); assumption.
  - intros st Hopt Hx.
    destruct (Hscan st Hopt) as [Hsize [Hconfig Hparse]].
    destruct (Parse_validate st) as [p | e] eqn:E.
    + exists p. split; [rewrite Hparse; reflexivity |].
      destruct (Parse_validate_result _ _ E) as [_ [_ [_ Hen]]].
      rewrite Hen, Hsize, Hconfig.
      destruct size_flag, config_flag; try reflexivity; discriminate Hx.
    + exfalso. unfold Parse_validate in E. rewrite Hsize, Hconfig in E.
      destruct size_flag, config_flag; try discriminate Hx; discriminate E.
  - intros st Hopt Hs Hc.
    destruct (Hscan st Hopt) as [Hsize [Hconfig Hparse]].
    destruct (Parse_validate st) as [p | e] eqn:E.
    + exists p. split; [rewrite Hparse; reflexivity |].
      destruct (Parse_validate_result _ _ E) as [_ [_ [_ Hen]]].
      rewrite Hen, Hsize, Hconfig, Hs, Hc. reflexivity.
    + exfalso. unfold Parse_validate in E. rewrite Hsize, Hconfig in E.
      rewrite Hs, Hc in E. discriminate E.
  - discriminate.
  - discriminate.
  - reflexivity.
  - reflexivity.
Qed.

End ParseProperties.

(** ** The scanner on a flag that takes an argument *)

Lemma getopt_long_inline (name optarg : string) (following : list string)
    (o : Option) :
  contains "=" name = false ->
  size name < 2 ^ 31 ->
  find_longopt name recognized_options_ = Some o ->
  has_arg_ o = true ->
  getopt_long ("--" ++ name ++ "=" ++ optarg) following recognized_options_
  = Ok (getopt_val (id_ o) optarg false).
Proof.
  intros Hname Hsize Hfind Harg.
  pose proof (size_nonneg name) as Hn0. rewrite two_31_value in Hsize.
  unfold getopt_long.
  change ("--" ++ name ++ "=" ++ optarg)
    with (("--" ++ name) ++ String "=" optarg).
  rewrite (find_first "=" ("--" ++ name) optarg) by exact Hname.
  assert (Hsz : size ("--" ++ name) = 2 + size name).
  { rewrite size_append. reflexivity. }
  rewrite Hsz.
  replace (2 + size name =? npos) with false
    by (symmetry; apply Z.eqb_neq; rewrite npos_value; lia).
  replace (2 + size name - 2) with (size name) by lia.
  rewrite to_size_t_small by (rewrite two_64_value; lia).
  replace (substr (("--" ++ name) ++ String "=" optarg) 2 (size name))
    with (Ok name).
  2:{ rewrite append_assoc. symmetry.
      apply (substr_middle "--" name (String "=" optarg)). }
  cbn [bind]. rewrite Hfind, Harg.
  replace (substring (Z.to_nat (2 + size name + 1))
             (String.length (("--" ++ name) ++ String "=" optarg))
             (("--" ++ name) ++ String "=" optarg))
    with optarg; [reflexivity |].
  rewrite (append_String ("--" ++ name) "=" optarg).
  replace (Z.to_nat (2 + size name + 1))
    with (String.length (("--" ++ name) ++ String "=" "") + 0)%nat.
  2:{ rewrite !length_append. unfold size. cbn [String.length]. lia. }
  rewrite substring_skip, substring_whole; [reflexivity |].
  rewrite length_append. lia.
Qed.

Lemma getopt_long_separate (name optarg : string) (following : list string)
    (o : Option) :
  contains "=" name = false ->
  size name < 2 ^ 31 ->
  find_longopt name recognized_options_ = Some o ->
  has_arg_ o = true ->
  getopt_long ("--" ++ name) (optarg :: following) recognized_options_
  = Ok (getopt_val (id_ o) optarg true).
Proof.
  intros Hname Hsize Hfind Harg.
  pose proof (size_nonneg name) as Hn0. rewrite two_31_value in Hsize.
  unfold getopt_long.
  rewrite (find_absent "=" ("--" ++ name) 0) by exact Hname.
  rewrite Z.eqb_refl.
  replace (substr ("--" ++ name) 2 npos) with (Ok name).
  2:{ symmetry. apply (substr_suffix "--" name npos).
      rewrite npos_value. lia. }
  cbn [bind]. rewrite Hfind, Harg. reflexivity.
Qed.

Section SslProperties.

Context {double : Type} (stod : string -> Result double).

(** C10.  Whatever the state the option loop is in, the flag
    [--grpc-use-ssl-mutual] with an argument that [ParseOption<bool>]
    reads as [v] sets [use_mutual_auth_] to [v] and [use_ssl_] to
    [true], and the loop goes on from that state; this holds for the
    argument attached with [=] and for the argument in the next token. *)
Theorem grpc_use_ssl_mutual_forces_ssl (optarg : string) (v : bool)
    (st : ParseState) (following : list string) :
  ParseOption_bool optarg = Ok v ->
  exists st',
    Parse_switch stod OPTION_GRPC_USE_SSL_MUTUAL optarg st = Ok st'
    /\ use_mutual_auth_ (ssl_ (grpc_options_ (lparams st'))) = v
    /\ use_ssl_ (ssl_ (grpc_options_ (lparams st'))) = true
    /\ Parse_loop stod (("--grpc-use-ssl-mutual=" ++ optarg) :: following) st
       = Parse_loop stod following st'
    /\ Parse_loop stod ("--grpc-use-ssl-mutual" :: optarg :: following) st
       = Parse_loop stod following st'.
Proof.
  intros Hv.
  assert (Hswitch :
            Parse_switch stod OPTION_GRPC_USE_SSL_MUTUAL optarg st
            = Ok (set_lparams
                    (set_grpc_options_
                       (set_ssl_
                          (set_use_ssl_ true
                             (set_use_mutual_auth_ v
                                (ssl_ (grpc_options_ (lparams st)))))
                          (grpc_options_ (lparams st)))
                       (lparams st)) st)).
  { cbv beta iota zeta delta [Parse_switch]. rewrite Hv. reflexivity. }
  eexists. split; [exact Hswitch |].
  split; [| split; [| split]].
  - destruct st as [p ? ? ? ?]. destruct p as
        [? ? ? ? ? ? ? ? ? ? ? [sock [ssl mutual]] ? ? ? ? ? ? ? ? ? ? ? ? ?].
    reflexivity.
  - destruct st as [p ? ? ? ?]. destruct p as
        [? ? ? ? ? ? ? ? ? ? ? [sock [ssl mutual]] ? ? ? ? ? ? ? ? ? ? ? ? ?].
    reflexivity.
  - rewrite Parse_loop_cons.
    change ("--grpc-use-ssl-mutual=" ++ optarg)
      with ("--" ++ "grpc-use-ssl-mutual" ++ "=" ++ optarg).
    rewrite (getopt_long_inline "grpc-use-ssl-mutual" optarg following
               (mkOption OPTION_GRPC_USE_SSL_MUTUAL "grpc-use-ssl-mutual"
                         ArgBool))
      by reflexivity.
    cbn [bind id_]. rewrite Hswitch. reflexivity.
  - rewrite Parse_loop_cons.
    change "--grpc-use-ssl-mutual" with ("--" ++ "grpc-use-ssl-mutual").
    rewrite (getopt_long_separate "grpc-use-ssl-mutual" optarg following
               (mkOption OPTION_GRPC_USE_SSL_MUTUAL "grpc-use-ssl-mutual"
                         ArgBool))
      by reflexivity.
    cbn [bind id_]. rewrite Hswitch. reflexivity.
Qed.

End SslProperties.

(** ** The port-collision check *)

(** *** The loops as a run over the visited pairs *)

Lemma run_at_app (body : nat -> PortEntry -> nat -> PortEntry -> Result unit)
    (ports : list PortEntry) (l1 l2 : list (nat * nat)) :
  run_at body ports (l1 ++ l2)
  = (_ <- run_at body ports l1 ;; run_at body ports l2).
Proof.
  induction l1 as [| [i j] l1 IH]; [reflexivity |].
  cbn [app run_at]. rewrite IH.
  destruct (match nth_error ports i, nth_error ports j with
            | Some curr, Some comparing => body i curr j comparing
            | _, _ => Ok tt
            end) as [[] | e]; reflexivity.
Qed.

Lemma inner_loop_run_at
    (body : nat -> PortEntry -> nat -> PortEntry -> Result unit)
    (ports : list PortEntry) (curr_it : nat) (curr : PortEntry) :
  nth_error ports curr_it = Some curr ->
  forall (rest : list PortEntry) (comparing_it : nat),
    (forall m, nth_error rest m = nth_error ports (comparing_it + m)) ->
    inner_loop body curr_it curr comparing_it rest
    = run_at body ports
        (map (pair curr_it)
             (filter (fun k => negb (k =? curr_it)%nat)
                     (seq comparing_it (List.length rest)))).
Proof.
  intros Hcurr. induction rest as [| comparing rest IH];
    intros comparing_it Hrest; [reflexivity |].
  cbn [inner_loop List.length seq filter].
  assert (Hrest' : forall m,
             nth_error rest m = nth_error ports (S comparing_it + m)).
  { intros m. pose proof (Hrest (S m)) as Hm. cbn [nth_error] in Hm.
    rewrite Hm. f_equal. lia. }
  destruct (comparing_it =? curr_it)%nat; cbn [negb].
  - apply IH. exact Hrest'.
  - cbn [map run_at]. rewrite Hcurr.
    pose proof (Hrest 0%nat) as H0. cbn [nth_error] in H0.
    rewrite Nat.add_0_r in H0. rewrite <- H0.
    rewrite (IH (S comparing_it) Hrest'). reflexivity.
Qed.

Lemma comparisons_from (ports : list PortEntry) (curr_it len : nat) :
  flat_map
    (fun curr_it =>
       match nth_error ports curr_it with
       | Some curr =>
           map (pair curr_it)
               (comparing_positions (List.length ports) curr_it
                                    (has_range curr))
       | None => []
       end)
    (seq curr_it (S len))
  = (match nth_error ports curr_it with
     | Some curr =>
         map (pair curr_it)
             (comparing_positions (List.length ports) curr_it
                                  (has_range curr))
     | None => []
     end
     ++ flat_map
          (fun curr_it =>
             match nth_error ports curr_it with
             | Some curr =>
                 map (pair curr_it)
                     (comparing_positions (List.length ports) curr_it
                                          (has_range curr))
             | None => []
             end)
          (seq (S curr_it) len))%list.
Proof. reflexivity. Qed.

Lemma outer_loop_run_at
    (body : nat -> PortEntry -> nat -> PortEntry -> Result unit)
    (ports : list PortEntry) :
  forall (rest : list PortEntry) (curr_it : nat),
    (forall m, nth_error rest m = nth_error ports (curr_it + m)) ->
    outer_loop body ports curr_it rest
    = run_at body ports
        (flat_map
           (fun curr_it =>
              match nth_error ports curr_it with
              | Some curr =>
                  map (pair curr_it)
                      (comparing_positions (List.length ports) curr_it
                                           (has_range curr))
              | None => []
              end)
           (seq curr_it (List.length rest))).
Proof.
  induction rest as [| curr rest IH]; intros curr_it Hrest; [reflexivity |].
  assert (Hcurr : nth_error ports curr_it = Some curr).
  { pose proof (Hrest 0%nat) as H0. cbn [nth_error] in H0.
    rewrite Nat.add_0_r in H0. symmetry. exact H0. }
  assert (Hrest' : forall m,
             nth_error rest m = nth_error ports (S curr_it + m)).
  { intros m. pose proof (Hrest (S m)) as Hm. cbn [nth_error] in Hm.
    rewrite Hm. f_equal. lia. }
  cbn [outer_loop List.length]. rewrite comparisons_from, Hcurr, run_at_app.
  rewrite (IH (S curr_it) Hrest').
  rewrite (inner_loop_run_at body ports curr_it curr Hcurr).
  - unfold comparing_positions. rewrite length_skipn. reflexivity.
  - intros m. apply nth_error_skipn.
Qed.

(** The loops run their body at the pairs of [comparisons], in that
    order, and stop at the first that throws. *)
Lemma loops_run_at_comparisons
    (body : nat -> PortEntry -> nat -> PortEntry -> Result unit)
    (ports : list PortEntry) :
  outer_loop body ports 0 ports = run_at body ports (comparisons ports).
Proof. apply outer_loop_run_at. intros m. reflexivity. Qed.

(** *** Which pairs are visited *)

Lemma in_comparing_positions (n curr_it : nat) (curr_has_range : bool)
    (j : nat) :
  (curr_it < n)%nat ->
  In j (comparing_positions n curr_it curr_has_range)
  <-> (j < n)%nat /\ j <> curr_it
      /\ (curr_has_range = true \/ (curr_it < j)%nat).
Proof.
  intros Hlt. unfold comparing_positions.
  rewrite filter_In, in_seq, negb_true_iff, Nat.eqb_neq.
  destruct curr_has_range.
  - split.
    + intros [[_ Hj] Hne]. repeat split; [lia | exact Hne | left; reflexivity].
    + intros [Hj [Hne _]]. repeat split; [lia | lia | exact Hne].
  - split.
    + intros [[Hlo Hhi] Hne]. repeat split; [lia | exact Hne | right; lia].
    + intros [Hj [Hne [Habs | Hgt]]]; [discriminate Habs |].
      repeat split; [lia | lia | exact Hne].
Qed.

Lemma in_comparisons (ports : list PortEntry) (i j : nat) :
  In (i, j) (comparisons ports)
  <-> exists curr,
      nth_error ports i = Some curr
      /\ (j < List.length ports)%nat /\ j <> i
      /\ (has_range curr = true \/ (i < j)%nat).
Proof.
  unfold comparisons. rewrite in_flat_map. split.
  - intros [curr_it [Hin Hpair]]. apply in_seq in Hin.
    destruct (nth_error ports curr_it) as [curr |] eqn:E; [| contradiction].
    apply in_map_iff in Hpair. destruct Hpair as [k [Heq Hk]].
    injection Heq as -> ->.
    apply in_comparing_positions in Hk; [| lia].
    exists curr. split; [exact E | exact Hk].
  - intros [curr [E Hj]].
    assert (Hi : (i < List.length ports)%nat)
      by (apply nth_error_Some; rewrite E; discriminate).
    exists i. split; [apply in_seq; lia |]. rewrite E.
    apply in_map. apply in_comparing_positions; assumption.
Qed.

Lemma NoDup_comparisons (ports : list PortEntry) : NoDup (comparisons ports).
Proof.
  unfold comparisons. generalize (List.length ports) at 2 as n.
  generalize 0%nat as start. intros start n. revert start.
  induction n as [| n IH]; intros start; [constructor |].
  cbn [seq flat_map]. apply NoDup_app.
  - destruct (nth_error ports start) as [curr |]; [| constructor].
    apply Finite.Injective_map_NoDup.
    + intros x y Heq. injection Heq as ->. reflexivity.
    + unfold comparing_positions. apply NoDup_filter, seq_NoDup.
  - apply IH.
  - intros [i j] Hin1 Hin2.
    destruct (nth_error ports start) as [curr |]; [| contradiction].
    apply in_map_iff in Hin1. destruct Hin1 as [k [Heq _]].
    injection Heq as <- _.
    apply in_flat_map in Hin2. destruct Hin2 as [c [Hc Hin2]].
    apply in_seq in Hc.
    destruct (nth_error ports c) as [curr' |]; [| contradiction].
    apply in_map_iff in Hin2. destruct Hin2 as [k' [Heq' _]].
    injection Heq' as -> _. lia.
Qed.

Lemma times_visited_spec (ports : list PortEntry) (i j : nat) :
  (In (i, j) (comparisons ports) -> times_visited ports i j = 1%nat)
  /\ (~ In (i, j) (comparisons ports) -> times_visited ports i j = 0%nat).
Proof.
  unfold times_visited. split.
  - apply NoDup_count_occ'. apply NoDup_comparisons.
  - apply count_occ_not_In.
Qed.

(** *** One comparison *)

Lemma eqb_string_sym (a b : string) : (a == b) = (b == a).
Proof.
  destruct (String.eqb_spec a b) as [-> | Hne].
  - symmetry. apply String.eqb_refl.
  - symmetry. apply String.eqb_neq. congruence.
Qed.

Lemma clash_sym (a b : PortEntry) : clash a b = clash b a.
Proof.
  unfold clash, same_address_port.
  rewrite (eqb_string_sym (address a)), (Z.eqb_sym (port a)).
  destruct (range_violation a b), (range_violation b a); reflexivity.
Qed.

Lemma compare_ports_cases (curr comparing : PortEntry) :
  compare_ports curr comparing =
  if range_violation curr comparing
  then Throw (ParseException
                (PortOutOfRange (service_name comparing) (port comparing)
                                (range_min curr) (range_max curr)))
  else if same_address_port curr comparing
       then Throw (ParseException
                     (PortCollision (service_name curr)
                                    (service_name comparing)
                                    (address curr) (port curr)))
       else Ok tt.
Proof.
  unfold compare_ports, range_violation, same_address_port.
  destruct (address curr == address comparing); cbn [negb andb];
    [| reflexivity].
  destruct (has_range curr); cbn [andb]; reflexivity.
Qed.

Lemma compare_ports_Ok (curr comparing : PortEntry) :
  compare_ports curr comparing = Ok tt
  <-> range_violation curr comparing = false
      /\ same_address_port curr comparing = false.
Proof.
  rewrite compare_ports_cases.
  destruct (range_violation curr comparing),
    (same_address_port curr comparing); split;
    solve [ intros H; discriminate H
          | intros [H1 H2]; discriminate
          | intros _; split; reflexivity
          | reflexivity ].
Qed.

(** *** When a run succeeds, and what a failed run throws *)

Lemma run_at_Ok (body : nat -> PortEntry -> nat -> PortEntry -> Result unit)
    (ports : list PortEntry) (pairs : list (nat * nat)) :
  run_at body ports pairs = Ok tt
  <-> forall i j curr comparing,
      In (i, j) pairs ->
      nth_error ports i = Some curr ->
      nth_error ports j = Some comparing ->
      body i curr j comparing = Ok tt.
Proof.
  induction pairs as [| [i j] pairs IH]; cbn [run_at].
  - split; [intros _ ? ? ? ? [] | reflexivity].
  - split.
    + intros H i' j' curr comparing [Heq | Hin] Hi Hj.
      * injection Heq as <- <-. rewrite Hi, Hj in H.
        destruct (body i curr j comparing) as [[] | e];
          [reflexivity | discriminate H].
      * destruct (match nth_error ports i, nth_error ports j with
                  | Some curr, Some comparing => body i curr j comparing
                  | _, _ => Ok tt
                  end) as [[] | e]; [| discriminate H].
        cbn [bind] in H. apply (proj1 IH H i' j'); assumption.
    + intros H.
      assert (Hhead : match nth_error ports i, nth_error ports j with
                      | Some curr, Some comparing => body i curr j comparing
                      | _, _ => Ok tt
                      end = Ok tt).
      { destruct (nth_error ports i) as [curr |] eqn:Ei; [| reflexivity].
        destruct (nth_error ports j) as [comparing |] eqn:Ej;
          [| reflexivity].
        apply (H i j); [left; reflexivity | exact Ei | exact Ej]. }
      rewrite Hhead. cbn [bind]. apply IH.
      intros i' j' curr comparing Hin. apply H. right. exact Hin.
Qed.

Lemma run_at_Throw (body : nat -> PortEntry -> nat -> PortEntry -> Result unit)
    (ports : list PortEntry) (pairs : list (nat * nat)) (e : exception) :
  run_at body ports pairs = Throw e ->
  exists i j curr comparing,
    In (i, j) pairs
    /\ nth_error ports i = Some curr
    /\ nth_error ports j = Some comparing
    /\ body i curr j comparing = Throw e.
Proof.
  induction pairs as [| [i j] pairs IH]; cbn [run_at]; [discriminate |].
  intros H.
  destruct (nth_error ports i) as [curr |] eqn:Ei.
  - destruct (nth_error ports j) as [comparing |] eqn:Ej.
    + destruct (body i curr j comparing) as [[] | e'] eqn:Eb.
      * cbn [bind] in H. destruct (IH H) as (i' & j' & c & c' & Hin & Hrest).
        exists i', j', c, c'. split; [right; exact Hin | exact Hrest].
      * cbn [bind] in H. injection H as ->.
        exists i, j, curr, comparing.
        repeat split; [left; reflexivity | exact Ei | exact Ej | exact Eb].
    + cbn [bind] in H. destruct (IH H) as (i' & j' & c & c' & Hin & Hrest).
      exists i', j', c, c'. split; [right; exact Hin | exact Hrest].
  - cbn [bind] in H. destruct (IH H) as (i' & j' & c & c' & Hin & Hrest).
    exists i', j', c, c'. split; [right; exact Hin | exact Hrest].
Qed.

Lemma check_ports_run_at (ports : list PortEntry) :
  check_ports ports
  = run_at (fun _ curr _ comparing => compare_ports curr comparing)
           ports (comparisons ports).
Proof. apply loops_run_at_comparisons. Qed.

(** The run that throws stops at the first pair whose body throws: the
    pairs before it have run without exception. *)
Lemma run_at_first_Throw
    (body : nat -> PortEntry -> nat -> PortEntry -> Result unit)
    (ports : list PortEntry) (pairs : list (nat * nat)) (e : exception) :
  run_at body ports pairs = Throw e
  <-> exists before i j after curr comparing,
      pairs = (before ++ (i, j) :: after)%list
      /\ run_at body ports before = Ok tt
      /\ nth_error ports i = Some curr
      /\ nth_error ports j = Some comparing
      /\ body i curr j comparing = Throw e.
Proof.
  split.
  - induction pairs as [| [i j] pairs IH]; cbn [run_at]; [discriminate |].
    intros H.
    destruct (match nth_error ports i, nth_error ports j with
              | Some curr, Some comparing => body i curr j comparing
              | _, _ => Ok tt
              end) as [[] | e'] eqn:Ehead; cbn [bind] in H.
    + destruct (IH H)
        as (before & i' & j' & after & c & c' & -> & Hbefore & Hrest).
      exists ((i, j) :: before), i', j', after, c, c'.
      split; [reflexivity |]. split; [| exact Hrest].
      cbn [run_at]. rewrite Ehead. exact Hbefore.
    + injection H as ->.
      destruct (nth_error ports i) as [curr |] eqn:Ei; [| discriminate Ehead].
      destruct (nth_error ports j) as [comparing |] eqn:Ej;
        [| discriminate Ehead].
      exists [], i, j, pairs, curr, comparing.
      repeat split; assumption.
  - intros (before & i & j & after & curr & comparing
            & -> & Hbefore & Hi & Hj & Hbody).
    rewrite run_at_app, Hbefore. cbn [bind run_at].
    rewrite Hi, Hj, Hbody. reflexivity.
Qed.

(** What a failing check throws: the exception of the first comparison,
    in the order of [comparisons], that finds the compared entry's port
    outside the current entry's range or, that not being so, equal to
    the current entry's port. *)
Lemma check_ports_first_Throw (ports : list PortEntry) (e : exception) :
  check_ports ports = Throw e
  <-> exists before i j after curr comparing,
      comparisons ports = (before ++ (i, j) :: after)%list
      /\ nth_error ports i = Some curr
      /\ nth_error ports j = Some comparing
      /\ (forall i' j' a b,
             In (i', j') before ->
             nth_error ports i' = Some a ->
             nth_error ports j' = Some b ->
             range_violation a b = false /\ same_address_port a b = false)
      /\ ((range_violation curr comparing = true
           /\ e = ParseException
                    (PortOutOfRange (service_name comparing) (port comparing)
                                    (range_min curr) (range_max curr)))
          \/ (range_violation curr comparing = false
              /\ same_address_port curr comparing = true
              /\ e = ParseException
                       (PortCollision (service_name curr)
                                      (service_name comparing)
                                      (address curr) (port curr)))).
Proof.
  rewrite check_ports_run_at, run_at_first_Throw.
  split.
  - intros (before & i & j & after & curr & comparing
            & Heq & Hbefore & Hi & Hj & Hbody).
    exists before, i, j, after, curr, comparing.
    split; [exact Heq |]. split; [exact Hi |]. split; [exact Hj |].
    split.
    + intros i' j' a b Hin Ha Hb. apply compare_ports_Ok.
      exact (proj1 (run_at_Ok _ ports before) Hbefore i' j' a b Hin Ha Hb).
    + rewrite compare_ports_cases in Hbody.
      destruct (range_violation curr comparing).
      * left. injection Hbody as <-. split; reflexivity.
      * destruct (same_address_port curr comparing); [| discriminate Hbody].
        right. injection Hbody as <-. repeat split; reflexivity.
  - intros (before & i & j & after & curr & comparing
            & Heq & Hi & Hj & Hbefore & Hbody).
    exists before, i, j, after, curr, comparing.
    split; [exact Heq |]. split.
    + apply run_at_Ok. intros i' j' a b Hin Ha Hb.
      apply compare_ports_Ok. exact (Hbefore i' j' a b Hin Ha Hb).
    + split; [exact Hi |]. split; [exact Hj |].
      rewrite compare_ports_cases.
      destruct Hbody as [[Hr ->] | (Hr & Hs & ->)]; rewrite Hr;
        [reflexivity |].
      rewrite Hs. reflexivity.
Qed.

(** The check succeeds exactly when no two entries at different
    positions clash. *)
Lemma check_ports_Ok (ports : list PortEntry) :
  check_ports ports = Ok tt
  <-> forall i j a b,
      i <> j -> nth_error ports i = Some a -> nth_error ports j = Some b ->
      clash a b = false.
Proof.
  rewrite check_ports_run_at, run_at_Ok. split.
  - intros H.
    assert (Hlt : forall i j a b,
               (i < j)%nat -> nth_error ports i = Some a ->
               nth_error ports j = Some b -> clash a b = false).
    { intros i j a b Hij Hi Hj.
      assert (Hjn : (j < List.length ports)%nat)
        by (apply nth_error_Some; rewrite Hj; discriminate).
      assert (Hin : (i < List.length ports)%nat) by lia.
      assert (Hab : compare_ports a b = Ok tt).
      { apply (H i j a b); [| exact Hi | exact Hj].
        apply in_comparisons. exists a.
        repeat split; [exact Hi | exact Hjn | lia | right; exact Hij]. }
      apply compare_ports_Ok in Hab. destruct Hab as [Hr Hs].
      unfold clash. rewrite Hr, Hs, orb_false_r. cbn [orb].
      destruct (has_range b) eqn:Eb.
      - assert (Hba : compare_ports b a = Ok tt).
        { apply (H j i b a); [| exact Hj | exact Hi].
          apply in_comparisons. exists b.
          repeat split; [exact Hj | exact Hin | lia | left; exact Eb]. }
        apply compare_ports_Ok in Hba. apply Hba.
      - unfold range_violation. rewrite Eb, andb_false_r. reflexivity. }
    intros i j a b Hne Hi Hj.
    destruct (Nat.lt_ge_cases i j) as [Hij | Hji].
    + apply (Hlt i j); assumption.
    + rewrite clash_sym. apply (Hlt j i); [lia | assumption | assumption].
  - intros H i j curr comparing Hin Hi Hj.
    apply in_comparisons in Hin. destruct Hin as [c [_ [_ [Hne _]]]].
    assert (Hc : clash curr comparing = false)
      by (apply (H i j); [congruence | exact Hi | exact Hj]).
    unfold clash in Hc. apply orb_false_iff in Hc. destruct Hc as [Hc Hs].
    apply orb_false_iff in Hc. destruct Hc as [Hr _].
    apply compare_ports_Ok. split; assumption.
Qed.

(** A failed check throws what one comparison of two entries at
    different positions throws. *)
Lemma check_ports_Throw (ports : list PortEntry) (e : exception) :
  check_ports ports = Throw e ->
  exists i j curr comparing,
    i <> j
    /\ nth_error ports i = Some curr
    /\ nth_error ports j = Some comparing
    /\ ((range_violation curr comparing = true
         /\ e = ParseException
                  (PortOutOfRange (service_name comparing) (port comparing)
                                  (range_min curr) (range_max curr)))
        \/ (same_address_port curr comparing = true
            /\ e = ParseException
                     (PortCollision (service_name curr)
                                    (service_name comparing)
                                    (address curr) (port curr)))).
Proof.
  rewrite check_ports_run_at. intros H.
  destruct (run_at_Throw _ _ _ _ H)
    as (i & j & curr & comparing & Hin & Hi & Hj & Hb).
  apply in_comparisons in Hin. destruct Hin as [c [_ [_ [Hne _]]]].
  exists i, j, curr, comparing.
  repeat split; [congruence | exact Hi | exact Hj |].
  rewrite compare_ports_cases in Hb.
  destruct (range_violation curr comparing).
  - left. split; [reflexivity |]. injection Hb as <-. reflexivity.
  - destruct (same_address_port curr comparing); [| discriminate Hb].
    right. split; [reflexivity |]. injection Hb as <-. reflexivity.
Qed.

(** *** Pairs of positions and pairs of entries *)

Lemma ForallOrdPairs_nth_error {A : Type} (R : A -> A -> Prop) (l : list A) :
  ForallOrdPairs R l
  <-> forall i j a b,
      (i < j)%nat -> nth_error l i = Some a -> nth_error l j = Some b ->
      R a b.
Proof.
  induction l as [| x l IH].
  - split; [| constructor].
    intros _ i j a b _ Hi. destruct i; discriminate Hi.
  - split.
    + intros H. inversion H as [| ? ? Hall Hrest]; subst.
      intros i j a b Hij Hi Hj. destruct j as [| j]; [lia |].
      cbn [nth_error] in Hj. destruct i as [| i].
      * injection Hi as <-. rewrite Forall_forall in Hall.
        apply Hall. apply (nth_error_In _ _ Hj).
      * cbn [nth_error] in Hi.
        apply (proj1 IH Hrest i j); [lia | exact Hi | exact Hj].
    + intros H. constructor.
      * apply Forall_forall. intros b Hb.
        destruct (In_nth_error _ _ Hb) as [j Hj].
        apply (H 0%nat (S j)); [lia | reflexivity | exact Hj].
      * apply IH. intros i j a b Hij Hi Hj.
        apply (H (S i) (S j)); [lia | exact Hi | exact Hj].
Qed.

Lemma ForallOrdPairs_Permutation {A : Type} (R : A -> A -> Prop)
    (l l' : list A) :
  (forall a b, R a b -> R b a) ->
  Permutation l l' -> ForallOrdPairs R l -> ForallOrdPairs R l'.
Proof.
  intros Hsym Hperm. induction Hperm as [| x l l' Hperm IH | x y l | ]; intros H.
  - exact H.
  - inversion H as [| ? ? Hall Hrest]; subst. constructor.
    + apply (Permutation_Forall Hperm). exact Hall.
    + apply IH. exact Hrest.
  - inversion H as [| ? ? Hally Hrest]; subst.
    inversion Hrest as [| ? ? Hallx Hrest']; subst.
    inversion Hally as [| ? ? Hyx Hally']; subst.
    constructor; [constructor |].
    + apply Hsym. exact Hyx.
    + exact Hallx.
    + constructor; assumption.
  - auto.
Qed.

Lemma check_ports_Ok_pairs (ports : list PortEntry) :
  check_ports ports = Ok tt
  <-> ForallOrdPairs (fun a b => clash a b = false) ports.
Proof.
  rewrite check_ports_Ok, ForallOrdPairs_nth_error. split.
  - intros H i j a b Hij. apply H. lia.
  - intros H i j a b Hne Hi Hj.
    destruct (Nat.lt_ge_cases i j) as [Hij | Hji].
    + apply (H i j); assumption.
    + rewrite clash_sym. apply (H j i); [lia | assumption | assumption].
Qed.

(** *** The verdict of the check *)

Lemma check_ports_Ok_some_pair (ports : list PortEntry) :
  check_ports ports = Ok tt
  <-> ~ some_pair range_violation ports
      /\ ~ some_pair same_address_port ports.
Proof.
  rewrite check_ports_Ok. unfold some_pair. split.
  - intros H. split; intros (i & j & a & b & Hne & Hi & Hj & Hc);
      pose proof (H i j a b Hne Hi Hj) as Hclash; unfold clash in Hclash;
      rewrite Hc in Hclash; [discriminate Hclash |].
    rewrite orb_true_r in Hclash. discriminate Hclash.
  - intros [Hr Hs] i j a b Hne Hi Hj. unfold clash.
    destruct (range_violation a b) eqn:E1.
    { exfalso. apply Hr. exists i, j, a, b. auto. }
    destruct (range_violation b a) eqn:E2.
    { exfalso. apply Hr. exists j, i, b, a. auto. }
    destruct (same_address_port a b) eqn:E3; [| reflexivity].
    exfalso. apply Hs. exists i, j, a, b. auto.
Qed.

(** C1, as the code has it.  The check over the entries of the enabled
    endpoints succeeds exactly when no two of them are bound to the
    same address with the port of one outside the range the other
    declares, or with equal ports.  A check that fails throws for one
    such pair: the range message when the compared entry's port is
    outside the current entry's range, the collision message when the
    ports are equal.  When some pair violates a range and no pair shares
    address and port the check fails with the range message; when some
    pair shares address and port and no pair violates a range it fails
    with the collision message.  Which pair it is, and which of the two
    messages, is decided by the order of the code: the check is the run
    of the comparison over the pairs of [comparisons], in that order,
    and it throws [e] exactly when [e] is the exception of the first
    pair that offends, the pairs before it offending in neither way;
    at that pair the range is tested first, and the ports are tested
    for equality only when the compared port is not outside the
    range. *)
Theorem CheckPortCollision_verdict (p : TritonServerParameters) :
  let ports := enabled_ports p in
  (CheckPortCollision p = Ok tt
   <-> ~ some_pair range_violation ports
       /\ ~ some_pair same_address_port ports)
  /\ (forall e,
         CheckPortCollision p = Throw e ->
         exists i j curr comparing,
           i <> j
           /\ nth_error ports i = Some curr
           /\ nth_error ports j = Some comparing
           /\ ((range_violation curr comparing = true
                /\ e = ParseException
                         (PortOutOfRange (service_name comparing)
                                         (port comparing)
                                         (range_min curr) (range_max curr)))
               \/ (same_address_port curr comparing = true
                   /\ e = ParseException
                            (PortCollision (service_name curr)
                                           (service_name comparing)
                                           (address curr) (port curr)))))
  /\ (some_pair range_violation ports ->
      ~ some_pair same_address_port ports ->
      exists e, CheckPortCollision p = Throw e
                /\ is_range_violation e = true)
  /\ (some_pair same_address_port ports ->
      ~ some_pair range_violation ports ->
      exists e, CheckPortCollision p = Throw e
                /\ is_port_conflict e = true)
  /\ CheckPortCollision p
     = run_at (fun _ curr _ comparing => compare_ports curr comparing)
              ports (comparisons ports)
  /\ (forall e,
         CheckPortCollision p = Throw e
         <-> exists before i j after curr comparing,
             comparisons ports = (before ++ (i, j) :: after)%list
             /\ nth_error ports i = Some curr
             /\ nth_error ports j = Some comparing
             /\ (forall i' j' a b,
                    In (i', j') before ->
                    nth_error ports i' = Some a ->
                    nth_error ports j' = Some b ->
                    range_violation a b = false
                    /\ same_address_port a b = false)
             /\ ((range_violation curr comparing = true
                  /\ e = ParseException
                           (PortOutOfRange (service_name comparing)
                                           (port comparing)
                                           (range_min curr) (range_max curr)))
                 \/ (range_violation curr comparing = false
                     /\ same_address_port curr comparing = true
                     /\ e = ParseException
                              (PortCollision (service_name curr)
                                             (service_name comparing)
                                             (address curr) (port curr))))).
Proof.
  intros ports. unfold CheckPortCollision. fold ports.
  split; [apply check_ports_Ok_some_pair |].
  split; [intros e; apply check_ports_Throw |].
  split; [| split; [| split;
                      [apply check_ports_run_at
                      | intros e; apply check_ports_first_Throw]]].
  - intros Hsome Hnone.
    destruct (check_ports ports) as [[] | e] eqn:E.
    + apply check_ports_Ok_some_pair in E. destruct E as [E _].
      contradiction.
    + exists e. split; [reflexivity |].
      destruct (check_ports_Throw _ _ E)
        as (i & j & a & b & Hne & Hi & Hj & [[_ ->] | [Hs _]]);
        [reflexivity |].
      exfalso. apply Hnone. exists i, j, a, b. auto.
  - intros Hsome Hnone.
    destruct (check_ports ports) as [[] | e] eqn:E.
    + apply check_ports_Ok_some_pair in E. destruct E as [_ E].
      contradiction.
    + exists e. split; [reflexivity |].
      destruct (check_ports_Throw _ _ E)
        as (i & j & a & b & Hne & Hi & Hj & [[Hr _] | [_ ->]]);
        [| reflexivity].
      exfalso. apply Hnone. exists i, j, a, b. auto.
Qed.

(** C2, as the code has it.  The loops hand to their body the pairs of
    [comparisons], in order; no entry is compared against itself; two
    entries at positions [i < j] are compared once with the entry at [i]
    as the current one, and once more the other way round exactly when
    the entry at [j] declares a port range; and whether the check
    succeeds does not depend on the order of the entries. *)
Theorem CheckPortCollision_pairs (ports : list PortEntry) :
  (forall body,
      outer_loop body ports 0 ports = run_at body ports (comparisons ports))
  /\ (forall i, times_visited ports i i = 0%nat)
  /\ (forall i j curr comparing,
         (i < j)%nat ->
         nth_error ports i = Some curr ->
         nth_error ports j = Some comparing ->
         times_visited ports i j = 1%nat
         /\ times_visited ports j i = (if has_range comparing then 1 else 0)%nat
         /\ times_compared ports i j
            = (if has_range comparing then 2 else 1)%nat)
  /\ (forall ports',
         Permutation ports ports' ->
         (check_ports ports = Ok tt <-> check_ports ports' = Ok tt)).
Proof.
  split; [intros body; apply loops_run_at_comparisons |].
  split; [| split].
  - intros i. apply times_visited_spec. rewrite in_comparisons.
    intros [c [_ [_ [Hne _]]]]. apply Hne. reflexivity.
  - intros i j curr comparing Hij Hi Hj.
    assert (Hjn : (j < List.length ports)%nat)
      by (apply nth_error_Some; rewrite Hj; discriminate).
    assert (Hforth : times_visited ports i j = 1%nat).
    { apply times_visited_spec. apply in_comparisons. exists curr.
      repeat split; [exact Hi | exact Hjn | lia | right; exact Hij]. }
    assert (Hback : times_visited ports j i
                    = (if has_range comparing then 1 else 0)%nat).
    { destruct (has_range comparing) eqn:E.
      - apply times_visited_spec. apply in_comparisons. exists comparing.
        repeat split; [exact Hj | lia | lia | left; exact E].
      - apply times_visited_spec. rewrite in_comparisons.
        intros [c [Hc [_ [_ [Hr | Hlt]]]]]; [| lia].
        rewrite Hj in Hc. injection Hc as <-. congruence. }
    split; [exact Hforth |]. split; [exact Hback |].
    unfold times_compared. rewrite Hforth, Hback.
    destruct (has_range comparing); reflexivity.
  - intros ports' Hperm. rewrite !check_ports_Ok_pairs. split.
    + apply ForallOrdPairs_Permutation; [| exact Hperm].
      intros a b H. rewrite clash_sym. exact H.
    + apply ForallOrdPairs_Permutation; [| apply Permutation_sym, Hperm].
      intros a b H. rewrite clash_sym. exact H.
Qed.

(** ** Closed instances *)

(** C5: the flag given twice for device 0. *)
Lemma Parse_cuda_pools_appended_witness :
  exists pools,
    Forall2 (fun optarg pool =>
               ParsePairOption ParseOption_int ParseOption_uint64_t
                               optarg ":" = Ok pool)
            ["0:10"; "0:20"] pools
    /\ [(0, 10); (0, 20)] = ([] ++ pools)%list.
Proof.
  exact (Parse_cuda_pools_appended
           sample_stod empty_environment sample_lparams
           ["tritonserver"; "--cuda-memory-pool-byte-size=0:10";
            "--cuda-memory-pool-byte-size"; "0:20"]
           (set_cuda_pools_ [(0, 10); (0, 20)]
              (set_repository_poll_secs_ 0 sample_lparams))
           [] eq_refl).
Defined.

(** Against C5 as the specification states it: after the flag is given
    twice for device 0 the list holds two entries for that device. *)
Lemma Parse_cuda_pools_repeated_device :
  exists p,
    Parse sample_stod empty_environment sample_lparams
          ["tritonserver"; "--cuda-memory-pool-byte-size=0:10";
           "--cuda-memory-pool-byte-size=0:20"]
    = Ok (p, [])
    /\ cuda_pools_ p = [(0, 10); (0, 20)]
    /\ ~ NoDup (map fst (cuda_pools_ p)).
Proof.
  eexists. split; [vm_compute; reflexivity |].
  split; [reflexivity |].
  cbn. intros H. inversion H as [| ? ? Hin _]; subst.
  apply Hin. left. reflexivity.
Qed.

(** C7: a poll interval of 30 seconds, without and with poll mode. *)
Lemma Parse_poll_interval_witness :
  (TRITONSERVER_MODEL_CONTROL_NONE <> TRITONSERVER_MODEL_CONTROL_POLL ->
   repository_poll_secs_ (set_repository_poll_secs_ 0 sample_lparams) = 0)
  /\ (TRITONSERVER_MODEL_CONTROL_POLL = TRITONSERVER_MODEL_CONTROL_POLL ->
      exists values,
        Forall2 (fun optarg v => ParseOption_int optarg = Ok v) ["30"] values
        /\ 30 = last values 15).
Proof.
  split.
  - exact (proj1 (Parse_poll_interval
                    sample_stod empty_environment sample_lparams
                    ["tritonserver"; "--repository-poll-secs=30"]
                    (set_repository_poll_secs_ 0 sample_lparams) []
                    eq_refl)).
  - exact (proj2 (Parse_poll_interval
                    sample_stod empty_environment sample_lparams
                    ["tritonserver"; "--repository-poll-secs=30";
                     "--model-control-mode"; "POLL"]
                    (set_repository_poll_secs_ 30
                       (set_control_mode_ TRITONSERVER_MODEL_CONTROL_POLL
                          sample_lparams)) []
                    eq_refl)).
Defined.

(** C8: both cache flags, and the cache-config flag alone. *)
Lemma Parse_cache_flags_witness :
  Parse sample_stod empty_environment sample_lparams
        ["tritonserver"; "--response-cache-byte-size=10";
         "--cache-config=local,size=20"]
  = Throw (ParseException IncompatibleCacheFlags)
  /\ exists p,
      Parse sample_stod empty_environment sample_lparams
            ["tritonserver"; "--cache-config=local,size=20"]
      = Ok (p, [])
      /\ enable_cache_ p = true.
Proof.
  split.
  - exact (proj2 (proj1 (Parse_cache_flags
                           sample_stod empty_environment sample_lparams
                           ["tritonserver"; "--response-cache-byte-size=10";
                            "--cache-config=local,size=20"])
                        eq_refl eq_refl)
                 (mkParseState
                    (set_cache_config_settings_
                       [("local", [("size", "10"); ("size", "20")])]
                       sample_lparams)
                    false false true true)
                 eq_refl).
  - exact (proj1 (proj2 (Parse_cache_flags
                           sample_stod empty_environment sample_lparams
                           ["tritonserver"; "--cache-config=local,size=20"]))
                 (mkParseState
                    (set_cache_config_settings_
                       [("local", [("size", "20")])]
                       sample_lparams)
                    false false false true)
                 eq_refl eq_refl).
Defined.

(** C10: [--grpc-use-ssl-mutual=false] after [--grpc-use-ssl=false]. *)
Lemma grpc_use_ssl_mutual_forces_ssl_witness :
  exists st',
    Parse_switch sample_stod OPTION_GRPC_USE_SSL_MUTUAL "false"
                 (mkParseState sample_lparams false false false false)
    = Ok st'
    /\ use_mutual_auth_ (ssl_ (grpc_options_ (lparams st'))) = false
    /\ use_ssl_ (ssl_ (grpc_options_ (lparams st'))) = true
    /\ Parse_loop sample_stod ["--grpc-use-ssl-mutual=false"]
                  (mkParseState sample_lparams false false false false)
       = Parse_loop sample_stod [] st'
    /\ Parse_loop sample_stod ["--grpc-use-ssl-mutual"; "false"]
                  (mkParseState sample_lparams false false false false)
       = Parse_loop sample_stod [] st'.
Proof.
  exact (grpc_use_ssl_mutual_forces_ssl
           sample_stod "false" false
           (mkParseState sample_lparams false false false false) []
           eq_refl).
Defined.

(** The scenarios of the check: HTTP, metrics and SageMaker enabled on
    one address, SageMaker declaring the range [8000, 8002].  The range
    binds the other endpoints, not SageMaker's own port.  And SageMaker,
    declaring that range, with Vertex AI, both on port 8080 and no other
    endpoint enabled: the first comparison has SageMaker as the current
    entry, the range is tested first, and the range message is thrown
    although the ports are equal. *)
Lemma CheckPortCollision_verdict_witness :
  let with_range (http_port sagemaker_port : Z) :=
    set_allow_grpc_ false
      (set_allow_sagemaker_ true
         (set_sagemaker_port_ sagemaker_port
            (set_sagemaker_safe_range_set_ true
               (set_sagemaker_safe_range_ (8000, 8002)
                  (set_http_port_ http_port sample_lparams))))) in
  let sagemaker_and_vertex_ai :=
    set_allow_http_ false
      (set_allow_metrics_ false
         (set_allow_vertex_ai_ true (with_range 8000 8080))) in
  (exists e, CheckPortCollision (with_range 8005 8080) = Throw e
             /\ is_range_violation e = true)
  /\ CheckPortCollision (with_range 8001 8080) = Ok tt
  /\ CheckPortCollision (with_range 8000 8005) = Ok tt
  /\ (exists e, CheckPortCollision (set_http_port_ 8001 sample_lparams)
                = Throw e
                /\ is_port_conflict e = true)
  /\ same_address_port
       (mkPortEntry "SageMaker" "0.0.0.0" 8080 true 8000 8002)
       (mkPortEntry "Vertex AI" "0.0.0.0" 8080 false (-1) (-1))
     = true
  /\ CheckPortCollision sagemaker_and_vertex_ai
     = Throw (ParseException (PortOutOfRange "Vertex AI" 8080 8000 8002)).
Proof.
  intros with_range sagemaker_and_vertex_ai.
  split; [| split; [| split; [| split; [| split]]]].
  - apply (proj1 (proj2 (proj2 (CheckPortCollision_verdict
                                  (with_range 8005 8080))))).
    + exists 2%nat, 0%nat. eexists. eexists.
      split; [discriminate |]. repeat split; reflexivity.
    + no_such_pair.
  - apply (proj1 (CheckPortCollision_verdict (with_range 8001 8080))).
    split; no_such_pair.
  - apply (proj1 (CheckPortCollision_verdict (with_range 8000 8005))).
    split; no_such_pair.
  - apply (proj1 (proj2 (proj2 (proj2 (CheckPortCollision_verdict
                                         (set_http_port_ 8001
                                            sample_lparams)))))).
    + exists 0%nat, 1%nat. eexists. eexists.
      split; [discriminate |]. repeat split; reflexivity.
    + no_such_pair.
  - reflexivity.
  - apply (proj2 (proj2 (proj2 (proj2 (proj2 (CheckPortCollision_verdict
                                                sagemaker_and_vertex_ai)))))).
    exists [], 0%nat, 1%nat, [],
      (mkPortEntry "SageMaker" "0.0.0.0" 8080 true 8000 8002),
      (mkPortEntry "Vertex AI" "0.0.0.0" 8080 false (-1) (-1)).
    split; [reflexivity |]. split; [reflexivity |]. split; [reflexivity |].
    split; [intros i' j' a b [] |].
    left. split; reflexivity.
Defined.

(** Against C1 as the specification states it: HTTP on port 8080 and
    SageMaker on port 8080 with the range [8000, 8002].  HTTP's port lies outside the range
    SageMaker declares, and the check throws the collision message, not
    the range message. *)
Lemma CheckPortCollision_conflict_before_range :
  let p :=
    set_allow_sagemaker_ true
      (set_sagemaker_safe_range_set_ true
         (set_sagemaker_safe_range_ (8000, 8002)
            (set_http_port_ 8080 sample_lparams))) in
  some_pair range_violation (enabled_ports p)
  /\ CheckPortCollision p
     = Throw (ParseException
                (PortCollision "HTTP" "SageMaker" "0.0.0.0" 8080))
  /\ forall e, CheckPortCollision p = Throw e -> is_range_violation e = false.
Proof.
  intros p. split; [| split].
  - exists 3%nat, 0%nat. eexists. eexists.
    split; [discriminate |]. repeat split; reflexivity.
  - reflexivity.
  - intros e H. vm_compute in H. injection H as <-. reflexivity.
Qed.

(** The pairs of C2 on two entries, the second declaring a range. *)
Lemma CheckPortCollision_pairs_witness :
  let http := mkPortEntry "HTTP" "0.0.0.0" 8000 false (-1) (-1) in
  let sagemaker := mkPortEntry "SageMaker" "0.0.0.0" 8080 true 8000 8002 in
  (times_visited [http; sagemaker] 0 1 = 1%nat
   /\ times_visited [http; sagemaker] 1 0 = 1%nat
   /\ times_compared [http; sagemaker] 0 1 = 2%nat)
  /\ (check_ports [http; sagemaker] = Ok tt
      <-> check_ports [sagemaker; http] = Ok tt).
Proof.
  intros http sagemaker. split.
  - exact (proj1 (proj2 (proj2 (CheckPortCollision_pairs [http; sagemaker])))
                 0%nat 1%nat http sagemaker
                 (Nat.lt_0_succ 0) eq_refl eq_refl).
  - exact (proj2 (proj2 (proj2 (CheckPortCollision_pairs [http; sagemaker])))
                 [sagemaker; http] (perm_swap sagemaker http [])).
Defined.

(** Against C2 as the specification states it: with HTTP and SageMaker
    enabled and a range declared, the two entries are compared twice;
    and the exception thrown depends on the order of the entries. *)
Lemma CheckPortCollision_pair_compared_twice :
  let p :=
    set_allow_grpc_ false
      (set_allow_metrics_ false
         (set_allow_sagemaker_ true
            (set_sagemaker_safe_range_set_ true
               (set_sagemaker_safe_range_ (8000, 8002)
                  (set_http_port_ 8080 sample_lparams))))) in
  let http := mkPortEntry "HTTP" "0.0.0.0" 8080 false (-1) (-1) in
  let sagemaker := mkPortEntry "SageMaker" "0.0.0.0" 8080 true 8000 8002 in
  enabled_ports p = [http; sagemaker]
  /\ comparisons (enabled_ports p) = [(0, 1); (1, 0)]%nat
  /\ times_compared (enabled_ports p) 0 1 = 2%nat
  /\ check_ports [http; sagemaker]
     = Throw (ParseException
                (PortCollision "HTTP" "SageMaker" "0.0.0.0" 8080))
  /\ check_ports [sagemaker; http]
     = Throw (ParseException (PortOutOfRange "HTTP" 8080 8000 8002)).
Proof. repeat split; reflexivity. Qed.

(* ================================================================== *)
(** * Part III.  Further properties                                    *)
(* ================================================================== *)

(** ** The option table and the scanner *)

(** Every descriptor of the table is the one its own name selects, no
    name contains the character that separates a flag from its value,
    and every name is short. *)
Lemma recognized_options_reachable :
  Forall (fun o => find_longopt (flag_ o) recognized_options_ = Some o
                   /\ contains "=" (flag_ o) = false
                   /\ size (flag_ o) < 2 ^ 31)
         recognized_options_.
Proof.
  unfold recognized_options_.
  repeat (constructor; [repeat split; vm_compute; reflexivity |]).
  constructor.
Qed.

Lemma recognized_option_reachable (o : Option) :
  In o recognized_options_ ->
  find_longopt (flag_ o) recognized_options_ = Some o
  /\ contains "=" (flag_ o) = false
  /\ size (flag_ o) < 2 ^ 31.
Proof.
  intro Hin.
  exact (proj1 (Forall_forall _ _) recognized_options_reachable o Hin).
Qed.

(** The key the scanner looks up for a token [--name] or [--name=rest]. *)
Lemma getopt_long_key_plain (name : string) (following : list string)
    (longopts : list Option) :
  contains "=" name = false ->
  size name < 2 ^ 31 ->
  getopt_long ("--" ++ name) following longopts
  = match find_longopt name longopts with
    | Some curr_longopt =>
        if has_arg_ curr_longopt then
          match following with
          | [] => Ok getopt_missing
          | next :: _ => Ok (getopt_val (id_ curr_longopt) next true)
          end
        else Ok (getopt_val (id_ curr_longopt) "" false)
    | None => Ok getopt_end
    end.
Proof.
  intros Hname Hsize.
  pose proof (size_nonneg name) as Hn0. rewrite two_31_value in Hsize.
  unfold getopt_long.
  rewrite (find_absent "=" ("--" ++ name) 0) by exact Hname.
  rewrite Z.eqb_refl.
  replace (substr ("--" ++ name) 2 npos) with (Ok name).
  2:{ symmetry. apply (substr_suffix "--" name npos).
      rewrite npos_value. lia. }
  reflexivity.
Qed.

Lemma getopt_long_key_attached (name rest : string)
    (following : list string) (longopts : list Option) :
  contains "=" name = false ->
  size name < 2 ^ 31 ->
  getopt_long ("--" ++ name ++ "=" ++ rest) following longopts
  = match find_longopt name longopts with
    | Some curr_longopt =>
        if has_arg_ curr_longopt
        then Ok (getopt_val (id_ curr_longopt) rest false)
        else Ok (getopt_val (id_ curr_longopt) "" false)
    | None => Ok getopt_end
    end.
Proof.
  intros Hname Hsize.
  pose proof (size_nonneg name) as Hn0. rewrite two_31_value in Hsize.
  unfold getopt_long.
  change ("--" ++ name ++ "=" ++ rest)
    with (("--" ++ name) ++ String "=" rest).
  rewrite (find_first "=" ("--" ++ name) rest) by exact Hname.
  assert (Hsz : size ("--" ++ name) = 2 + size name).
  { rewrite size_append. reflexivity. }
  rewrite Hsz.
  replace (2 + size name =? npos) with false
    by (symmetry; apply Z.eqb_neq; rewrite npos_value; lia).
  replace (2 + size name - 2) with (size name) by lia.
  rewrite to_size_t_small by (rewrite two_64_value; lia).
  replace (substr (("--" ++ name) ++ String "=" rest) 2 (size name))
    with (Ok name).
  2:{ rewrite append_assoc. symmetry.
      apply (substr_middle "--" name (String "=" rest)). }
  cbn [bind].
  replace (substring (Z.to_nat (2 + size name + 1))
             (String.length (("--" ++ name) ++ String "=" rest))
             (("--" ++ name) ++ String "=" rest))
    with rest; [reflexivity |].
  rewrite (append_String ("--" ++ name) "=" rest).
  replace (Z.to_nat (2 + size name + 1))
    with (String.length (("--" ++ name) ++ String "=" "") + 0)%nat.
  2:{ rewrite !length_append. unfold size. cbn [String.length]. lia. }
  rewrite substring_skip, substring_whole; [reflexivity |].
  rewrite length_append. lia.
Qed.

Section ScannerProperties.

Context {double : Type} (stod : string -> Result double).

(** A flag of the table that takes an argument accepts it attached
    ([--name=value]) or as the next token ([--name value]): the scanner
    reports the same option with the same argument, whatever the
    argument is (a next token that looks like a flag is taken as the
    value), and the option loop goes on from the same state. *)
Theorem getopt_long_attached_or_separate (o : Option) (optarg : string)
    (following : list string) (st : ParseState) :
  In o recognized_options_ ->
  has_arg_ o = true ->
  getopt_long ("--" ++ flag_ o ++ "=" ++ optarg) following
              recognized_options_
  = Ok (getopt_val (id_ o) optarg false)
  /\ getopt_long ("--" ++ flag_ o) (optarg :: following) recognized_options_
     = Ok (getopt_val (id_ o) optarg true)
  /\ Parse_loop stod (("--" ++ flag_ o ++ "=" ++ optarg) :: following) st
     = Parse_loop stod (("--" ++ flag_ o) :: optarg :: following) st.
Proof.
  intros Hin Harg.
  destruct (recognized_option_reachable o Hin) as (Hfind & Hname & Hsize).
  assert (H1 : getopt_long ("--" ++ flag_ o ++ "=" ++ optarg) following
                 recognized_options_
               = Ok (getopt_val (id_ o) optarg false)).
  { rewrite getopt_long_key_attached by assumption.
    rewrite Hfind, Harg. reflexivity. }
  assert (H2 : getopt_long ("--" ++ flag_ o) (optarg :: following)
                 recognized_options_
               = Ok (getopt_val (id_ o) optarg true)).
  { rewrite getopt_long_key_plain by assumption.
    rewrite Hfind, Harg. reflexivity. }
  split; [exact H1 | split; [exact H2 |]].
  rewrite !(Parse_loop_cons stod), H1, H2. reflexivity.
Qed.

End ScannerProperties.

Lemma getopt_long_attached_or_separate_witness :
  getopt_long ("--" ++ "http-port" ++ "=" ++ "--allow-http") ["8000"]
              recognized_options_
  = Ok (getopt_val OPTION_HTTP_PORT "--allow-http" false)
  /\ getopt_long ("--" ++ "http-port") ["--allow-http"; "8000"]
                 recognized_options_
     = Ok (getopt_val OPTION_HTTP_PORT "--allow-http" true)
  /\ Parse_loop sample_stod
       (("--" ++ "http-port" ++ "=" ++ "--allow-http") :: ["8000"])
       (mkParseState sample_lparams false false false false)
     = Parse_loop sample_stod
         (("--" ++ "http-port") :: "--allow-http" :: ["8000"])
         (mkParseState sample_lparams false false false false).
Proof.
  apply (getopt_long_attached_or_separate sample_stod
           (mkOption OPTION_HTTP_PORT "http-port" ArgInt)).
  - unfold recognized_options_.
    repeat (first [left; reflexivity | right]).
  - reflexivity.
Defined.

(** [Parse] once the set-up step has returned. *)
Lemma Parse_after_setup {double : Type} (stod : string -> Result double)
    (getenv : string -> option string) (lparams0 : TritonServerParameters)
    (st0 : ParseState) (argv : list string) :
  Parse_setup getenv lparams0 = Ok st0 ->
  Parse stod getenv lparams0 argv
  = (r <- Parse_loop stod (tl argv) st0 ;;
     match snd r with
     | token :: _ => Throw (ParseException (UnexpectedArgument token))
     | [] => p <- Parse_validate (fst r) ;; Ok (p, [])
     end).
Proof.
  intro Hsetup. unfold Parse, Parse_options. rewrite Hsetup. cbn [bind].
  destruct (Parse_loop stod (tl argv) st0) as [[st remaining] | e];
    cbn [bind fst snd]; [| reflexivity].
  destruct remaining; reflexivity.
Qed.

Section ScanEdges.

Context {double : Type} (stod : string -> Result double).
Variable getenv : string -> option string.
Variable lparams0 : TritonServerParameters.

(** A flag of the table that takes no argument discards a value
    attached to it: [--name=value] is scanned as [--name], and the
    option loop goes on from the same state. *)
Theorem getopt_long_discards_attached_value (o : Option) (value : string)
    (following : list string) (st : ParseState) :
  In o recognized_options_ ->
  has_arg_ o = false ->
  getopt_long ("--" ++ flag_ o ++ "=" ++ value) following recognized_options_
  = Ok (getopt_val (id_ o) "" false)
  /\ Parse_loop stod (("--" ++ flag_ o ++ "=" ++ value) :: following) st
     = Parse_loop stod (("--" ++ flag_ o) :: following) st.
Proof.
  intros Hin Harg.
  destruct (recognized_option_reachable o Hin) as (Hfind & Hname & Hsize).
  assert (H1 : getopt_long ("--" ++ flag_ o ++ "=" ++ value) following
                 recognized_options_
               = Ok (getopt_val (id_ o) "" false)).
  { rewrite getopt_long_key_attached by assumption.
    rewrite Hfind, Harg. reflexivity. }
  split; [exact H1 |].
  rewrite !(Parse_loop_cons stod), H1.
  rewrite getopt_long_key_plain by assumption.
  rewrite Hfind, Harg. reflexivity.
Qed.

(** The scanner does not look at the first two characters of a
    token: whatever they are (but for the character that separates a
    flag from its value), the token is scanned as if they were two
    dashes. *)
Theorem getopt_long_ignores_leading_characters (a b : ascii) (s : string)
    (following : list string) (longopts : list Option) :
  a <> "="%char ->
  b <> "="%char ->
  getopt_long (String a (String b s)) following longopts
  = getopt_long ("--" ++ s) following longopts.
Proof.
  intros Ha Hb.
  apply Ascii.eqb_neq in Ha, Hb.
  unfold getopt_long.
  assert (Hfind : find (String a (String b s)) "=" 0
                  = find ("--" ++ s) "=" 0).
  { unfold find, size. cbn [append String.length Z.to_nat index].
    rewrite !prefix_char, Ha, Hb. reflexivity. }
  rewrite Hfind.
  assert (Hsubstr : forall n,
             substr (String a (String b s)) 2 n = substr ("--" ++ s) 2 n).
  { intro n. unfold substr, size. cbn [append String.length].
    destruct (Z.of_nat (S (S (String.length s))) <? 2); [reflexivity |].
    change (Z.to_nat 2) with 2%nat. reflexivity. }
  rewrite Hsubstr.
  destruct (substr ("--" ++ s) 2
              (if find ("--" ++ s) "=" 0 =? npos then npos
               else to_size_t (find ("--" ++ s) "=" 0 - 2)))
    as [key | e]; cbn [bind]; [| reflexivity].
  destruct (find_longopt key longopts) as [curr_longopt |]; [| reflexivity].
  destruct (has_arg_ curr_longopt); [| reflexivity].
  destruct (find ("--" ++ s) "=" 0 =? npos) eqn:Hnpos; [reflexivity |].
  do 2 f_equal.
  assert (Hpos : exists i, find ("--" ++ s) "=" 0 = Z.of_nat (S (S i))).
  { revert Hnpos. unfold find, size.
    cbn [append String.length Z.to_nat index].
    rewrite !prefix_char. cbn.
    destruct (index 0 "=" s) as [i |].
    - intros _. exists i. reflexivity.
    - intro H. rewrite Z.eqb_refl in H. discriminate H. }
  destruct Hpos as [i Hi]. rewrite Hi.
  replace (Z.to_nat (Z.of_nat (S (S i)) + 1)) with (S (S (S i))) by lia.
  reflexivity.
Qed.

Lemma getopt_long_ignores_leading_characters_witness :
  getopt_long "xxhelp" [] recognized_options_
  = getopt_long ("--" ++ "help") [] recognized_options_.
Proof.
  apply (getopt_long_ignores_leading_characters "x" "x" "help");
    discriminate.
Defined.

(** A token of fewer than two characters that the scanner reaches
    is not reported as an unexpected argument: taking the flag name out
    of it throws [std::out_of_range], which neither the scanner nor the
    option loop nor [Parse] catches. *)
Theorem Parse_short_token_out_of_range (argv0 token : string)
    (following : list string) (st st0 : ParseState) :
  size token < 2 ->
  getopt_long token following recognized_options_ = Throw std_out_of_range
  /\ Parse_loop stod (token :: following) st = Throw std_out_of_range
  /\ (Parse_setup getenv lparams0 = Ok st0 ->
      Parse stod getenv lparams0 (argv0 :: token :: following)
      = Throw std_out_of_range).
Proof.
  intro Hshort.
  assert (H1 : getopt_long token following recognized_options_
               = Throw std_out_of_range).
  { unfold getopt_long, substr.
    replace (size token <? 2) with true
      by (symmetry; apply Z.ltb_lt; exact Hshort).
    reflexivity. }
  assert (H2 : Parse_loop stod (token :: following) st
               = Throw std_out_of_range).
  { rewrite Parse_loop_cons, H1. reflexivity. }
  split; [exact H1 | split; [exact H2 |]].
  intro Hsetup.
  rewrite (Parse_after_setup stod getenv lparams0 st0 _ Hsetup).
  cbn [tl]. rewrite Parse_loop_cons, H1. reflexivity.
Qed.

(** A token [--name] or [--name=value] whose name is not in the
    table stops the option loop without consuming anything, in whatever
    state the loop is; as the first token it makes [Parse] throw the
    unexpected-argument exception, which carries the whole token. *)
Theorem Parse_unknown_flag (argv0 name value : string)
    (following : list string) (st st0 : ParseState) :
  contains "=" name = false ->
  size name < 2 ^ 31 ->
  find_longopt name recognized_options_ = None ->
  (Parse_loop stod (("--" ++ name) :: following) st
   = Ok (st, ("--" ++ name) :: following)
   /\ Parse_loop stod (("--" ++ name ++ "=" ++ value) :: following) st
      = Ok (st, ("--" ++ name ++ "=" ++ value) :: following))
  /\ (Parse_setup getenv lparams0 = Ok st0 ->
      Parse stod getenv lparams0 (argv0 :: ("--" ++ name) :: following)
      = Throw (ParseException (UnexpectedArgument ("--" ++ name)))
      /\ Parse stod getenv lparams0
           (argv0 :: ("--" ++ name ++ "=" ++ value) :: following)
         = Throw (ParseException
                    (UnexpectedArgument ("--" ++ name ++ "=" ++ value)))).
Proof.
  intros Hname Hsize Hfind.
  assert (H1 : Parse_loop stod (("--" ++ name) :: following) st0
               = Ok (st0, ("--" ++ name) :: following)
               /\ Parse_loop stod (("--" ++ name) :: following) st
                  = Ok (st, ("--" ++ name) :: following)).
  { rewrite !Parse_loop_cons, getopt_long_key_plain by assumption.
    rewrite Hfind. split; reflexivity. }
  assert (H2 : Parse_loop stod (("--" ++ name ++ "=" ++ value) :: following)
                 st0
               = Ok (st0, ("--" ++ name ++ "=" ++ value) :: following)
               /\ Parse_loop stod
                    (("--" ++ name ++ "=" ++ value) :: following) st
                  = Ok (st, ("--" ++ name ++ "=" ++ value) :: following)).
  { rewrite !Parse_loop_cons, getopt_long_key_attached by assumption.
    rewrite Hfind. split; reflexivity. }
  split; [split; [exact (proj2 H1) | exact (proj2 H2)] |].
  intro Hsetup.
  rewrite !(Parse_after_setup stod getenv lparams0 st0 _ Hsetup).
  cbn [tl]. rewrite (proj1 H1), (proj1 H2). split; reflexivity.
Qed.

(** A flag of the table that takes an argument and is the last
    token, without an attached value, makes the option loop throw the
    exception with the empty message, the one it also throws for
    [--help]. *)
Theorem Parse_missing_argument (argv0 : string) (o : Option)
    (st st0 : ParseState) :
  In o recognized_options_ ->
  has_arg_ o = true ->
  getopt_long ("--" ++ flag_ o) [] recognized_options_ = Ok getopt_missing
  /\ Parse_loop stod ["--" ++ flag_ o] st = Throw (ParseException NoMessage)
  /\ Parse_loop stod ["--help"] st = Throw (ParseException NoMessage)
  /\ (Parse_setup getenv lparams0 = Ok st0 ->
      Parse stod getenv lparams0 [argv0; "--" ++ flag_ o]
      = Throw (ParseException NoMessage)).
Proof.
  intros Hin Harg.
  destruct (recognized_option_reachable o Hin) as (Hfind & Hname & Hsize).
  assert (H1 : getopt_long ("--" ++ flag_ o) [] recognized_options_
               = Ok getopt_missing).
  { rewrite getopt_long_key_plain by assumption.
    rewrite Hfind, Harg. reflexivity. }
  split; [exact H1 |].
  split; [rewrite Parse_loop_cons, H1; reflexivity |].
  split; [reflexivity |].
  intro Hsetup.
  rewrite (Parse_after_setup stod getenv lparams0 st0 _ Hsetup).
  cbn [tl]. rewrite Parse_loop_cons, H1. reflexivity.
Qed.

End ScanEdges.

Lemma getopt_long_discards_attached_value_witness :
  getopt_long ("--" ++ "disable-auto-complete-config" ++ "=" ++ "false") []
              recognized_options_
  = Ok (getopt_val OPTION_DISABLE_AUTO_COMPLETE_CONFIG "" false)
  /\ Parse_loop sample_stod
       [("--" ++ "disable-auto-complete-config" ++ "=" ++ "false")]
       (mkParseState sample_lparams false false false false)
     = Parse_loop sample_stod
         [("--" ++ "disable-auto-complete-config")]
         (mkParseState sample_lparams false false false false).
Proof.
  apply (getopt_long_discards_attached_value sample_stod
           (mkOption OPTION_DISABLE_AUTO_COMPLETE_CONFIG
                     "disable-auto-complete-config" ArgNone)).
  - unfold recognized_options_.
    repeat (first [left; reflexivity | right]).
  - reflexivity.
Defined.

Lemma Parse_short_token_out_of_range_witness :
  getopt_long "-" ["--help"] recognized_options_ = Throw std_out_of_range
  /\ Parse_loop sample_stod ["-"; "--help"]
       (mkParseState sample_lparams false false false false)
     = Throw std_out_of_range
  /\ Parse sample_stod empty_environment sample_lparams
           ["tritonserver"; "-"; "--help"]
     = Throw std_out_of_range.
Proof.
  destruct (Parse_short_token_out_of_range sample_stod empty_environment
              sample_lparams "tritonserver" "-" ["--help"]
              (mkParseState sample_lparams false false false false)
              (mkParseState (set_vertex_ai_port_ 8080 sample_lparams)
                            false false false false)
              eq_refl)
    as (H1 & H2 & H3).
  split; [exact H1 | split; [exact H2 | exact (H3 eq_refl)]].
Defined.

Lemma Parse_unknown_flag_witness :
  (Parse_loop sample_stod [("--" ++ "http-prot"); "8000"]
     (mkParseState sample_lparams false false false false)
   = Ok (mkParseState sample_lparams false false false false,
         [("--" ++ "http-prot"); "8000"])
   /\ Parse_loop sample_stod [("--" ++ "http-prot" ++ "=" ++ "8000"); "8000"]
        (mkParseState sample_lparams false false false false)
      = Ok (mkParseState sample_lparams false false false false,
            [("--" ++ "http-prot" ++ "=" ++ "8000"); "8000"]))
  /\ Parse sample_stod empty_environment sample_lparams
           ["tritonserver"; ("--" ++ "http-prot"); "8000"]
     = Throw (ParseException (UnexpectedArgument ("--" ++ "http-prot")))
  /\ Parse sample_stod empty_environment sample_lparams
           ["tritonserver"; ("--" ++ "http-prot" ++ "=" ++ "8000"); "8000"]
     = Throw (ParseException
                (UnexpectedArgument ("--" ++ "http-prot" ++ "=" ++ "8000"))).
Proof.
  destruct (Parse_unknown_flag sample_stod empty_environment sample_lparams
              "tritonserver" "http-prot" "8000" ["8000"]
              (mkParseState sample_lparams false false false false)
              (mkParseState (set_vertex_ai_port_ 8080 sample_lparams)
                            false false false false)
              eq_refl eq_refl eq_refl)
    as (H1 & H2).
  split; [exact H1 | exact (H2 eq_refl)].
Defined.

Lemma Parse_missing_argument_witness :
  getopt_long ("--" ++ "http-port") [] recognized_options_
  = Ok getopt_missing
  /\ Parse_loop sample_stod ["--" ++ "http-port"]
       (mkParseState sample_lparams false false false false)
     = Throw (ParseException NoMessage)
  /\ Parse_loop sample_stod ["--help"]
       (mkParseState sample_lparams false false false false)
     = Throw (ParseException NoMessage)
  /\ Parse sample_stod empty_environment sample_lparams
           ["tritonserver"; "--" ++ "http-port"]
     = Throw (ParseException NoMessage).
Proof.
  assert (Hin : In (mkOption OPTION_HTTP_PORT "http-port" ArgInt)
                   recognized_options_)
    by (unfold recognized_options_;
        repeat (first [left; reflexivity | right])).
  destruct (Parse_missing_argument sample_stod empty_environment
              sample_lparams "tritonserver"
              (mkOption OPTION_HTTP_PORT "http-port" ArgInt)
              (mkParseState sample_lparams false false false false)
              (mkParseState (set_vertex_ai_port_ 8080 sample_lparams)
                            false false false false)
              Hin eq_refl)
    as (H1 & H2 & H3 & H4).
  split; [exact H1 | split; [exact H2 | split; [exact H3 |]]].
  exact (H4 eq_refl).
Defined.

(** ** Options that keep one value *)

Lemma last_parsed_nil {A : Type} (parse : string -> Result A)
    (default : A) :
  last_parsed parse [] default default.
Proof. exists []. split; [constructor | reflexivity]. Qed.

Lemma last_parsed_cons {A : Type} (parse : string -> Result A)
    (optarg : string) (args : list string) (default x v : A) :
  parse optarg = Ok x ->
  last_parsed parse args x v ->
  last_parsed parse (optarg :: args) default v.
Proof.
  intros Hx (values & Hvalues & Hv).
  exists (x :: values). split; [constructor; assumption |].
  rewrite Hv. destruct values as [| y values]; [reflexivity |].
  change (last (y :: values) x = last (y :: values) default).
  apply last_cons_default.
Qed.

(** When the option takes its argument as it is, the value is the last
    argument. *)
Lemma last_parsed_verbatim (args : list string) (default v : string) :
  last_parsed (fun optarg => Ok optarg) args default v ->
  v = last args default.
Proof.
  intros (values & Hvalues & Hv).
  assert (Heq : values = args).
  { clear Hv. induction Hvalues as [| a x args values Hx _ IH];
      [reflexivity |].
    injection Hx as <-. rewrite IH. reflexivity. }
  rewrite Hv, Heq. reflexivity.
Qed.

Lemma last_parsed_default {A : Type} (parse : string -> Result A)
    (args : list string) (default default' v : A) :
  args <> [] ->
  last_parsed parse args default v -> last_parsed parse args default' v.
Proof.
  intros Hargs (values & Hvalues & Hv).
  exists values. split; [exact Hvalues |].
  destruct Hvalues as [| a x args values _ _]; [contradiction Hargs; reflexivity |].
  rewrite Hv. apply last_cons_default.
Qed.

Section FieldProperties.

Context {double : Type} (stod : string -> Result double).

(** A member that only the case of [F] assigns, with the value [parse]
    reads from the argument, holds the last value parsed for [F]. *)
Lemma run_switch_last_wins {A : Type} (f : ParseState -> A)
    (F : TritonOptionId) (parse : string -> Result A) :
  (forall flag optarg st st',
      Parse_switch stod flag optarg st = Ok st' ->
      if is_flag F (flag, optarg) then parse optarg = Ok (f st')
      else f st' = f st) ->
  forall (options : list (TritonOptionId * string)) (st st' : ParseState),
    run_switch stod options st = Ok st' ->
    last_parsed parse (arguments_of F options) (f st) (f st').
Proof.
  intros Hstep.
  induction options as [| [flag optarg] options IH]; intros st st' H.
  - injection H as <-. apply last_parsed_nil.
  - cbn [run_switch] in H.
    destruct (Parse_switch stod flag optarg st) as [st1 | e] eqn:E;
      cbn [bind] in H; [| discriminate H].
    specialize (IH st1 st' H). specialize (Hstep flag optarg st st1 E).
    unfold arguments_of. cbn [filter].
    destruct (is_flag F (flag, optarg)).
    + cbn [map snd]. apply (last_parsed_cons parse _ _ _ (f st1) _ Hstep IH).
    + rewrite <- Hstep. exact IH.
Qed.

(** What one [case] does to the members that keep one value. *)
Lemma Parse_switch_single_valued (flag : TritonOptionId) (optarg : string)
    (st st' : ParseState) :
  Parse_switch stod flag optarg st = Ok st' ->
  (if is_flag OPTION_HTTP_ADDRESS (flag, optarg)
   then Ok optarg = Ok (http_address_ (lparams st'))
   else http_address_ (lparams st') = http_address_ (lparams st))
  /\ (if is_flag OPTION_HTTP_ADDRESS (flag, optarg)
      then Ok optarg = Ok (metrics_address_ (lparams st'))
      else metrics_address_ (lparams st') = metrics_address_ (lparams st))
  /\ (if is_flag OPTION_ALLOW_HTTP (flag, optarg)
      then ParseOption_bool optarg = Ok (allow_http_ (lparams st'))
      else allow_http_ (lparams st') = allow_http_ (lparams st))
  /\ (if is_flag OPTION_ALLOW_GRPC (flag, optarg)
      then ParseOption_bool optarg = Ok (allow_grpc_ (lparams st'))
      else allow_grpc_ (lparams st') = allow_grpc_ (lparams st))
  /\ (if is_flag OPTION_ALLOW_VERTEX_AI (flag, optarg)
      then ParseOption_bool optarg = Ok (allow_vertex_ai_ (lparams st'))
      else allow_vertex_ai_ (lparams st') = allow_vertex_ai_ (lparams st))
  /\ (if is_flag OPTION_VERTEX_AI_PORT (flag, optarg)
      then ParseOption_int optarg = Ok (vertex_ai_port_ (lparams st'))
      else vertex_ai_port_ (lparams st') = vertex_ai_port_ (lparams st))
  /\ (if is_flag OPTION_ALLOW_METRICS (flag, optarg)
      then ParseOption_bool optarg = Ok (allow_metrics_ (lparams st'))
      else allow_metrics_ (lparams st') = allow_metrics_ (lparams st))
  /\ (if is_flag OPTION_ALLOW_GPU_METRICS (flag, optarg)
      then ParseOption_bool optarg = Ok (allow_gpu_metrics_ (lparams st'))
      else allow_gpu_metrics_ (lparams st')
           = allow_gpu_metrics_ (lparams st))
  /\ (if is_flag OPTION_ALLOW_CPU_METRICS (flag, optarg)
      then ParseOption_bool optarg = Ok (allow_cpu_metrics_ (lparams st'))
      else allow_cpu_metrics_ (lparams st')
           = allow_cpu_metrics_ (lparams st))
  /\ (if is_flag OPTION_STRICT_MODEL_CONFIG (flag, optarg)
      then ParseOption_bool optarg = Ok (strict_model_config_ (lparams st'))
      else strict_model_config_ (lparams st')
           = strict_model_config_ (lparams st))
  /\ disable_auto_complete_config st'
     = disable_auto_complete_config st
       || is_flag OPTION_DISABLE_AUTO_COMPLETE_CONFIG (flag, optarg).
Proof.
  intros H. switch_cases H flag st st';
    rewrite ?orb_false_r, ?orb_true_r; repeat split; reflexivity.
Qed.

Lemma run_switch_disable_auto_complete_config
    (options : list (TritonOptionId * string)) :
  forall st st' : ParseState,
    run_switch stod options st = Ok st' ->
    disable_auto_complete_config st'
    = disable_auto_complete_config st
      || supplied OPTION_DISABLE_AUTO_COMPLETE_CONFIG options.
Proof.
  induction options as [| [flag optarg] options IH]; intros st st' H.
  - injection H as <-. cbn. rewrite orb_false_r. reflexivity.
  - cbn [run_switch] in H.
    destruct (Parse_switch stod flag optarg st) as [st1 | e] eqn:E;
      cbn [bind] in H; [| discriminate H].
    rewrite (IH st1 st' H).
    pose proof (Parse_switch_single_valued flag optarg st st1 E) as Hstep.
    do 10 apply proj2 in Hstep.
    unfold supplied. cbn [existsb]. rewrite Hstep, orb_assoc. reflexivity.
Qed.

(** The state the option loop starts from. *)
Lemma Parse_setup_inv (getenv : string -> option string)
    (lparams0 : TritonServerParameters) (st0 : ParseState) :
  Parse_setup getenv lparams0 = Ok st0 ->
  exists v,
    ParseOption_int
      (GetEnvironmentVariableOrDefault getenv "AIP_HTTP_PORT" "8080") = Ok v
    /\ st0
       = mkParseState
           (set_vertex_ai_port_ v
              (if GetEnvironmentVariableOrDefault getenv "AIP_MODE" ""
                  == "PREDICTION"
               then set_allow_grpc_ false
                      (set_allow_http_ false
                         (set_allow_vertex_ai_ true lparams0))
               else lparams0))
           false false false false.
Proof.
  unfold Parse_setup. intros H.
  destruct (ParseOption_int
              (GetEnvironmentVariableOrDefault getenv "AIP_HTTP_PORT" "8080"))
    as [v | e]; cbn [bind] in H; [| discriminate H].
  injection H as <-. exists v. split; reflexivity.
Qed.

(** The members the post-parsing validation leaves as they are, and the
    ones it decides on. *)
Lemma Parse_validate_fields (st : ParseState) (p : TritonServerParameters) :
  Parse_validate st = Ok p ->
  http_address_ p = http_address_ (lparams st)
  /\ metrics_address_ p = metrics_address_ (lparams st)
  /\ allow_http_ p = allow_http_ (lparams st)
  /\ allow_grpc_ p = allow_grpc_ (lparams st)
  /\ allow_vertex_ai_ p = allow_vertex_ai_ (lparams st)
  /\ vertex_ai_port_ p = vertex_ai_port_ (lparams st)
  /\ allow_metrics_ p = allow_metrics_ (lparams st)
  /\ allow_gpu_metrics_ p
     = allow_gpu_metrics_ (lparams st) && allow_metrics_ (lparams st)
  /\ allow_cpu_metrics_ p
     = allow_cpu_metrics_ (lparams st) && allow_metrics_ (lparams st)
  /\ strict_model_config_ p
     = disable_auto_complete_config st || strict_model_config_ (lparams st)
  /\ rate_limit_resources_ p = rate_limit_resources_ (lparams st)
  /\ cache_config_settings_ p = cache_config_settings_ (lparams st)
  /\ enabled_ports p = enabled_ports (lparams st).
Proof.
  unfold Parse_validate. intros H. destruct st as [q b1 b2 b3 b4].
  destruct q as [mode ? ? ? ? ? ? ? ? ? ? ? ? ? ? ? ? ? ? ? ? ? ? ? ?].
  cbn in H. destruct (b3 && b4); [discriminate H |].
  injection H as <-. destruct mode, b2; cbn; repeat split; reflexivity.
Qed.

(** A parse without exception, taken apart into its three steps. *)
Lemma Parse_steps (getenv : string -> option string)
    (lparams0 : TritonServerParameters) (argv : list string)
    (p : TritonServerParameters) (rest : list string) :
  Parse stod getenv lparams0 argv = Ok (p, rest) ->
  exists st0 st,
    Parse_setup getenv lparams0 = Ok st0
    /\ run_switch stod (scanned_options (tl argv)) st0 = Ok st
    /\ Parse_validate st = Ok p.
Proof.
  intros H.
  destruct (Parse_inv stod getenv lparams0 argv p rest H)
    as (st & Hoptions & Hvalidate & _).
  destruct (Parse_options_inv stod getenv lparams0 argv st Hoptions)
    as (st0 & Hsetup & Hrun).
  exists st0, st. split; [exact Hsetup | split; assumption].
Qed.

End FieldProperties.

Section ParseFields.

Context {double : Type} (stod : string -> Result double).
Variable getenv : string -> option string.
Variable lparams0 : TritonServerParameters.

(** The metrics endpoint follows the HTTP endpoint: after a parse
    without exception the HTTP address and the metrics address are both
    the argument of the last [--http-address], and each keeps its
    initial value when the flag is not given.  No other flag moves the
    metrics address. *)
Theorem Parse_http_address_moves_metrics (argv : list string)
    (p : TritonServerParameters) (rest : list string) :
  Parse stod getenv lparams0 argv = Ok (p, rest) ->
  let args := arguments_of OPTION_HTTP_ADDRESS (scanned_options (tl argv)) in
  http_address_ p = last args (http_address_ lparams0)
  /\ metrics_address_ p = last args (metrics_address_ lparams0).
Proof.
  intros H args.
  destruct (Parse_steps stod getenv lparams0 argv p rest H)
    as (st0 & st & Hsetup & Hrun & Hvalidate).
  destruct (Parse_validate_fields st p Hvalidate) as (Hh & Hm & _).
  destruct (Parse_setup_inv getenv lparams0 st0 Hsetup) as (v & _ & Hst0).
  assert (H0 : http_address_ (lparams st0) = http_address_ lparams0
               /\ metrics_address_ (lparams st0) = metrics_address_ lparams0).
  { rewrite Hst0. destruct lparams0.
    destruct (GetEnvironmentVariableOrDefault getenv "AIP_MODE" ""
              == "PREDICTION"); split; reflexivity. }
  destruct H0 as [Hh0 Hm0].
  rewrite Hh, Hm, <- Hh0, <- Hm0. split.
  - apply last_parsed_verbatim.
    apply (run_switch_last_wins stod
             (fun st => http_address_ (lparams st)) OPTION_HTTP_ADDRESS
             (fun optarg => Ok optarg)); [| exact Hrun].
    intros flag optarg s s' Hs.
    exact (proj1 (Parse_switch_single_valued stod flag optarg s s' Hs)).
  - apply last_parsed_verbatim.
    apply (run_switch_last_wins stod
             (fun st => metrics_address_ (lparams st)) OPTION_HTTP_ADDRESS
             (fun optarg => Ok optarg)); [| exact Hrun].
    intros flag optarg s s' Hs.
    exact (proj1 (proj2
                    (Parse_switch_single_valued stod flag optarg s s' Hs))).
Qed.

(** After a parse without exception the switch of the metrics
    endpoint is the value of the last [--allow-metrics], and the GPU and
    CPU metrics are on only if their own last value is true and the
    metrics endpoint is on, in whatever order the flags come. *)
Theorem Parse_metrics_flags (argv : list string)
    (p : TritonServerParameters) (rest : list string) :
  Parse stod getenv lparams0 argv = Ok (p, rest) ->
  let options := scanned_options (tl argv) in
  exists gpu cpu,
    last_parsed ParseOption_bool (arguments_of OPTION_ALLOW_METRICS options)
                (allow_metrics_ lparams0) (allow_metrics_ p)
    /\ last_parsed ParseOption_bool
                   (arguments_of OPTION_ALLOW_GPU_METRICS options)
                   (allow_gpu_metrics_ lparams0) gpu
    /\ last_parsed ParseOption_bool
                   (arguments_of OPTION_ALLOW_CPU_METRICS options)
                   (allow_cpu_metrics_ lparams0) cpu
    /\ allow_gpu_metrics_ p = gpu && allow_metrics_ p
    /\ allow_cpu_metrics_ p = cpu && allow_metrics_ p.
Proof.
  intros H options.
  destruct (Parse_steps stod getenv lparams0 argv p rest H)
    as (st0 & st & Hsetup & Hrun & Hvalidate).
  destruct (Parse_validate_fields st p Hvalidate)
    as (_ & _ & _ & _ & _ & _ & Hm & Hg & Hc & _).
  destruct (Parse_setup_inv getenv lparams0 st0 Hsetup) as (v & _ & Hst0).
  assert (H0 : allow_metrics_ (lparams st0) = allow_metrics_ lparams0
               /\ allow_gpu_metrics_ (lparams st0)
                  = allow_gpu_metrics_ lparams0
               /\ allow_cpu_metrics_ (lparams st0)
                  = allow_cpu_metrics_ lparams0).
  { rewrite Hst0. destruct lparams0.
    destruct (GetEnvironmentVariableOrDefault getenv "AIP_MODE" ""
              == "PREDICTION"); repeat split; reflexivity. }
  destruct H0 as (Hm0 & Hg0 & Hc0).
  exists (allow_gpu_metrics_ (lparams st)), (allow_cpu_metrics_ (lparams st)).
  rewrite Hm, Hg, Hc, <- Hm0, <- Hg0, <- Hc0.
  split; [| split; [| split; [| split; reflexivity]]].
  - apply (run_switch_last_wins stod
             (fun st => allow_metrics_ (lparams st)) OPTION_ALLOW_METRICS
             ParseOption_bool); [| exact Hrun].
    intros flag optarg s s' Hs.
    pose proof (Parse_switch_single_valued stod flag optarg s s' Hs) as Hstep.
    do 6 apply proj2 in Hstep. exact (proj1 Hstep).
  - apply (run_switch_last_wins stod
             (fun st => allow_gpu_metrics_ (lparams st))
             OPTION_ALLOW_GPU_METRICS ParseOption_bool); [| exact Hrun].
    intros flag optarg s s' Hs.
    pose proof (Parse_switch_single_valued stod flag optarg s s' Hs) as Hstep.
    do 7 apply proj2 in Hstep. exact (proj1 Hstep).
  - apply (run_switch_last_wins stod
             (fun st => allow_cpu_metrics_ (lparams st))
             OPTION_ALLOW_CPU_METRICS ParseOption_bool); [| exact Hrun].
    intros flag optarg s s' Hs.
    pose proof (Parse_switch_single_valued stod flag optarg s s' Hs) as Hstep.
    do 8 apply proj2 in Hstep. exact (proj1 Hstep).
Qed.

(** After a parse without exception the strict-model-config
    member is true as soon as [--disable-auto-complete-config] is among
    the flags, wherever it stands; otherwise it is the value of the last
    [--strict-model-config], or the initial value. *)
Theorem Parse_strict_model_config (argv : list string)
    (p : TritonServerParameters) (rest : list string) :
  Parse stod getenv lparams0 argv = Ok (p, rest) ->
  let options := scanned_options (tl argv) in
  exists strict,
    last_parsed ParseOption_bool
                (arguments_of OPTION_STRICT_MODEL_CONFIG options)
                (strict_model_config_ lparams0) strict
    /\ strict_model_config_ p
       = supplied OPTION_DISABLE_AUTO_COMPLETE_CONFIG options || strict.
Proof.
  intros H options.
  destruct (Parse_steps stod getenv lparams0 argv p rest H)
    as (st0 & st & Hsetup & Hrun & Hvalidate).
  destruct (Parse_validate_fields st p Hvalidate)
    as (_ & _ & _ & _ & _ & _ & _ & _ & _ & Hs & _).
  destruct (Parse_setup_inv getenv lparams0 st0 Hsetup) as (v & _ & Hst0).
  assert (H0 : strict_model_config_ (lparams st0)
               = strict_model_config_ lparams0
               /\ disable_auto_complete_config st0 = false).
  { rewrite Hst0. destruct lparams0.
    destruct (GetEnvironmentVariableOrDefault getenv "AIP_MODE" ""
              == "PREDICTION"); split; reflexivity. }
  destruct H0 as (Hs0 & Hd0).
  exists (strict_model_config_ (lparams st)).
  rewrite Hs, <- Hs0. split.
  - apply (run_switch_last_wins stod
             (fun st => strict_model_config_ (lparams st))
             OPTION_STRICT_MODEL_CONFIG ParseOption_bool); [| exact Hrun].
    intros flag optarg s s' Hstep'.
    pose proof (Parse_switch_single_valued stod flag optarg s s' Hstep')
      as Hstep.
    do 9 apply proj2 in Hstep. exact (proj1 Hstep).
  - rewrite (run_switch_disable_auto_complete_config stod _ _ _ Hrun), Hd0.
    reflexivity.
Qed.

(** What the environment does to a parse.  The value of
    [AIP_HTTP_PORT] (8080 when it is not set) is parsed before any
    token is looked at, and a value that does not parse makes [Parse]
    throw whatever the tokens are.  After a parse without exception the
    Vertex AI port is the value of the last [--vertex-ai-port], or the
    port of the environment; and when [AIP_MODE] is [PREDICTION], the
    Vertex AI endpoint is on and the HTTP and gRPC endpoints are off
    unless the last [--allow-vertex-ai], [--allow-http] or
    [--allow-grpc] says otherwise. *)
Theorem Parse_vertex_ai_environment (argv : list string) :
  let options := scanned_options (tl argv) in
  let prediction :=
    GetEnvironmentVariableOrDefault getenv "AIP_MODE" "" == "PREDICTION" in
  let port :=
    GetEnvironmentVariableOrDefault getenv "AIP_HTTP_PORT" "8080" in
  (forall e,
      ParseOption_int port = Throw e ->
      Parse stod getenv lparams0 argv = Throw e)
  /\ (forall p rest,
         Parse stod getenv lparams0 argv = Ok (p, rest) ->
         exists v,
           ParseOption_int port = Ok v
           /\ last_parsed ParseOption_int
                          (arguments_of OPTION_VERTEX_AI_PORT options)
                          v (vertex_ai_port_ p)
           /\ last_parsed ParseOption_bool
                          (arguments_of OPTION_ALLOW_VERTEX_AI options)
                          (if prediction then true
                           else allow_vertex_ai_ lparams0)
                          (allow_vertex_ai_ p)
           /\ last_parsed ParseOption_bool
                          (arguments_of OPTION_ALLOW_HTTP options)
                          (if prediction then false else allow_http_ lparams0)
                          (allow_http_ p)
           /\ last_parsed ParseOption_bool
                          (arguments_of OPTION_ALLOW_GRPC options)
                          (if prediction then false else allow_grpc_ lparams0)
                          (allow_grpc_ p)).
Proof.
  intros options prediction port. split.
  - intros e He. unfold Parse, Parse_options, Parse_setup.
    fold port. rewrite He. reflexivity.
  - intros p rest H.
    destruct (Parse_steps stod getenv lparams0 argv p rest H)
      as (st0 & st & Hsetup & Hrun & Hvalidate).
    destruct (Parse_validate_fields st p Hvalidate)
      as (_ & _ & Hh & Hg & Hv & Hp & _).
    destruct (Parse_setup_inv getenv lparams0 st0 Hsetup) as (v & Hport & Hst0).
    fold prediction in Hst0.
    assert (H0 : vertex_ai_port_ (lparams st0) = v
                 /\ allow_vertex_ai_ (lparams st0)
                    = (if prediction then true else allow_vertex_ai_ lparams0)
                 /\ allow_http_ (lparams st0)
                    = (if prediction then false else allow_http_ lparams0)
                 /\ allow_grpc_ (lparams st0)
                    = (if prediction then false else allow_grpc_ lparams0)).
    { rewrite Hst0. destruct lparams0. destruct prediction;
        repeat split; reflexivity. }
    destruct H0 as (Hp0 & Hv0 & Hh0 & Hg0).
    exists v. split; [exact Hport |].
    rewrite Hh, Hg, Hv, Hp, <- Hh0, <- Hg0, <- Hv0. rewrite <- Hp0 at 1.
    split; [| split; [| split]].
    + apply (run_switch_last_wins stod
               (fun st => vertex_ai_port_ (lparams st))
               OPTION_VERTEX_AI_PORT ParseOption_int); [| exact Hrun].
      intros flag optarg s s' Hs.
      pose proof (Parse_switch_single_valued stod flag optarg s s' Hs)
        as Hstep.
      do 5 apply proj2 in Hstep. exact (proj1 Hstep).
    + apply (run_switch_last_wins stod
               (fun st => allow_vertex_ai_ (lparams st))
               OPTION_ALLOW_VERTEX_AI ParseOption_bool); [| exact Hrun].
      intros flag optarg s s' Hs.
      pose proof (Parse_switch_single_valued stod flag optarg s s' Hs)
        as Hstep.
      do 4 apply proj2 in Hstep. exact (proj1 Hstep).
    + apply (run_switch_last_wins stod
               (fun st => allow_http_ (lparams st))
               OPTION_ALLOW_HTTP ParseOption_bool); [| exact Hrun].
      intros flag optarg s s' Hs.
      pose proof (Parse_switch_single_valued stod flag optarg s s' Hs)
        as Hstep.
      do 2 apply proj2 in Hstep. exact (proj1 Hstep).
    + apply (run_switch_last_wins stod
               (fun st => allow_grpc_ (lparams st))
               OPTION_ALLOW_GRPC ParseOption_bool); [| exact Hrun].
      intros flag optarg s s' Hs.
      pose proof (Parse_switch_single_valued stod flag optarg s s' Hs)
        as Hstep.
      do 3 apply proj2 in Hstep. exact (proj1 Hstep).
Qed.

End ParseFields.

Lemma Parse_http_address_moves_metrics_witness :
  exists p,
    Parse sample_stod empty_environment sample_lparams
          ["tritonserver"; "--http-address=127.0.0.1"; "--allow-metrics=1";
           "--http-address"; "localhost"]
    = Ok (p, [])
    /\ http_address_ p = "localhost"
    /\ metrics_address_ p = "localhost".
Proof.
  eexists. split; [vm_compute; reflexivity |].
  apply (Parse_http_address_moves_metrics sample_stod empty_environment
           sample_lparams
           ["tritonserver"; "--http-address=127.0.0.1"; "--allow-metrics=1";
            "--http-address"; "localhost"] _ []).
  vm_compute. reflexivity.
Defined.

Lemma Parse_metrics_flags_witness :
  exists p gpu cpu,
    Parse sample_stod empty_environment sample_lparams
          ["tritonserver"; "--allow-gpu-metrics=true"; "--allow-metrics=false"]
    = Ok (p, [])
    /\ last_parsed ParseOption_bool ["false"] true (allow_metrics_ p)
    /\ last_parsed ParseOption_bool ["true"] true gpu
    /\ last_parsed ParseOption_bool [] true cpu
    /\ allow_gpu_metrics_ p = gpu && allow_metrics_ p
    /\ allow_cpu_metrics_ p = cpu && allow_metrics_ p.
Proof.
  assert (Hp : {p | Parse sample_stod empty_environment sample_lparams
                      ["tritonserver"; "--allow-gpu-metrics=true";
                       "--allow-metrics=false"]
                    = Ok (p, [])})
    by (eexists; vm_compute; reflexivity).
  destruct Hp as [p Hp]. exists p.
  destruct (Parse_metrics_flags sample_stod empty_environment sample_lparams
              _ p [] Hp) as (gpu & cpu & H).
  exists gpu, cpu. split; [exact Hp | exact H].
Defined.

Lemma Parse_strict_model_config_witness :
  exists p strict,
    Parse sample_stod empty_environment sample_lparams
          ["tritonserver"; "--disable-auto-complete-config";
           "--strict-model-config=false"]
    = Ok (p, [])
    /\ last_parsed ParseOption_bool ["false"] false strict
    /\ strict_model_config_ p = true || strict.
Proof.
  assert (Hp : {p | Parse sample_stod empty_environment sample_lparams
                      ["tritonserver"; "--disable-auto-complete-config";
                       "--strict-model-config=false"]
                    = Ok (p, [])})
    by (eexists; vm_compute; reflexivity).
  destruct Hp as [p Hp]. exists p.
  destruct (Parse_strict_model_config sample_stod empty_environment
              sample_lparams _ p [] Hp) as (strict & H).
  exists strict. split; [exact Hp | exact H].
Defined.

Lemma Parse_vertex_ai_environment_witness :
  exists p v,
    Parse sample_stod prediction_environment sample_lparams
          ["tritonserver"; "--allow-grpc=true"]
    = Ok (p, [])
    /\ ParseOption_int "9000" = Ok v
    /\ last_parsed ParseOption_int [] v (vertex_ai_port_ p)
    /\ last_parsed ParseOption_bool [] true (allow_vertex_ai_ p)
    /\ last_parsed ParseOption_bool [] false (allow_http_ p)
    /\ last_parsed ParseOption_bool ["true"] false (allow_grpc_ p).
Proof.
  assert (Hp : {p | Parse sample_stod prediction_environment sample_lparams
                      ["tritonserver"; "--allow-grpc=true"]
                    = Ok (p, [])})
    by (eexists; vm_compute; reflexivity).
  destruct Hp as [p Hp]. exists p.
  destruct (proj2 (Parse_vertex_ai_environment sample_stod
                     prediction_environment sample_lparams
                     ["tritonserver"; "--allow-grpc=true"])
                  p [] Hp) as (v & H).
  exists v. split; [exact Hp | exact H].
Defined.

(** ** The cache settings and the rate-limit resources *)

Lemma map_find_assign {V : Type} (k : string) (v : V)
    (m : list (string * V)) :
  map_find k (map_assign k v m) = Some v.
Proof.
  induction m as [| [k' v'] m IH]; cbn [map_assign map_find].
  - rewrite String.eqb_refl. reflexivity.
  - destruct (k' == k) eqn:E; cbn [map_find]; rewrite E; [reflexivity |].
    exact IH.
Qed.

Lemma map_find_assign_other {V : Type} (k k' : string) (v : V)
    (m : list (string * V)) :
  (k == k') = false ->
  map_find k' (map_assign k v m) = map_find k' m.
Proof.
  intro Hk.
  induction m as [| [k1 v1] m IH]; cbn [map_assign map_find].
  - rewrite Hk. reflexivity.
  - destruct (k1 == k) eqn:E; cbn [map_find].
    + apply String.eqb_eq in E. subst k1. rewrite Hk. reflexivity.
    + destruct (k1 == k'); [reflexivity | exact IH].
Qed.

Lemma settings_of_push_back (name k : string) (x : string * string)
    (m : list (string * list (string * string))) :
  settings_of name (map_push_back k x m)
  = (settings_of name m ++ (if k == name then [x] else []))%list.
Proof.
  unfold settings_of.
  induction m as [| [k1 v1] m IH]; cbn [map_push_back map_find].
  - destruct (k == name); reflexivity.
  - destruct (k1 == k) eqn:E; cbn [map_find].
    + apply String.eqb_eq in E. subst k1.
      destruct (k == name); [reflexivity |].
      rewrite app_nil_r. reflexivity.
    + destruct (k1 == name) eqn:E1; [| exact IH].
      apply String.eqb_eq in E1. subst k1.
      rewrite (eqb_string_sym k name), E, app_nil_r. reflexivity.
Qed.

Lemma not_supplied_forallb (F : TritonOptionId)
    (options : list (TritonOptionId * string)) :
  supplied F options = false ->
  forallb (fun o => negb (is_flag F o)) options = true.
Proof.
  unfold supplied.
  induction options as [| o options IH]; cbn [existsb forallb];
    [reflexivity |].
  intro H. apply orb_false_iff in H. destruct H as [Ho Hrest].
  rewrite Ho, (IH Hrest). reflexivity.
Qed.

Lemma supplied_arguments (F : TritonOptionId)
    (options : list (TritonOptionId * string)) :
  supplied F options = true -> arguments_of F options <> [].
Proof.
  unfold supplied, arguments_of.
  induction options as [| o options IH]; cbn [existsb filter];
    [discriminate |].
  destruct (is_flag F o); [discriminate |]. exact IH.
Qed.

Lemma not_supplied_arguments (F : TritonOptionId)
    (options : list (TritonOptionId * string)) :
  supplied F options = false -> arguments_of F options = [].
Proof.
  unfold supplied, arguments_of.
  induction options as [| o options IH]; cbn [existsb filter];
    [reflexivity |].
  destruct (is_flag F o); [discriminate |]. exact IH.
Qed.

(** The value read by a parser followed by a conversion. *)
Lemma last_parsed_converted {A B : Type} (parse : string -> Result A)
    (g : A -> B) (args : list string) (x0 : A) (default v : B) :
  args <> [] ->
  last_parsed (fun optarg => x <- parse optarg ;; Ok (g x)) args default v ->
  exists x, last_parsed parse args x0 x /\ v = g x.
Proof.
  intros Hargs (values & Hvalues & Hv). subst v.
  revert x0 default Hargs.
  induction Hvalues as [| a y args values Hy Hrest IH];
    intros x0 default Hargs; [contradiction Hargs; reflexivity |].
  destruct (parse a) as [x |] eqn:Hx; cbn [bind] in Hy; [| discriminate Hy].
  injection Hy as <-.
  destruct args as [| a' args].
  - inversion Hrest; subst. exists x. split; [| reflexivity].
    exists [x]. split; [repeat constructor; exact Hx | reflexivity].
  - destruct (IH x (g x)) as (x' & Hlast & Hg); [discriminate |].
    exists x'. split.
    + apply (last_parsed_cons parse a _ x0 x x' Hx Hlast).
    + inversion Hrest; subst.
      match goal with
      | |- last (_ :: ?y :: ?l) _ = _ =>
          change (last (y :: l) default = g x')
      end.
      rewrite <- Hg. apply last_cons_default.
Qed.

Section CacheProperties.

Context {double : Type} (stod : string -> Result double).

(** A member that the cases let through by [among] leave alone, or
    assign with the value [parse] reads when the case is the one of
    [F]. *)
Lemma run_switch_last_wins_among {A : Type}
    (among : TritonOptionId * string -> bool) (f : ParseState -> A)
    (F : TritonOptionId) (parse : string -> Result A) :
  (forall flag optarg st st',
      among (flag, optarg) = true ->
      Parse_switch stod flag optarg st = Ok st' ->
      if is_flag F (flag, optarg) then parse optarg = Ok (f st')
      else f st' = f st) ->
  forall (options : list (TritonOptionId * string)) (st st' : ParseState),
    forallb among options = true ->
    run_switch stod options st = Ok st' ->
    last_parsed parse (arguments_of F options) (f st) (f st').
Proof.
  intros Hstep.
  induction options as [| [flag optarg] options IH]; intros st st' Hall H.
  - injection H as <-. apply last_parsed_nil.
  - cbn [run_switch] in H. cbn [forallb] in Hall.
    apply andb_true_iff in Hall. destruct Hall as [Hthis Hall].
    destruct (Parse_switch stod flag optarg st) as [st1 | e] eqn:E;
      cbn [bind] in H; [| discriminate H].
    specialize (IH st1 st' Hall H).
    specialize (Hstep flag optarg st st1 Hthis E).
    unfold arguments_of. cbn [filter].
    destruct (is_flag F (flag, optarg)).
    + cbn [map snd]. apply (last_parsed_cons parse _ _ _ (f st1) _ Hstep IH).
    + rewrite <- Hstep. exact IH.
Qed.

(** A member that the cases let through by [among] leave alone. *)
Lemma run_switch_unchanged_among {A : Type}
    (among : TritonOptionId * string -> bool) (f : ParseState -> A) :
  (forall flag optarg st st',
      among (flag, optarg) = true ->
      Parse_switch stod flag optarg st = Ok st' ->
      f st' = f st) ->
  forall (options : list (TritonOptionId * string)) (st st' : ParseState),
    forallb among options = true ->
    run_switch stod options st = Ok st' ->
    f st' = f st.
Proof.
  intros Hstep.
  induction options as [| [flag optarg] options IH]; intros st st' Hall H.
  - injection H as <-. reflexivity.
  - cbn [run_switch] in H. cbn [forallb] in Hall.
    apply andb_true_iff in Hall. destruct Hall as [Hthis Hall].
    destruct (Parse_switch stod flag optarg st) as [st1 | e] eqn:E;
      cbn [bind] in H; [| discriminate H].
    rewrite (IH st1 st' Hall H). exact (Hstep flag optarg st st1 Hthis E).
Qed.

(** What one [case] does to the cache settings and to the list of
    rate-limit resources. *)
Lemma Parse_switch_collections (flag : TritonOptionId) (optarg : string)
    (st st' : ParseState) :
  Parse_switch stod flag optarg st = Ok st' ->
  (if is_flag OPTION_RESPONSE_CACHE_BYTE_SIZE (flag, optarg)
   then exists v,
       ParseOption_int64_t optarg = Ok v
       /\ cache_config_settings_ (lparams st')
          = map_assign "local" [("size", to_string v)]
                       (cache_config_settings_ (lparams st))
   else if is_flag OPTION_CACHE_CONFIG (flag, optarg)
        then exists cache_name key value,
            ParseCacheConfigOption optarg = Ok (cache_name, key, value)
            /\ cache_config_settings_ (lparams st')
               = map_push_back cache_name (key, value)
                               (cache_config_settings_ (lparams st))
        else cache_config_settings_ (lparams st')
             = cache_config_settings_ (lparams st))
  /\ (if is_flag OPTION_RATE_LIMIT_RESOURCE (flag, optarg)
      then exists resource,
          ParseRateLimiterResourceOption optarg = Ok resource
          /\ rate_limit_resources_ (lparams st')
             = (rate_limit_resources_ (lparams st) ++ [resource])%list
      else rate_limit_resources_ (lparams st')
           = rate_limit_resources_ (lparams st)).
Proof.
  intros H.
  destruct (TritonOptionId_eq_dec flag OPTION_RATE_LIMIT_RESOURCE) as [-> | Hne].
  - destruct st as [p ? ? ? ?]; destruct p.
    cbv beta iota zeta delta [Parse_switch] in H. cbn in H |- *.
    destruct (ParseRateLimiterResourceOption optarg) as [resource | e];
      cbn [catch_invalid_argument bind] in H.
    + injection H as <-. split; [reflexivity |].
      exists resource. split; reflexivity.
    + destruct e; discriminate H.
  - switch_cases H flag st st'; try (exfalso; apply Hne; reflexivity);
      split; try reflexivity;
      try (eexists; split; reflexivity);
      try (do 3 eexists; split; reflexivity).
Qed.

Lemma run_switch_cache_size (options : list (TritonOptionId * string))
    (st st' : ParseState) :
  supplied OPTION_CACHE_CONFIG options = false ->
  run_switch stod options st = Ok st' ->
  last_parsed local_size_setting
              (arguments_of OPTION_RESPONSE_CACHE_BYTE_SIZE options)
              (map_find "local" (cache_config_settings_ (lparams st)))
              (map_find "local" (cache_config_settings_ (lparams st')))
  /\ forall name,
      ("local" == name) = false ->
      map_find name (cache_config_settings_ (lparams st'))
      = map_find name (cache_config_settings_ (lparams st)).
Proof.
  intros Hconfig Hrun.
  apply not_supplied_forallb in Hconfig.
  split.
  - apply (run_switch_last_wins_among
             (fun o => negb (is_flag OPTION_CACHE_CONFIG o))
             (fun st => map_find "local" (cache_config_settings_ (lparams st)))
             OPTION_RESPONSE_CACHE_BYTE_SIZE local_size_setting);
      [| exact Hconfig | exact Hrun].
    intros flag optarg s s' Hamong Hs.
    pose proof (proj1 (Parse_switch_collections flag optarg s s' Hs)) as Hstep.
    destruct (is_flag OPTION_RESPONSE_CACHE_BYTE_SIZE (flag, optarg)).
    + destruct Hstep as (v & Hv & Heq).
      unfold local_size_setting. rewrite Hv, Heq. cbn [bind].
      rewrite map_find_assign. reflexivity.
    + apply negb_true_iff in Hamong. rewrite Hamong in Hstep.
      rewrite Hstep. reflexivity.
  - intros name Hname.
    refine (run_switch_unchanged_among
              (fun o => negb (is_flag OPTION_CACHE_CONFIG o))
              (fun st => map_find name (cache_config_settings_ (lparams st)))
              _ options st st' Hconfig Hrun).
    intros flag optarg s s' Hamong Hs.
    pose proof (proj1 (Parse_switch_collections flag optarg s s' Hs)) as Hstep.
    destruct (is_flag OPTION_RESPONSE_CACHE_BYTE_SIZE (flag, optarg)).
    + destruct Hstep as (v & _ & Heq). rewrite Heq.
      apply map_find_assign_other. exact Hname.
    + apply negb_true_iff in Hamong. rewrite Hamong in Hstep.
      rewrite Hstep. reflexivity.
Qed.

End CacheProperties.

Section CollectionProperties.

Context {double : Type} (stod : string -> Result double).

Lemma run_switch_cache_config (options : list (TritonOptionId * string)) :
  forall st st' : ParseState,
    supplied OPTION_RESPONSE_CACHE_BYTE_SIZE options = false ->
    run_switch stod options st = Ok st' ->
    exists settings,
      Forall2 (fun optarg setting =>
                 ParseCacheConfigOption optarg = Ok setting)
              (arguments_of OPTION_CACHE_CONFIG options) settings
      /\ forall name,
          settings_of name (cache_config_settings_ (lparams st'))
          = (settings_of name (cache_config_settings_ (lparams st))
             ++ map (fun setting => (snd (fst setting), snd setting))
                    (filter (fun setting => fst (fst setting) == name)
                            settings))%list.
Proof.
  induction options as [| [flag optarg] options IH]; intros st st' Hsize H.
  - injection H as <-. exists []. split; [constructor |].
    intro name. cbn [filter map]. rewrite app_nil_r. reflexivity.
  - cbn [run_switch] in H.
    unfold supplied in Hsize. cbn [existsb] in Hsize.
    apply orb_false_iff in Hsize. destruct Hsize as [Hthis Hsize].
    destruct (Parse_switch stod flag optarg st) as [st1 | e] eqn:E;
      cbn [bind] in H; [| discriminate H].
    destruct (IH st1 st' Hsize H) as (settings & Hsettings & Heq).
    pose proof (proj1 (Parse_switch_collections stod flag optarg st st1 E))
      as Hstep.
    rewrite Hthis in Hstep.
    unfold arguments_of. cbn [filter].
    destruct (is_flag OPTION_CACHE_CONFIG (flag, optarg)).
    + destruct Hstep as (cache_name & key & value & Hparse & Hst1).
      exists ((cache_name, key, value) :: settings). split.
      * cbn [map snd]. constructor; assumption.
      * intro name. rewrite Heq, Hst1, settings_of_push_back.
        cbn [filter fst snd].
        destruct (cache_name == name); cbn [map fst snd].
        -- rewrite <- app_assoc. reflexivity.
        -- rewrite app_nil_r. reflexivity.
    + exists settings. split; [exact Hsettings |].
      intro name. rewrite Heq, Hstep. reflexivity.
Qed.

Lemma run_switch_rate_limit_resources
    (options : list (TritonOptionId * string)) :
  forall st st' : ParseState,
    run_switch stod options st = Ok st' ->
    exists resources,
      Forall2 (fun optarg resource =>
                 ParseRateLimiterResourceOption optarg = Ok resource)
              (arguments_of OPTION_RATE_LIMIT_RESOURCE options) resources
      /\ rate_limit_resources_ (lparams st')
         = (rate_limit_resources_ (lparams st) ++ resources)%list.
Proof.
  induction options as [| [flag optarg] options IH]; intros st st' H.
  - injection H as <-. exists []. split; [constructor |].
    rewrite app_nil_r. reflexivity.
  - cbn [run_switch] in H.
    destruct (Parse_switch stod flag optarg st) as [st1 | e] eqn:E;
      cbn [bind] in H; [| discriminate H].
    destruct (IH st1 st' H) as (resources & Hresources & Heq).
    pose proof (proj2 (Parse_switch_collections stod flag optarg st st1 E))
      as Hstep.
    unfold arguments_of. cbn [filter].
    destruct (is_flag OPTION_RATE_LIMIT_RESOURCE (flag, optarg)).
    + destruct Hstep as (resource & Hparse & Hst1).
      exists (resource :: resources). split.
      * cbn [map snd]. constructor; assumption.
      * rewrite Heq, Hst1, <- app_assoc. reflexivity.
    + exists resources. split; [exact Hresources |].
      rewrite Heq, Hstep. reflexivity.
Qed.

(** The state the option loop starts from keeps the collections of the
    initial parameter set, and no presence marker is set. *)
Lemma Parse_setup_collections (getenv : string -> option string)
    (lparams0 : TritonServerParameters) (st0 : ParseState) :
  Parse_setup getenv lparams0 = Ok st0 ->
  cache_config_settings_ (lparams st0) = cache_config_settings_ lparams0
  /\ rate_limit_resources_ (lparams st0) = rate_limit_resources_ lparams0
  /\ cache_size_present st0 = false
  /\ cache_config_present st0 = false.
Proof.
  intro Hsetup.
  destruct (Parse_setup_inv getenv lparams0 st0 Hsetup) as (v & _ & ->).
  destruct lparams0.
  destruct (GetEnvironmentVariableOrDefault getenv "AIP_MODE" ""
            == "PREDICTION"); repeat split; reflexivity.
Qed.

Lemma Parse_validate_cache_flags (st : ParseState)
    (p : TritonServerParameters) :
  Parse_validate st = Ok p ->
  cache_size_present st && cache_config_present st = false
  /\ enable_cache_ p = cache_size_present st || cache_config_present st.
Proof.
  intro H. split; [| exact (proj2 (proj2 (proj2 (Parse_validate_result st p H))))].
  unfold Parse_validate in H.
  destruct (cache_size_present st && cache_config_present st);
    [discriminate H | reflexivity].
Qed.

Variable getenv : string -> option string.
Variable lparams0 : TritonServerParameters.

(** After a parse without exception in which
    [--response-cache-byte-size] was given, the cache is enabled and
    the settings of the cache named [local] are the single setting
    [size], whose value is the decimal writing of the number read from
    the last such argument (not the argument as it was typed); whatever
    settings [local] had are replaced, and the settings of every other
    cache are the initial ones. *)
Theorem Parse_response_cache_byte_size (argv : list string)
    (p : TritonServerParameters) (rest : list string) :
  Parse stod getenv lparams0 argv = Ok (p, rest) ->
  let options := scanned_options (tl argv) in
  supplied OPTION_RESPONSE_CACHE_BYTE_SIZE options = true ->
  exists v,
    last_parsed ParseOption_int64_t
                (arguments_of OPTION_RESPONSE_CACHE_BYTE_SIZE options) 0 v
    /\ map_find "local" (cache_config_settings_ p)
       = Some [("size", to_string v)]
    /\ enable_cache_ p = true
    /\ forall name,
        ("local" == name) = false ->
        map_find name (cache_config_settings_ p)
        = map_find name (cache_config_settings_ lparams0).
Proof.
  intros H options Hsize.
  destruct (Parse_steps stod getenv lparams0 argv p rest H)
    as (st0 & st & Hsetup & Hrun & Hvalidate).
  destruct (Parse_validate_fields st p Hvalidate)
    as (_ & _ & _ & _ & _ & _ & _ & _ & _ & _ & _ & Hsettings & _).
  destruct (Parse_validate_cache_flags st p Hvalidate) as (Hexcl & Henable).
  destruct (Parse_setup_collections getenv lparams0 st0 Hsetup)
    as (Hs0 & _ & Hsize0 & Hconfig0).
  destruct (run_switch_cache_present stod _ _ _ Hrun) as (Hsp & Hcp).
  fold options in Hsp, Hcp.
  rewrite Hsize0, Hsize in Hsp. rewrite Hconfig0 in Hcp.
  cbn [orb] in Hsp, Hcp.
  rewrite Hsp, Hcp in Hexcl, Henable. cbn [andb orb] in Hexcl, Henable.
  destruct (run_switch_cache_size stod options st0 st Hexcl Hrun)
    as (Hlocal & Hother).
  destruct (last_parsed_converted ParseOption_int64_t
              (fun v => Some [("size", to_string v)]) _ 0 _ _
              (supplied_arguments _ _ Hsize) Hlocal)
    as (v & Hv & Hfind).
  exists v. rewrite Hsettings.
  split; [exact Hv | split; [exact Hfind | split; [exact Henable |]]].
  intros name Hname. rewrite (Hother name Hname), Hs0. reflexivity.
Qed.

(** After a parse without exception in which
    [--response-cache-byte-size] was not given, the settings of every
    cache are its initial settings followed by the settings read from
    the [--cache-config] arguments that name the cache, in the order of
    the tokens; a setting given twice is recorded twice. *)
Theorem Parse_cache_config_appended (argv : list string)
    (p : TritonServerParameters) (rest : list string) :
  Parse stod getenv lparams0 argv = Ok (p, rest) ->
  let options := scanned_options (tl argv) in
  supplied OPTION_RESPONSE_CACHE_BYTE_SIZE options = false ->
  exists settings,
    Forall2 (fun optarg setting => ParseCacheConfigOption optarg = Ok setting)
            (arguments_of OPTION_CACHE_CONFIG options) settings
    /\ forall name,
        settings_of name (cache_config_settings_ p)
        = (settings_of name (cache_config_settings_ lparams0)
           ++ map (fun setting => (snd (fst setting), snd setting))
                  (filter (fun setting => fst (fst setting) == name)
                          settings))%list.
Proof.
  intros H options Hsize.
  destruct (Parse_steps stod getenv lparams0 argv p rest H)
    as (st0 & st & Hsetup & Hrun & Hvalidate).
  destruct (Parse_validate_fields st p Hvalidate)
    as (_ & _ & _ & _ & _ & _ & _ & _ & _ & _ & _ & Hsettings & _).
  destruct (Parse_setup_collections getenv lparams0 st0 Hsetup)
    as (Hs0 & _).
  destruct (run_switch_cache_config options st0 st Hsize Hrun)
    as (settings & Hparsed & Heq).
  exists settings. split; [exact Hparsed |].
  intro name. rewrite Hsettings, Heq, Hs0. reflexivity.
Qed.

(** After a parse without exception the list of rate-limit
    resources is the initial list followed by one entry for every
    [--rate-limit-resource], in the order of the tokens: the triple the
    resource parser reads from the argument.  Nothing is merged: a
    resource given twice is listed twice. *)
Theorem Parse_rate_limit_resources_appended (argv : list string)
    (p : TritonServerParameters) (rest : list string) :
  Parse stod getenv lparams0 argv = Ok (p, rest) ->
  exists resources,
    Forall2 (fun optarg resource =>
               ParseRateLimiterResourceOption optarg = Ok resource)
            (arguments_of OPTION_RATE_LIMIT_RESOURCE
                          (scanned_options (tl argv)))
            resources
    /\ rate_limit_resources_ p
       = (rate_limit_resources_ lparams0 ++ resources)%list.
Proof.
  intros H.
  destruct (Parse_steps stod getenv lparams0 argv p rest H)
    as (st0 & st & Hsetup & Hrun & Hvalidate).
  destruct (Parse_validate_fields st p Hvalidate)
    as (_ & _ & _ & _ & _ & _ & _ & _ & _ & _ & Hr & _).
  destruct (Parse_setup_collections getenv lparams0 st0 Hsetup)
    as (_ & Hr0 & _).
  destruct (run_switch_rate_limit_resources _ st0 st Hrun)
    as (resources & Hparsed & Heq).
  exists resources. split; [exact Hparsed |].
  rewrite Hr, Heq, Hr0. reflexivity.
Qed.

End CollectionProperties.

Lemma Parse_response_cache_byte_size_witness :
  exists p v,
    Parse sample_stod empty_environment sample_lparams
          ["tritonserver"; "--response-cache-byte-size=1x";
           "--response-cache-byte-size"; " +0042 bytes"]
    = Ok (p, [])
    /\ last_parsed ParseOption_int64_t ["1x"; " +0042 bytes"] 0 v
    /\ map_find "local" (cache_config_settings_ p)
       = Some [("size", to_string v)]
    /\ enable_cache_ p = true
    /\ forall name,
        ("local" == name) = false ->
        map_find name (cache_config_settings_ p)
        = map_find name (cache_config_settings_ sample_lparams).
Proof.
  assert (Hp : {p | Parse sample_stod empty_environment sample_lparams
                      ["tritonserver"; "--response-cache-byte-size=1x";
                       "--response-cache-byte-size"; " +0042 bytes"]
                    = Ok (p, [])})
    by (eexists; vm_compute; reflexivity).
  destruct Hp as [p Hp]. exists p.
  destruct (Parse_response_cache_byte_size sample_stod empty_environment
              sample_lparams _ p [] Hp eq_refl) as (v & H).
  exists v. split; [exact Hp | exact H].
Defined.

Lemma Parse_cache_config_appended_witness :
  exists p settings,
    Parse sample_stod empty_environment sample_lparams
          ["tritonserver"; "--cache-config=local,size=1";
           "--cache-config"; "redis,host=h"; "--cache-config=local,size=1"]
    = Ok (p, [])
    /\ Forall2 (fun optarg setting =>
                  ParseCacheConfigOption optarg = Ok setting)
               ["local,size=1"; "redis,host=h"; "local,size=1"] settings
    /\ forall name,
        settings_of name (cache_config_settings_ p)
        = (settings_of name (cache_config_settings_ sample_lparams)
           ++ map (fun setting => (snd (fst setting), snd setting))
                  (filter (fun setting => fst (fst setting) == name)
                          settings))%list.
Proof.
  assert (Hp : {p | Parse sample_stod empty_environment sample_lparams
                      ["tritonserver"; "--cache-config=local,size=1";
                       "--cache-config"; "redis,host=h";
                       "--cache-config=local,size=1"]
                    = Ok (p, [])})
    by (eexists; vm_compute; reflexivity).
  destruct Hp as [p Hp]. exists p.
  destruct (Parse_cache_config_appended sample_stod empty_environment
              sample_lparams _ p [] Hp eq_refl) as (settings & H).
  exists settings. split; [exact Hp | exact H].
Defined.

Lemma Parse_rate_limit_resources_appended_witness :
  exists p resources,
    Parse sample_stod empty_environment sample_lparams
          ["tritonserver"; "--rate-limit-resource=R1:4";
           "--rate-limit-resource"; "R1:4"; "--rate-limit-resource=R2:1:0"]
    = Ok (p, [])
    /\ Forall2 (fun optarg resource =>
                  ParseRateLimiterResourceOption optarg = Ok resource)
               ["R1:4"; "R1:4"; "R2:1:0"] resources
    /\ rate_limit_resources_ p
       = (rate_limit_resources_ sample_lparams ++ resources)%list.
Proof.
  assert (Hp : {p | Parse sample_stod empty_environment sample_lparams
                      ["tritonserver"; "--rate-limit-resource=R1:4";
                       "--rate-limit-resource"; "R1:4";
                       "--rate-limit-resource=R2:1:0"]
                    = Ok (p, [])})
    by (eexists; vm_compute; reflexivity).
  destruct Hp as [p Hp]. exists p.
  destruct (Parse_rate_limit_resources_appended sample_stod empty_environment
              sample_lparams _ p [] Hp) as (resources & H).
  exists resources. split; [exact Hp | exact H].
Defined.

(** ** Words and numbers as option values *)

(** A character that [tolower] maps to a lower-case letter does not
    start the subject of a conversion to an integer. *)
Lemma strto_subject_letter (c : ascii) (s : string) :
  ((97 <=? nat_of_ascii (tolower c))
   && (nat_of_ascii (tolower c) <=? 122))%nat = true ->
  strto_subject (String c s) = None.
Proof.
  destruct c as [[] [] [] [] [] [] [] []]; intro H;
    solve [discriminate H | reflexivity].
Qed.

(** [tolower] leaves a character alone unless it makes a letter of it. *)
Lemma tolower_digit (c : ascii) :
  digit_value (tolower c) <> None -> tolower c = c.
Proof.
  destruct c as [[] [] [] [] [] [] [] []]; intro H;
    solve [reflexivity | exfalso; apply H; reflexivity].
Qed.

Lemma transform_tolower_word (arg : string) (c : ascii) (s : string) :
  transform tolower arg = String c s ->
  ((97 <=? nat_of_ascii c) && (nat_of_ascii c <=? 122))%nat = true ->
  strto_subject arg = None.
Proof.
  destruct arg as [| c' arg']; cbn [transform]; intros H Hc;
    [discriminate H |].
  injection H as Hc' _. subst c. apply strto_subject_letter. exact Hc.
Qed.

Lemma transform_tolower_digit (arg : string) (c : ascii) :
  transform tolower arg = String c "" ->
  digit_value c <> None ->
  arg = String c "".
Proof.
  destruct arg as [| c' arg']; cbn [transform]; intros H Hc;
    [discriminate H |].
  injection H as Hc' Harg. subst c.
  destruct arg'; [| discriminate Harg].
  rewrite (tolower_digit c' Hc). reflexivity.
Qed.

(** The six spellings [ParseOption<bool>] accepts. *)
Lemma ParseOption_bool_spellings (arg : string) (b : bool) :
  ParseOption_bool arg = Ok b ->
  (b = true
   /\ (transform tolower arg = "true" \/ transform tolower arg = "on"
       \/ transform tolower arg = "1"))
  \/ (b = false
      /\ (transform tolower arg = "false" \/ transform tolower arg = "off"
          \/ transform tolower arg = "0")).
Proof.
  pose proof (ParseOption_bool_cases arg) as Hcases. cbv zeta in Hcases.
  rewrite Hcases. clear Hcases.
  destruct (transform tolower arg == "true") eqn:E1;
    [apply String.eqb_eq in E1; intro H; injection H as <-; tauto |].
  destruct (transform tolower arg == "on") eqn:E2;
    [apply String.eqb_eq in E2; intro H; injection H as <-; tauto |].
  destruct (transform tolower arg == "1") eqn:E3;
    [apply String.eqb_eq in E3; intro H; injection H as <-; tauto |].
  destruct (transform tolower arg == "false") eqn:E4;
    [apply String.eqb_eq in E4; intro H; injection H as <-; tauto |].
  destruct (transform tolower arg == "off") eqn:E5;
    [apply String.eqb_eq in E5; intro H; injection H as <-; tauto |].
  destruct (transform tolower arg == "0") eqn:E6;
    [apply String.eqb_eq in E6; intro H; injection H as <-; tauto |].
  intro H. discriminate H.
Qed.

(** [ParseIntBoolOption], which reads the argument of
    [--log-verbose], against [ParseOption<bool>]: of the six spellings
    of a boolean, [true] and [1] give 1 and [false] and [0] give 0, in
    any letter case, while [on] and [off] are refused with
    [std::invalid_argument]. *)
Theorem ParseIntBoolOption_boolean_spellings (arg : string) (b : bool) :
  ParseOption_bool arg = Ok b ->
  let larg := transform tolower arg in
  ParseIntBoolOption arg
  = if (larg == "on") || (larg == "off") then Throw std_invalid_argument
    else Ok (if b then 1 else 0).
Proof.
  intros H larg. subst larg. unfold ParseIntBoolOption.
  destruct (ParseOption_bool_spellings arg b H)
    as [[-> [E | [E | E]]] | [-> [E | [E | E]]]];
    rewrite E; reflexivity.
Qed.

Lemma ParseIntBoolOption_boolean_spellings_witness :
  ParseIntBoolOption "TRUE" = Ok 1
  /\ ParseIntBoolOption "On" = Throw std_invalid_argument.
Proof.
  split.
  - apply (ParseIntBoolOption_boolean_spellings "TRUE" true). reflexivity.
  - apply (ParseIntBoolOption_boolean_spellings "On" true). reflexivity.
Defined.

(** [ParseTraceLevelOption], which reads the argument of
    [--trace-level], against [ParseOption<bool>]: of the six spellings
    of a boolean, [true] and [on] stand for the timestamps level and
    [false] and [off] for the disabled one, in any letter case, while
    [1] and [0] are refused, with an exception that quotes the argument
    in lower case. *)
Theorem ParseTraceLevelOption_boolean_spellings (arg : string) (b : bool) :
  ParseOption_bool arg = Ok b ->
  let larg := transform tolower arg in
  ParseTraceLevelOption arg
  = if (larg == "1") || (larg == "0")
    then Throw (ParseException (InvalidTraceLevel larg))
    else Ok (if b then TRITONSERVER_TRACE_LEVEL_TIMESTAMPS
             else TRITONSERVER_TRACE_LEVEL_DISABLED).
Proof.
  intros H larg. subst larg. unfold ParseTraceLevelOption.
  destruct (ParseOption_bool_spellings arg b H)
    as [[-> [E | [E | E]]] | [-> [E | [E | E]]]];
    rewrite E; reflexivity.
Qed.

Lemma ParseTraceLevelOption_boolean_spellings_witness :
  ParseTraceLevelOption "ON" = Ok TRITONSERVER_TRACE_LEVEL_TIMESTAMPS
  /\ ParseTraceLevelOption "0"
     = Throw (ParseException (InvalidTraceLevel "0")).
Proof.
  split.
  - apply (ParseTraceLevelOption_boolean_spellings "ON" true). reflexivity.
  - apply (ParseTraceLevelOption_boolean_spellings "0" false). reflexivity.
Defined.

Section ValueProperties.

Context {double : Type} (stod : string -> Result double).

(** The two reuse-port flags are boolean flags in the option
    table, but their cases read the argument with [ParseOption<int>]:
    of the six spellings of a boolean only [1] and [0] are accepted, and
    [true], [false], [on] and [off], in any letter case, make the case
    throw [std::invalid_argument]. *)
Theorem reuse_port_refuses_boolean_words (optarg : string) (b : bool)
    (st : ParseState) :
  ParseOption_bool optarg = Ok b ->
  let larg := transform tolower optarg in
  let outcome :=
    if (larg == "1") || (larg == "0") then Ok st
    else Throw std_invalid_argument in
  In (mkOption OPTION_REUSE_HTTP_PORT "reuse-http-port" ArgBool)
     recognized_options_
  /\ In (mkOption OPTION_REUSE_GRPC_PORT "reuse-grpc-port" ArgBool)
        recognized_options_
  /\ Parse_switch stod OPTION_REUSE_HTTP_PORT optarg st = outcome
  /\ Parse_switch stod OPTION_REUSE_GRPC_PORT optarg st = outcome.
Proof.
  intros H larg outcome. subst outcome larg.
  split; [unfold recognized_options_;
          repeat (first [left; reflexivity | right]) |].
  split; [unfold recognized_options_;
          repeat (first [left; reflexivity | right]) |].
  change (Parse_switch stod OPTION_REUSE_HTTP_PORT optarg st)
    with (_ <- ParseOption_int optarg ;; Ok st).
  change (Parse_switch stod OPTION_REUSE_GRPC_PORT optarg st)
    with (_ <- ParseOption_int optarg ;; Ok st).
  assert (Hword : forall c s,
             transform tolower optarg = String c s ->
             ((97 <=? nat_of_ascii c) && (nat_of_ascii c <=? 122))%nat = true ->
             (_ <- ParseOption_int optarg ;; Ok st)
             = Throw std_invalid_argument).
  { intros c s E Hc. unfold ParseOption_int, stoi.
    rewrite (transform_tolower_word optarg c s E Hc). reflexivity. }
  assert (Hdigit : forall c,
             transform tolower optarg = String c "" ->
             digit_value c <> None ->
             (_ <- ParseOption_int optarg ;; Ok st)
             = (_ <- ParseOption_int (String c "") ;; Ok st)).
  { intros c E Hc.
    rewrite (transform_tolower_digit optarg c E Hc) at 1. reflexivity. }
  destruct (ParseOption_bool_spellings optarg b H)
    as [[-> [E | [E | E]]] | [-> [E | [E | E]]]]; rewrite E;
    cbn [String.eqb Ascii.eqb Bool.eqb orb];
    first [ rewrite (Hword _ _ E eq_refl); split; reflexivity
          | rewrite (Hdigit _ E ltac:(discriminate)); split; reflexivity ].
Qed.

End ValueProperties.

Lemma reuse_port_refuses_boolean_words_witness :
  In (mkOption OPTION_REUSE_HTTP_PORT "reuse-http-port" ArgBool)
     recognized_options_
  /\ In (mkOption OPTION_REUSE_GRPC_PORT "reuse-grpc-port" ArgBool)
        recognized_options_
  /\ Parse_switch sample_stod OPTION_REUSE_HTTP_PORT "True"
       (mkParseState sample_lparams false false false false)
     = Throw std_invalid_argument
  /\ Parse_switch sample_stod OPTION_REUSE_GRPC_PORT "True"
       (mkParseState sample_lparams false false false false)
     = Throw std_invalid_argument.
Proof.
  apply (reuse_port_refuses_boolean_words sample_stod "True" true).
  reflexivity.
Defined.

(** ** The exceptions of [--rate-limit-resource] *)

Lemma ParseRateLimiterResourceOption_name_count (name count : string) :
  contains ":" name = false ->
  contains ":" count = false ->
  size (name ++ String ":" count) < npos ->
  ParseRateLimiterResourceOption (name ++ String ":" count)
  = (c <- ParseOption_int count ;; Ok (name, c, -1)).
Proof.
  intros Hname Hcount Hfit.
  pose proof (size_nonneg name) as Hn0.
  pose proof (size_nonneg count) as Hc0.
  unfold ParseRateLimiterResourceOption.
  rewrite (find_first ":" name count Hname).
  rewrite (find_next ":" ":" name count Hfit).
  rewrite (index_char_absent ":" count 0 Hcount).
  rewrite Z.eqb_refl. cbn [negb].
  rewrite (substr_after ":" name count Hfit).
  rewrite size_append_String in Hfit.
  replace (size name =? npos) with false by (symmetry; apply Z.eqb_neq; lia).
  cbn [negb]. rewrite substr_prefix. reflexivity.
Qed.

Section RateLimitResourceErrors.

Context {double : Type} (stod : string -> Result double).

(** Which exception a malformed [--rate-limit-resource] of the
    form [name:count] ends in.  A count that is no number is reported as
    the parse exception that quotes the argument; a count that is a
    number beyond [int] is not: [std::out_of_range] leaves the case as
    it is.  A count that parses appends the resource, for every device.
    The first case is particular to this flag: the same count given to
    [--http-port] leaves the case as [std::invalid_argument]. *)
Theorem Parse_switch_rate_limit_resource_errors (name count : string)
    (st : ParseState) :
  contains ":" name = false ->
  contains ":" count = false ->
  size (name ++ ":" ++ count) < npos ->
  let optarg := name ++ ":" ++ count in
  (ParseOption_int count = Throw std_invalid_argument ->
   Parse_switch stod OPTION_RATE_LIMIT_RESOURCE optarg st
   = Throw (ParseException (RateLimitResourceParse optarg))
   /\ Parse_switch stod OPTION_HTTP_PORT count st
      = Throw std_invalid_argument)
  /\ (ParseOption_int count = Throw std_out_of_range ->
      Parse_switch stod OPTION_RATE_LIMIT_RESOURCE optarg st
      = Throw std_out_of_range)
  /\ (forall c,
         ParseOption_int count = Ok c ->
         Parse_switch stod OPTION_RATE_LIMIT_RESOURCE optarg st
         = Ok (set_lparams
                 (set_rate_limit_resources_
                    (rate_limit_resources_ (lparams st) ++ [(name, c, -1)])
                    (lparams st))
                 st)).
Proof.
  cbn [append]. intros Hname Hcount Hfit.
  assert (Hswitch :
            Parse_switch stod OPTION_RATE_LIMIT_RESOURCE
                         (name ++ String ":" count) st
            = (v <- catch_invalid_argument
                      (c <- ParseOption_int count ;; Ok (name, c, -1))
                      (ParseException
                         (RateLimitResourceParse (name ++ String ":" count))) ;;
               Ok (set_lparams
                     (set_rate_limit_resources_
                        (rate_limit_resources_ (lparams st) ++ [v])
                        (lparams st))
                     st))).
  { rewrite <- (ParseRateLimiterResourceOption_name_count name count
                  Hname Hcount Hfit).
    reflexivity. }
  rewrite Hswitch.
  change (Parse_switch stod OPTION_HTTP_PORT count st)
    with (v <- ParseOption_int count ;;
          Ok (set_lparams (set_http_port_ v (lparams st)) st)).
  split; [| split].
  - intros ->. split; reflexivity.
  - intros ->. reflexivity.
  - intros c ->. reflexivity.
Qed.

End RateLimitResourceErrors.

Lemma Parse_switch_rate_limit_resource_errors_witness :
  (Parse_switch sample_stod OPTION_RATE_LIMIT_RESOURCE ("R1" ++ ":" ++ "many")
     (mkParseState sample_lparams false false false false)
   = Throw (ParseException (RateLimitResourceParse ("R1" ++ ":" ++ "many")))
   /\ Parse_switch sample_stod OPTION_HTTP_PORT "many"
        (mkParseState sample_lparams false false false false)
      = Throw std_invalid_argument)
  /\ Parse_switch sample_stod OPTION_RATE_LIMIT_RESOURCE
       ("R1" ++ ":" ++ "99999999999")
       (mkParseState sample_lparams false false false false)
     = Throw std_out_of_range.
Proof.
  split.
  - exact (proj1 (Parse_switch_rate_limit_resource_errors sample_stod
                    "R1" "many"
                    (mkParseState sample_lparams false false false false)
                    eq_refl eq_refl eq_refl)
                 eq_refl).
  - exact (proj1 (proj2 (Parse_switch_rate_limit_resource_errors sample_stod
                           "R1" "99999999999"
                           (mkParseState sample_lparams false false false
                                         false)
                           eq_refl eq_refl eq_refl))
                 eq_refl).
Defined.

(** ** More on the port check *)

(** The check compares bind addresses as strings: entries whose
    addresses are pairwise different strings pass, whatever their ports
    and whatever range is declared. *)
Theorem check_ports_different_addresses (ports : list PortEntry) :
  (forall i j a b,
      i <> j -> nth_error ports i = Some a -> nth_error ports j = Some b ->
      (address a == address b) = false) ->
  check_ports ports = Ok tt.
Proof.
  intro Hdiff. apply check_ports_Ok. intros i j a b Hij Ha Hb.
  pose proof (Hdiff i j a b Hij Ha Hb) as Hab.
  pose proof (Hdiff j i b a (fun E => Hij (eq_sym E)) Hb Ha) as Hba.
  unfold clash, range_violation, same_address_port.
  rewrite Hab, Hba. reflexivity.
Qed.

Lemma check_ports_different_addresses_witness :
  check_ports
    [mkPortEntry "HTTP" "0.0.0.0" 8000 false (-1) (-1);
     mkPortEntry "GRPC" "127.0.0.1" 8000 false (-1) (-1);
     mkPortEntry "SageMaker" "localhost" 8000 true 9000 9002]
  = Ok tt.
Proof.
  apply check_ports_different_addresses.
  intros i j a b Hij Ha Hb.
  destruct i as [| [| [| i]]]; destruct j as [| [| [| j]]];
    cbn [nth_error] in Ha, Hb;
    try (exfalso; apply Hij; reflexivity);
    try (destruct i; discriminate Ha);
    try (destruct j; discriminate Hb);
    injection Ha as <-; injection Hb as <-; reflexivity.
Defined.

(** A declared range is not checked to be a range: with bounds
    the wrong way round no port lies within it, and the check fails as
    soon as another entry is bound to the address of the entry that
    declares it. *)
Theorem check_ports_empty_range (ports : list PortEntry) (i j : nat)
    (owner other : PortEntry) :
  i <> j ->
  nth_error ports i = Some owner ->
  nth_error ports j = Some other ->
  has_range owner = true ->
  range_max owner < range_min owner ->
  (address owner == address other) = true ->
  exists e, check_ports ports = Throw e.
Proof.
  intros Hij Hi Hj Hrange Hempty Haddress.
  destruct (check_ports ports) as [[] | e] eqn:E; [| exists e; reflexivity].
  exfalso.
  pose proof (proj1 (check_ports_Ok ports) E i j owner other Hij Hi Hj)
    as Hclash.
  unfold clash, range_violation in Hclash.
  rewrite Haddress, Hrange in Hclash. cbn [andb] in Hclash.
  destruct (port other <? range_min owner) eqn:Hlow;
    [discriminate Hclash |].
  destruct (port other >? range_max owner) eqn:Hhigh;
    [discriminate Hclash |].
  apply Z.ltb_ge in Hlow. rewrite Z.gtb_ltb in Hhigh.
  apply Z.ltb_ge in Hhigh. lia.
Qed.

Lemma check_ports_empty_range_witness :
  exists e,
    check_ports
      [mkPortEntry "HTTP" "0.0.0.0" 8500 false (-1) (-1);
       mkPortEntry "SageMaker" "0.0.0.0" 8080 true 9000 8000]
    = Throw e.
Proof.
  apply (check_ports_empty_range _ 1%nat 0%nat
           (mkPortEntry "SageMaker" "0.0.0.0" 8080 true 9000 8000)
           (mkPortEntry "HTTP" "0.0.0.0" 8500 false (-1) (-1)));
    first [discriminate | reflexivity].
Defined.

(** ** [FormatUsageMessage] *)

Lemma substring_0_0 (s : string) : substring 0 0 s = "".
Proof. destruct s; reflexivity. Qed.

Lemma rindex_None (c : ascii) (s : string) :
  forall limit : nat,
    rindex c s limit = None
    <-> contains c (substring 0 (S limit) s) = false.
Proof.
  induction s as [| c' s IH]; intro limit; [split; reflexivity |].
  cbn [rindex substring contains]. destruct limit as [| limit].
  - rewrite substring_0_0. cbn [contains]. rewrite orb_false_r.
    destruct (Ascii.eqb c' c); split; intro H;
      solve [reflexivity | discriminate H].
  - specialize (IH limit).
    destruct (rindex c s limit) as [j |].
    + split; intro H; [discriminate H |].
      apply orb_false_iff in H. destruct H as [_ H].
      apply IH in H. discriminate H.
    + rewrite (proj1 IH eq_refl), orb_false_r.
      destruct (Ascii.eqb c' c); split; intro H;
        solve [reflexivity | discriminate H].
Qed.

(** The position [rindex] finds holds the character, lies within the
    limit, and no later position within the limit holds it. *)
Lemma rindex_Some (c : ascii) (s : string) :
  forall (limit i : nat),
    rindex c s limit = Some i ->
    (i <= limit)%nat
    /\ exists a b,
        s = a ++ String c b
        /\ String.length a = i
        /\ contains c (substring 0 (limit - i) b) = false.
Proof.
  induction s as [| c' s IH]; intros limit i H; [discriminate H |].
  cbn [rindex] in H. destruct limit as [| limit].
  - destruct (Ascii.eqb c' c) eqn:E; [| discriminate H].
    injection H as <-. apply Ascii.eqb_eq in E. subst c'.
    split; [lia |]. exists "", s.
    split; [reflexivity | split; [reflexivity |]].
    cbn [Nat.sub]. rewrite substring_0_0. reflexivity.
  - destruct (rindex c s limit) as [j |] eqn:Hj.
    + injection H as <-.
      destruct (IH limit j Hj) as (Hle & a & b & -> & Ha & Hlast).
      split; [lia |]. exists (String c' a), b.
      split; [reflexivity |].
      split; [cbn [String.length]; rewrite Ha; reflexivity |].
      exact Hlast.
    + destruct (Ascii.eqb c' c) eqn:E; [| discriminate H].
      injection H as <-. apply Ascii.eqb_eq in E. subst c'.
      split; [lia |]. exists "", s.
      split; [reflexivity | split; [reflexivity |]].
      rewrite Nat.sub_0_r. apply (proj1 (rindex_None c s limit) Hj).
Qed.

(** A character of a run of [s] is among the characters of [s] up to
    the end of the run. *)
Lemma contains_window (c : ascii) (m : nat) :
  forall (j : nat) (s : string),
    contains c (substring j m s) = true ->
    contains c (substring 0 (j + m) s) = true.
Proof.
  induction j as [| j IH]; intros s H; [exact H |].
  destruct s as [| c' s]; [discriminate H |].
  cbn [substring] in H. cbn [Nat.add substring contains].
  rewrite (IH s H). apply orb_true_r.
Qed.

(** *** Texts with line breaks *)

Lemma line_broken_refl (s : string) : line_broken s s.
Proof. induction s; constructor; assumption. Qed.

Lemma line_broken_append (a a' b b' : string) :
  line_broken a a' -> line_broken b b' -> line_broken (a ++ b) (a' ++ b').
Proof.
  intros Ha Hb. induction Ha as [| c a a' _ IH | a a' _ IH].
  - exact Hb.
  - cbn [append]. constructor. exact IH.
  - change ((line_break ++ a') ++ b') with (line_break ++ (a' ++ b')).
    cbn [append]. constructor. exact IH.
Qed.

Lemma line_broken_append_inv (a : string) :
  forall b text : string,
    line_broken (a ++ b) text ->
    exists a' b',
      text = a' ++ b' /\ line_broken a a' /\ line_broken b b'.
Proof.
  induction a as [| c a IH]; intros b text H.
  - exists "", text. split; [reflexivity | split; [constructor | exact H]].
  - cbn [append] in H. inversion H as [| c0 s t Hrest | s t Hrest]; subst.
    + destruct (IH b t Hrest) as (a' & b' & -> & Ha & Hb).
      exists (String c a'), b'.
      split; [reflexivity | split; [constructor; exact Ha | exact Hb]].
    + destruct (IH b t Hrest) as (a' & b' & -> & Ha & Hb).
      exists (line_break ++ a'), b'.
      split; [reflexivity | split; [constructor; exact Ha | exact Hb]].
Qed.

(** A text broken after one more space was replaced is the text broken
    with that space among the replaced ones. *)
Lemma line_broken_at_space (a b text : string) :
  line_broken (a ++ line_break ++ b) text ->
  line_broken (a ++ String " " b) text.
Proof.
  intro H.
  destruct (line_broken_append_inv a _ _ H) as (a' & rest & -> & Ha & Hrest).
  apply (line_broken_append _ _ _ _ Ha).
  cbn [line_break append] in Hrest.
  inversion Hrest as [| c0 s t Htab |]; subst.
  inversion Htab as [| c1 s1 t1 Hb |]; subst.
  apply (line_broken_break b t1 Hb).
Qed.

Lemma size_line_break (a b : string) :
  size (a ++ line_break ++ b) = size (a ++ String " " b) + 1.
Proof.
  rewrite size_append, size_append_String.
  change (size (line_break ++ b)) with (size (String "010" (String "009" b))).
  rewrite !size_String. lia.
Qed.

Lemma to_int_npos : to_int npos = -1.
Proof. reflexivity. Qed.

(** *** The iterations of the loop *)

(** One iteration, where no sum of [int]s overflows. *)
Lemma FormatUsageMessage_loop_step (fuel : nat) (str : string)
    (current_pos : Z) :
  0 <= current_pos ->
  size str + 9 < 2 ^ 31 ->
  current_pos + 60 < size str ->
  FormatUsageMessage_loop (S fuel) str current_pos
  = match rindex " " str (Z.to_nat (current_pos + 60)) with
    | Some i =>
        FormatUsageMessage_loop
          fuel
          (substring 0 i str ++ line_break
           ++ substring (S i) (String.length str) str)
          (current_pos + 69)
    | None => FormatUsageMessage_loop fuel str current_pos
    end.
Proof.
  intros Hpos Hfit Hcond.
  pose proof (size_nonneg str) as Hs0. pose proof two_31_value as H31.
  pose proof two_64_value as H64.
  cbn [FormatUsageMessage_loop].
  rewrite (to_int_small (size str)) by lia.
  rewrite (to_int_small (current_pos + 60)) by lia.
  replace (current_pos + 60 <? size str) with true
    by (symmetry; apply Z.ltb_lt; exact Hcond).
  rewrite (to_size_t_small (current_pos + 60)) by lia.
  unfold rfind. rewrite Z.min_l by lia.
  destruct (rindex " " str (Z.to_nat (current_pos + 60))) as [i |] eqn:Hi.
  - destruct (rindex_Some _ _ _ _ Hi) as (_ & a & b & Hstr & Ha & _).
    assert (Hlt : Z.of_nat i < size str).
    { rewrite Hstr, size_append_String. unfold size. rewrite Ha.
      pose proof (size_nonneg b). unfold size in *. lia. }
    rewrite (to_int_small (Z.of_nat i)) by lia.
    rewrite to_int_npos.
    replace (Z.of_nat i =? -1) with false by (symmetry; apply Z.eqb_neq; lia).
    cbn [negb].
    rewrite to_size_t_small by lia.
    unfold replace.
    replace (size str <? Z.of_nat i) with false
      by (symmetry; apply Z.ltb_ge; lia).
    rewrite Z.min_l by lia.
    replace (Z.to_nat (Z.of_nat i + 1)) with (S i) by lia.
    rewrite Nat2Z.id.
    change (current_pos + (60 + 9)) with (current_pos + 69).
    rewrite (to_int_small (current_pos + 69)) by lia.
    reflexivity.
  - rewrite to_int_npos. reflexivity.
Qed.

(** The string after the replacement at a space. *)
Lemma replaced_at_space (a b : string) :
  substring 0 (String.length a) (a ++ String " " b) ++ line_break
  ++ substring (S (String.length a)) (String.length (a ++ String " " b))
               (a ++ String " " b)
  = a ++ line_break ++ b.
Proof.
  rewrite substring_prefix. do 2 f_equal.
  rewrite (append_String a " " b).
  replace (S (String.length a))
    with (String.length (a ++ String " " "") + 0)%nat
    by (rewrite length_append; cbn [String.length]; lia).
  rewrite substring_skip, substring_whole; [reflexivity |].
  rewrite !length_append. lia.
Qed.

Lemma FormatUsageMessage_loop_exit (fuel : nat) (str : string)
    (current_pos : Z) :
  0 <= current_pos ->
  current_pos + 60 < 2 ^ 31 ->
  size str < 2 ^ 31 ->
  size str <= current_pos + 60 ->
  FormatUsageMessage_loop fuel str current_pos = Some (Ok str).
Proof.
  intros Hpos Hsum Hfit Hcond.
  pose proof (size_nonneg str) as Hs0. pose proof two_31_value as H31.
  destruct fuel; cbn [FormatUsageMessage_loop];
    rewrite (to_int_small (size str)) by lia;
    rewrite (to_int_small (current_pos + 60)) by lia;
    replace (current_pos + 60 <? size str) with false
      by (symmetry; apply Z.ltb_ge; exact Hcond);
    reflexivity.
Qed.

(** An iteration that finds no space changes nothing, and neither does
    any after it. *)
Lemma FormatUsageMessage_loop_stuck (str : string) (current_pos : Z) :
  0 <= current_pos ->
  size str + 9 < 2 ^ 31 ->
  current_pos + 60 < size str ->
  rindex " " str (Z.to_nat (current_pos + 60)) = None ->
  forall fuel, FormatUsageMessage_loop fuel str current_pos = None.
Proof.
  intros Hpos Hfit Hcond Hnone fuel.
  pose proof (size_nonneg str) as Hs0. pose proof two_31_value as H31.
  induction fuel as [| fuel IH].
  - cbn [FormatUsageMessage_loop].
    rewrite (to_int_small (size str)) by lia.
    rewrite (to_int_small (current_pos + 60)) by lia.
    replace (current_pos + 60 <? size str) with true
      by (symmetry; apply Z.ltb_lt; exact Hcond).
    reflexivity.
  - rewrite FormatUsageMessage_loop_step by assumption.
    rewrite Hnone. exact IH.
Qed.

Lemma iterations_bound_exit (str : string) (current_pos : Z) :
  size str <= current_pos + 60 -> iterations_bound str current_pos = O.
Proof.
  intro H. unfold iterations_bound.
  assert ((size str - current_pos - 60 + 67) / 68 <= 0).
  { apply Z.lt_succ_r. apply Z.div_lt_upper_bound; lia. }
  lia.
Qed.

Lemma iterations_bound_step (a b : string) (current_pos : Z) :
  current_pos + 60 < size (a ++ String " " b) ->
  iterations_bound (a ++ String " " b) current_pos
  = S (iterations_bound (a ++ line_break ++ b) (current_pos + 69)).
Proof.
  intro H. unfold iterations_bound. rewrite size_line_break.
  set (m := size (a ++ String " " b) - current_pos - 60) in *.
  replace (size (a ++ String " " b) + 1 - (current_pos + 69) - 60 + 67)
    with (m + 67 + (-1) * 68) by (unfold m; lia).
  rewrite Z.div_add by lia.
  assert (1 <= (m + 67) / 68).
  { apply Z.div_le_lower_bound; unfold m; lia. }
  lia.
Qed.

(** The bound is small against the length of the string. *)
Lemma iterations_bound_small (str : string) (current_pos : Z) :
  0 <= current_pos ->
  68 * Z.of_nat (iterations_bound str current_pos) <= size str + 7.
Proof.
  intro Hpos. pose proof (size_nonneg str) as Hs0. unfold iterations_bound.
  destruct (Z.le_gt_cases 0 ((size str - current_pos - 60 + 67) / 68))
    as [Hle | Hgt].
  - rewrite Z2Nat.id by exact Hle.
    pose proof (Z.mul_div_le (size str - current_pos - 60 + 67) 68
                  ltac:(lia)).
    lia.
  - lia.
Qed.

Lemma FormatUsageMessage_loop_result (fuel : nat) :
  forall (str : string) (current_pos : Z) (r : Result string),
    0 <= current_pos ->
    current_pos + 60 < 2 ^ 31 ->
    size str + Z.of_nat (iterations_bound str current_pos) + 69 < 2 ^ 31 ->
    FormatUsageMessage_loop fuel str current_pos = Some r ->
    FormatUsageMessage_loop (iterations_bound str current_pos) str current_pos
    = Some r
    /\ exists text,
        r = Ok text
        /\ line_broken str text
        /\ size text
           = size str + Z.of_nat (iterations_bound str current_pos).
Proof.
  induction fuel as [| fuel IH]; intros str current_pos r Hpos Hsum Hfit H;
    pose proof (size_nonneg str) as Hs0;
    destruct (Z.le_gt_cases (size str) (current_pos + 60)) as [Hexit | Hcond].
  - rewrite FormatUsageMessage_loop_exit in H |- * by lia.
    injection H as <-. split; [reflexivity |].
    exists str. split; [reflexivity | split; [apply line_broken_refl |]].
    rewrite (iterations_bound_exit str current_pos Hexit). lia.
  - exfalso. cbn [FormatUsageMessage_loop] in H.
    rewrite (to_int_small (size str)) in H by (rewrite two_31_value in *; lia).
    rewrite (to_int_small (current_pos + 60)) in H
      by (rewrite two_31_value in *; lia).
    replace (current_pos + 60 <? size str) with true in H
      by (symmetry; apply Z.ltb_lt; exact Hcond).
    discriminate H.
  - rewrite FormatUsageMessage_loop_exit in H |- * by lia.
    injection H as <-. split; [reflexivity |].
    exists str. split; [reflexivity | split; [apply line_broken_refl |]].
    rewrite (iterations_bound_exit str current_pos Hexit). lia.
  - rewrite FormatUsageMessage_loop_step in H by lia.
    destruct (rindex " " str (Z.to_nat (current_pos + 60))) as [i |] eqn:Hi.
    + destruct (rindex_Some _ _ _ _ Hi) as (_ & a & b & -> & <- & _).
      rewrite replaced_at_space in H.
      rewrite (iterations_bound_step a b current_pos Hcond) in Hfit |- *.
      destruct (IH (a ++ line_break ++ b) (current_pos + 69) r) as
        (Hbound & text & -> & Hbroken & Hsize);
        [lia | lia | rewrite size_line_break; lia | exact H |].
      rewrite size_line_break in Hsize.
      split.
      * rewrite FormatUsageMessage_loop_step, Hi, replaced_at_space by lia.
        exact Hbound.
      * exists text. split; [reflexivity |].
        split; [apply line_broken_at_space; exact Hbroken | lia].
    + apply (IH str current_pos r); assumption.
Qed.

Lemma FormatUsageMessage_at_offset (str : string) (offset : Z)
    (fuel : nat) :
  0 <= offset ->
  offset + 60 <= INT_MAX ->
  FormatUsageMessage fuel str offset
  = FormatUsageMessage_loop fuel str offset.
Proof.
  intros Hoffset Hsum. unfold FormatUsageMessage. unfold INT_MAX in Hsum.
  rewrite to_int_small by (rewrite two_31_value in *; lia). reflexivity.
Qed.

(** Under the bounds of the theorems no sum of the loop overflows. *)
Lemma FormatUsageMessage_bounds (str : string) (offset : Z) :
  0 <= offset ->
  offset + 60 <= INT_MAX ->
  size str < 2 ^ 30 ->
  offset + 60 < 2 ^ 31
  /\ size str + Z.of_nat (iterations_bound str offset) + 69 < 2 ^ 31
  /\ size str + 9 < 2 ^ 31.
Proof.
  intros Hoffset Hsum Hfit.
  pose proof (iterations_bound_small str offset Hoffset) as Hsmall.
  pose proof (size_nonneg str) as Hs0.
  unfold INT_MAX in Hsum.
  change (2 ^ 30) with 1073741824 in Hfit. rewrite two_31_value in *.
  lia.
Qed.

(** A usage text that fits the width is returned as it is, without an
    iteration.  For a longer one the loop need not end: if there is no
    space among the characters up to the first place a line may be
    broken at, the iteration finds nothing to replace and changes
    nothing, so the function never returns.  The offset and the length
    are such that no sum of [int]s overflows. *)
Theorem FormatUsageMessage_never_returns (str : string) (offset : Z) :
  0 <= offset ->
  offset + 60 <= INT_MAX ->
  size str < 2 ^ 30 ->
  (size str <= offset + 60 ->
   FormatUsageMessage 0 str offset = Some (Ok str))
  /\ (offset + 60 < size str ->
      contains " " (substring 0 (Z.to_nat (offset + 61)) str) = false ->
      forall fuel, FormatUsageMessage fuel str offset = None).
Proof.
  intros Hoffset Hsum Hfit.
  destruct (FormatUsageMessage_bounds str offset Hoffset Hsum Hfit)
    as (H1 & H2 & H3).
  split.
  - intro Hexit. rewrite FormatUsageMessage_at_offset by assumption.
    apply FormatUsageMessage_loop_exit;
      [assumption | assumption | lia | assumption].
  - intros Hcond Hnone fuel.
    rewrite FormatUsageMessage_at_offset by assumption.
    apply FormatUsageMessage_loop_stuck; try assumption.
    apply rindex_None.
    replace (S (Z.to_nat (offset + 60))) with (Z.to_nat (offset + 61)) by lia.
    exact Hnone.
Qed.

(** When [FormatUsageMessage] returns at all, it returns within
    [iterations_bound] iterations and without exception; what it
    returns is the text with some of its spaces replaced by line breaks
    and nothing else changed, the breaks being as many as the bound
    says, so that the text is longer by that many characters.  Where the
    breaks are: when the text does not fit the width, the space that is
    replaced first is the last one at or before position [offset + 60],
    and the result is that of the function on the text so changed, with
    the offset moved on by 69.  The offset and the length are such that
    no sum of [int]s overflows. *)
Theorem FormatUsageMessage_result (fuel : nat) (str : string) (offset : Z)
    (r : Result string) :
  0 <= offset ->
  offset + 60 <= INT_MAX ->
  size str < 2 ^ 30 ->
  FormatUsageMessage fuel str offset = Some r ->
  FormatUsageMessage (iterations_bound str offset) str offset = Some r
  /\ (exists text,
         r = Ok text
         /\ line_broken str text
         /\ size text = size str + Z.of_nat (iterations_bound str offset))
  /\ (offset + 60 < size str ->
      exists a b,
        str = a ++ String " " b
        /\ size a <= offset + 60
        /\ contains " " (substring 0 (Z.to_nat (offset + 60 - size a)) b)
           = false
        /\ forall fuel',
            FormatUsageMessage (S fuel') str offset
            = FormatUsageMessage fuel' (a ++ line_break ++ b) (offset + 69)).
Proof.
  intros Hoffset Hsum Hfit.
  destruct (FormatUsageMessage_bounds str offset Hoffset Hsum Hfit)
    as (H1 & H2 & H3).
  rewrite !(FormatUsageMessage_at_offset str offset) by assumption. intro H.
  destruct (FormatUsageMessage_loop_result fuel str offset r
              Hoffset H1 H2 H) as (Hbound & Hresult).
  split; [exact Hbound | split; [exact Hresult |]].
  intro Hcond.
  destruct (rindex " " str (Z.to_nat (offset + 60))) as [i |] eqn:Hi.
  - destruct (rindex_Some _ _ _ _ Hi) as (Hle & a & b & Hstr & Ha & Hlast).
    exists a, b. split; [exact Hstr |].
    assert (Hsize : size a = Z.of_nat i)
      by (unfold size; rewrite Ha; reflexivity).
    split; [lia |]. split.
    + replace (Z.to_nat (offset + 60 - size a))
        with (Z.to_nat (offset + 60) - i)%nat by lia.
      exact Hlast.
    + intro fuel'. unfold FormatUsageMessage.
      unfold INT_MAX in Hsum. pose proof two_31_value as H31.
      pose proof (size_nonneg str) as Hs0.
      rewrite (to_int_small offset) by lia.
      rewrite (to_int_small (offset + 69)) by lia.
      rewrite FormatUsageMessage_loop_step, Hi by assumption.
      subst i. rewrite Hstr, replaced_at_space. reflexivity.
  - rewrite (FormatUsageMessage_loop_stuck str offset Hoffset H3 Hcond Hi fuel)
      in H.
    discriminate H.
Qed.

Lemma spaced_window (str : string) (from j : nat) :
  spaced str from = true ->
  (from <= j)%nat -> (j + 61 <= String.length str)%nat ->
  contains " " (substring j 61 str) = true.
Proof.
  unfold spaced. intros H Hfrom Hj.
  apply (proj1 (forallb_forall _ _) H j). apply in_seq. lia.
Qed.

Lemma spaced_line_break (a b : string) (from : nat) :
  spaced (a ++ String " " b) from = true ->
  (String.length a <= from + 60)%nat ->
  spaced (a ++ line_break ++ b) (from + 69) = true.
Proof.
  intros H Ha. unfold spaced. apply forallb_forall. intros j Hj.
  apply in_seq in Hj.
  assert (Hlen : String.length (a ++ line_break ++ b)
                 = S (String.length (a ++ String " " b))).
  { rewrite !length_append. cbn [String.length append line_break]. lia. }
  rewrite Hlen in Hj.
  assert (Heq : substring j 61 (a ++ line_break ++ b)
                = substring (j - 1) 61 (a ++ String " " b)).
  { rewrite <- (append_assoc a line_break b).
    rewrite (append_String a " " b).
    replace j
      with (String.length (a ++ line_break) + (j - String.length a - 2))%nat
      at 1
      by (rewrite length_append; cbn [String.length line_break]; lia).
    replace (j - 1)%nat
      with (String.length (a ++ String " " "")
            + (j - String.length a - 2))%nat
      by (rewrite length_append; cbn [String.length]; lia).
    rewrite !substring_skip. reflexivity. }
  rewrite Heq. apply (spaced_window _ from (j - 1) H); lia.
Qed.

Lemma FormatUsageMessage_loop_spaced (n : nat) :
  forall (str : string) (current_pos : Z),
    iterations_bound str current_pos = n ->
    0 <= current_pos ->
    current_pos + 60 < 2 ^ 31 ->
    size str + Z.of_nat n + 69 < 2 ^ 31 ->
    spaced str (Z.to_nat current_pos) = true ->
    exists text, FormatUsageMessage_loop n str current_pos = Some (Ok text).
Proof.
  induction n as [| n IH];
    intros str current_pos Hn Hpos Hsum Hfit Hspaced;
    pose proof (size_nonneg str) as Hs0;
    pose proof two_31_value as H31; pose proof two_64_value as H64;
    destruct (Z.le_gt_cases (size str) (current_pos + 60)) as [Hexit | Hcond];
    try (exists str; apply FormatUsageMessage_loop_exit; lia).
  - (* the bound is not zero while the loop goes on *)
    exfalso. unfold iterations_bound in Hn.
    assert (1 <= (size str - current_pos - 60 + 67) / 68)
      by (apply Z.div_le_lower_bound; lia).
    lia.
  - rewrite FormatUsageMessage_loop_step by lia.
    destruct (rindex " " str (Z.to_nat (current_pos + 60))) as [i |] eqn:Hi.
    + destruct (rindex_Some _ _ _ _ Hi) as (Hle & a & b & -> & <- & _).
      rewrite replaced_at_space.
      rewrite (iterations_bound_step a b current_pos Hcond) in Hn.
      injection Hn as Hn.
      apply IH.
      * exact Hn.
      * lia.
      * lia.
      * rewrite size_line_break. lia.
      * replace (Z.to_nat (current_pos + 69))
          with (Z.to_nat current_pos + 69)%nat by lia.
        apply spaced_line_break; [exact Hspaced | lia].
    + exfalso.
      apply (proj1 (rindex_None " " str (Z.to_nat (current_pos + 60)))) in Hi.
      pose proof (spaced_window str _ (Z.to_nat current_pos) Hspaced
                    (Nat.le_refl _)) as Hwindow.
      assert (Hin : (Z.to_nat current_pos + 61 <= String.length str)%nat)
        by (unfold size in Hcond; lia).
      apply Hwindow in Hin. apply contains_window in Hin.
      replace (Z.to_nat current_pos + 61)%nat
        with (S (Z.to_nat (current_pos + 60))) in Hin by lia.
      rewrite Hin in Hi. discriminate Hi.
Qed.

(** [FormatUsageMessage] returns on every text in which, from the
    offset on, no word is longer than 60 characters: then each
    iteration finds a space to replace, and [iterations_bound]
    iterations are enough.  The offset and the length are such that no
    sum of [int]s overflows. *)
Theorem FormatUsageMessage_returns (str : string) (offset : Z) :
  0 <= offset ->
  offset + 60 <= INT_MAX ->
  size str < 2 ^ 30 ->
  spaced str (Z.to_nat offset) = true ->
  exists text,
    FormatUsageMessage (iterations_bound str offset) str offset
    = Some (Ok text).
Proof.
  intros Hoffset Hsum Hfit Hspaced.
  destruct (FormatUsageMessage_bounds str offset Hoffset Hsum Hfit)
    as (H1 & H2 & H3).
  rewrite FormatUsageMessage_at_offset by assumption.
  apply FormatUsageMessage_loop_spaced; [reflexivity | assumption ..].
Qed.

Lemma FormatUsageMessage_never_returns_witness :
  FormatUsageMessage 1000 sample_unbroken_text 0 = None.
Proof.
  apply (proj2 (FormatUsageMessage_never_returns sample_unbroken_text 0
                  ltac:(lia) ltac:(unfold INT_MAX; lia)
                  ltac:(reflexivity)));
    reflexivity.
Defined.

Lemma FormatUsageMessage_result_witness :
  exists r,
    FormatUsageMessage 5 sample_description 0 = Some r
    /\ FormatUsageMessage (iterations_bound sample_description 0)
                          sample_description 0
       = Some r
    /\ (exists text,
           r = Ok text
           /\ line_broken sample_description text
           /\ size text
              = size sample_description
                + Z.of_nat (iterations_bound sample_description 0))
    /\ (0 + 60 < size sample_description ->
        exists a b,
          sample_description = a ++ String " " b
          /\ size a <= 0 + 60
          /\ contains " " (substring 0 (Z.to_nat (0 + 60 - size a)) b)
             = false
          /\ forall fuel',
              FormatUsageMessage (S fuel') sample_description 0
              = FormatUsageMessage fuel' (a ++ line_break ++ b) (0 + 69)).
Proof.
  assert (Hr : {r | FormatUsageMessage 5 sample_description 0 = Some r})
    by (eexists; vm_compute; reflexivity).
  destruct Hr as [r Hr]. exists r. split; [exact Hr |].
  apply (FormatUsageMessage_result 5 sample_description 0 r);
    [lia | unfold INT_MAX; lia | reflexivity | exact Hr].
Defined.

Lemma FormatUsageMessage_returns_witness :
  exists text,
    FormatUsageMessage (iterations_bound sample_description 0)
                       sample_description 0
    = Some (Ok text).
Proof.
  apply (FormatUsageMessage_returns sample_description 0);
    [lia | unfold INT_MAX; lia | reflexivity | reflexivity].
Defined.

(** Beyond the bounds of the theorems: at the offset 2147483647 the sum
    of the offset and the width wraps to a negative number, the loop is
    entered on a text as short as this one, replaces its only space and
    then finds none; the iterations are used up. *)
Example FormatUsageMessage_wraps :
  FormatUsageMessage 100 "Print usage" 2147483647 = None.
Proof. vm_compute. reflexivity. Qed.
